(** * Maturity: the simulation core of [maindebug.py]

    A shallow embedding of the player-state, physics, collision, boundary,
    hazard and pickup code of the platform game, and the properties of the
    specification that concern it.

    Numbers.  The player dictionary mixes Python ints and floats: positions,
    velocities and speeds are floats ([3.5], [0.2]) or small ints that meet
    floats, while hit points, the dash timer and millisecond timestamps are
    ints.  Ints are [Z].  A float is an IEEE 754 binary64 number and is
    modelled by the rational [Q] that it denotes; every addition and
    subtraction of the source on these numbers is the exact operation
    followed by rounding to binary64 ([float_add], [float_sub]), comparisons,
    [min], [abs] and negation are exact, as they are in Python.  Infinities
    and NaN are not modelled (they need numbers beyond 1.7e308), and neither
    is the exact arithmetic of Python ints beyond [2 ^ 53]; the numbers of a
    session stay far below both.  [pygame.Rect] stores integer coordinates
    and truncates float arguments toward zero. *)

From Stdlib Require Import ZArith QArith Qabs Qround Qpower Bool List Lia Lqa.
Import ListNotations.

Open Scope Z_scope.

(** ** Python floats

    Rounding of a rational to the nearest binary64 number, ties to the even
    significand: a significand of 53 bits, and exponents from -1074 (the
    subnormal numbers) upwards. *)

(** [floor (log2 |q|)], for [q] other than 0. *)
Definition ilog2 (q : Q) : Z :=
  let l := Z.log2 (Z.abs (Qnum q)) - Z.log2 (Z.pos (Qden q)) in
  if Qle_bool (2 ^ l) (Qabs q) then l else l - 1.

(** The nearest integer, ties to the even one. *)
Definition round_half_even (x : Q) : Z :=
  let k := Qfloor x in
  match (x - inject_Z k ?= 1 # 2)%Q with
  | Lt => k
  | Gt => k + 1
  | Eq => if Z.even k then k else k + 1
  end.

(** The exponent of the unit in the last place of the binary64 numbers
    around [q]. *)
Definition float_exponent (q : Q) : Z := Z.max (ilog2 q - 52) (-1074).

(** The nearest multiple of [2 ^ e]. *)
Definition grid (e : Z) (x : Q) : Q :=
  (inject_Z (round_half_even (x / 2 ^ e)) * 2 ^ e)%Q.

Definition binary64 (q : Q) : Q := Qred (grid (float_exponent q) q).

(** [a + b] and [a - b] on floats, or on a float and an int. *)
Definition float_add (a b : Q) : Q := binary64 (a + b).
Definition float_sub (a b : Q) : Q := binary64 (a - b).

Arguments binary64 : simpl never.
Arguments float_add : simpl never.
Arguments float_sub : simpl never.

(** ** Constants (lines 11-34) *)

Definition WINDOW_WIDTH : Z := 800.
Definition WINDOW_HEIGHT : Z := 600.
Definition WORLD_WIDTH : Z := 4069.
Definition WORLD_HEIGHT : Z := 2048.
Definition SKYBOX_HEIGHT : Z := 50.

Module PLAYER_STATS.
Definition size : Z := 15.
Definition start_pos : Q * Q := (200 # 1, 200 # 1)%Q.
Definition speed : Q := (7 # 2)%Q.
Definition dash_speed : Q := (9 # 1)%Q.
Definition dash_cooldown : Z := 500.
Definition jump_force : Q := (-5 # 1)%Q.
End PLAYER_STATS.

(** The literal [0.2] is the binary64 number nearest to 1/5; [3.5] is a
    binary64 number. *)
Definition GRAVITY : Q := binary64 (1 # 5).
Definition MAX_FALL_SPEED : Q := (10 # 1)%Q.

(** ** Python and pygame primitives *)

(** Strict comparison of two numbers, [a < b]; [Qle_bool] is [a <= b]. *)
Definition Qlt_bool (a b : Q) : bool := negb (Qle_bool b a).

(** Python's [min(a, b)]: the first argument unless the second is smaller. *)
Definition py_min (a b : Q) : Q := if Qlt_bool b a then b else a.

(** Conversion of a float to a C [int] as [pygame.Rect] does it, for numbers
    within the range of a C [int]: truncation toward zero. *)
Definition to_int (q : Q) : Z := Z.quot (Qnum q) (Z.pos (Qden q)).

(** [pygame.Rect(x, y, width, height)] with its derived edges. *)
Record Rect := mkRect { rx : Z; ry : Z; rw : Z; rh : Z }.

Definition left (r : Rect) : Z := rx r.
Definition top (r : Rect) : Z := ry r.
Definition right (r : Rect) : Z := rx r + rw r.
Definition bottom (r : Rect) : Z := ry r + rh r.

(** [Rect.colliderect]: two rectangles of non-zero size intersect when they
    overlap on both axes; touching edges do not count. *)
Definition colliderect (a b : Rect) : bool :=
  negb ((rw a =? 0) || (rh a =? 0) || (rw b =? 0) || (rh b =? 0)) &&
  (Z.min (rx a) (rx a + rw a) <? Z.max (rx b) (rx b + rw b)) &&
  (Z.min (ry a) (ry a + rh a) <? Z.max (ry b) (ry b + rh b)) &&
  (Z.max (rx a) (rx a + rw a) >? Z.min (rx b) (rx b + rw b)) &&
  (Z.max (ry a) (ry a + rh a) >? Z.min (ry b) (ry b + rh b)).

(** [pygame.key.get_pressed()], restricted to the keys the game reads. *)
Record Keys := mkKeys {
  K_LSHIFT : bool; K_RIGHT : bool; K_d : bool;
  K_LEFT : bool; K_a : bool; K_SPACE : bool
}.

(** ** Entities (lines 37-69, 438-454) *)

Record Platform := mkPlatform { rect : Rect }.

Record Coin := mkCoin { coin_rect : Rect; collected : bool }.

Record DamageBrick := mkDamageBrick { brick_rect : Rect; damage : Z }.

(** The player dictionary of [main]; [pos] is split into its two cells. *)
Record Player := mkPlayer {
  pos_x : Q;
  pos_y : Q;
  y_velocity : Q;
  x_velocity : Q;
  is_grounded : bool;
  last_dash : Z;
  speed : Q;
  dash_speed : Q;
  dash_cooldown : Z;
  is_dashing : bool;
  dash_timer : Z;
  facing_right : bool;
  dash_key_pressed : bool;
  hp : Z;
  is_invincible : bool;
  last_damage_time : Z
}.

(** Assignments to one key of the dictionary. *)
Definition set_pos_x (v : Q) (p : Player) : Player :=
  mkPlayer v (pos_y p) (y_velocity p) (x_velocity p) (is_grounded p)
    (last_dash p) (speed p) (dash_speed p) (dash_cooldown p) (is_dashing p)
    (dash_timer p) (facing_right p) (dash_key_pressed p) (hp p)
    (is_invincible p) (last_damage_time p).

Definition set_pos_y (v : Q) (p : Player) : Player :=
  mkPlayer (pos_x p) v (y_velocity p) (x_velocity p) (is_grounded p)
    (last_dash p) (speed p) (dash_speed p) (dash_cooldown p) (is_dashing p)
    (dash_timer p) (facing_right p) (dash_key_pressed p) (hp p)
    (is_invincible p) (last_damage_time p).

Definition set_y_velocity (v : Q) (p : Player) : Player :=
  mkPlayer (pos_x p) (pos_y p) v (x_velocity p) (is_grounded p)
    (last_dash p) (speed p) (dash_speed p) (dash_cooldown p) (is_dashing p)
    (dash_timer p) (facing_right p) (dash_key_pressed p) (hp p)
    (is_invincible p) (last_damage_time p).

Definition set_x_velocity (v : Q) (p : Player) : Player :=
  mkPlayer (pos_x p) (pos_y p) (y_velocity p) v (is_grounded p)
    (last_dash p) (speed p) (dash_speed p) (dash_cooldown p) (is_dashing p)
    (dash_timer p) (facing_right p) (dash_key_pressed p) (hp p)
    (is_invincible p) (last_damage_time p).

Definition set_is_grounded (v : bool) (p : Player) : Player :=
  mkPlayer (pos_x p) (pos_y p) (y_velocity p) (x_velocity p) v
    (last_dash p) (speed p) (dash_speed p) (dash_cooldown p) (is_dashing p)
    (dash_timer p) (facing_right p) (dash_key_pressed p) (hp p)
    (is_invincible p) (last_damage_time p).

Definition set_last_dash (v : Z) (p : Player) : Player :=
  mkPlayer (pos_x p) (pos_y p) (y_velocity p) (x_velocity p) (is_grounded p)
    v (speed p) (dash_speed p) (dash_cooldown p) (is_dashing p)
    (dash_timer p) (facing_right p) (dash_key_pressed p) (hp p)
    (is_invincible p) (last_damage_time p).

Definition set_is_dashing (v : bool) (p : Player) : Player :=
  mkPlayer (pos_x p) (pos_y p) (y_velocity p) (x_velocity p) (is_grounded p)
    (last_dash p) (speed p) (dash_speed p) (dash_cooldown p) v
    (dash_timer p) (facing_right p) (dash_key_pressed p) (hp p)
    (is_invincible p) (last_damage_time p).

Definition set_dash_timer (v : Z) (p : Player) : Player :=
  mkPlayer (pos_x p) (pos_y p) (y_velocity p) (x_velocity p) (is_grounded p)
    (last_dash p) (speed p) (dash_speed p) (dash_cooldown p) (is_dashing p)
    v (facing_right p) (dash_key_pressed p) (hp p)
    (is_invincible p) (last_damage_time p).

Definition set_facing_right (v : bool) (p : Player) : Player :=
  mkPlayer (pos_x p) (pos_y p) (y_velocity p) (x_velocity p) (is_grounded p)
    (last_dash p) (speed p) (dash_speed p) (dash_cooldown p) (is_dashing p)
    (dash_timer p) v (dash_key_pressed p) (hp p)
    (is_invincible p) (last_damage_time p).

Definition set_dash_key_pressed (v : bool) (p : Player) : Player :=
  mkPlayer (pos_x p) (pos_y p) (y_velocity p) (x_velocity p) (is_grounded p)
    (last_dash p) (speed p) (dash_speed p) (dash_cooldown p) (is_dashing p)
    (dash_timer p) (facing_right p) v (hp p)
    (is_invincible p) (last_damage_time p).

Definition set_hp (v : Z) (p : Player) : Player :=
  mkPlayer (pos_x p) (pos_y p) (y_velocity p) (x_velocity p) (is_grounded p)
    (last_dash p) (speed p) (dash_speed p) (dash_cooldown p) (is_dashing p)
    (dash_timer p) (facing_right p) (dash_key_pressed p) v
    (is_invincible p) (last_damage_time p).

Definition set_is_invincible (v : bool) (p : Player) : Player :=
  mkPlayer (pos_x p) (pos_y p) (y_velocity p) (x_velocity p) (is_grounded p)
    (last_dash p) (speed p) (dash_speed p) (dash_cooldown p) (is_dashing p)
    (dash_timer p) (facing_right p) (dash_key_pressed p) (hp p)
    v (last_damage_time p).

Definition set_last_damage_time (v : Z) (p : Player) : Player :=
  mkPlayer (pos_x p) (pos_y p) (y_velocity p) (x_velocity p) (is_grounded p)
    (last_dash p) (speed p) (dash_speed p) (dash_cooldown p) (is_dashing p)
    (dash_timer p) (facing_right p) (dash_key_pressed p) (hp p)
    (is_invincible p) v.

(** The square hitbox built at lines 155, 261, 288 and 537. *)
Definition player_rect (p : Player) : Rect :=
  mkRect (to_int (pos_x p)) (to_int (pos_y p))
         PLAYER_STATS.size PLAYER_STATS.size.

(** ** The clock

    [pygame.time.get_ticks()] is sampled at each point of use.  A computation
    that reads the clock takes the readings of the current frame, in call
    order, and the number of calls made so far. *)

Definition Clock (A : Type) : Type := (nat -> Z) -> nat -> A * nat.

Definition ret {A} (a : A) : Clock A := fun _ n => (a, n).

Definition bind {A B} (m : Clock A) (f : A -> Clock B) : Clock B :=
  fun tk n => let (a, n') := m tk n in f a tk n'.

Definition get_ticks : Clock Z := fun tk n => (tk n, S n).

Notation "x <- m ;; k" := (bind m (fun x => k))
  (at level 61, m at next level, right associativity).

(** ** Physics integrator (lines 73-85) *)

Definition apply_physics (player : Player) : Player :=
  let player :=
    if negb (is_dashing player) then
      if negb (is_grounded player) then
        let player :=
          set_y_velocity (float_add (y_velocity player) GRAVITY) player in
        set_y_velocity (py_min (y_velocity player) MAX_FALL_SPEED) player
      else player
    else
      let player := set_dash_timer (dash_timer player - 1) player in
      if dash_timer player <=? 0 then
        let player := set_is_dashing false player in
        set_x_velocity 0%Q player
      else player in
  set_pos_y (float_add (pos_y player) (y_velocity player)) player.

(** ** Boundary constraint (lines 87-104) *)

Definition constrain_player_to_world (player : Player) : Player :=
  let player :=
    if Qlt_bool (pos_x player) 0 then
      let player := set_pos_x 0%Q player in
      set_x_velocity 0%Q player
    else if Qlt_bool (inject_Z (WORLD_WIDTH - PLAYER_STATS.size)) (pos_x player) then
      let player := set_pos_x (inject_Z (WORLD_WIDTH - PLAYER_STATS.size)) player in
      set_x_velocity 0%Q player
    else player in
  if Qlt_bool (pos_y player) (inject_Z SKYBOX_HEIGHT) then
    let player := set_pos_y (inject_Z SKYBOX_HEIGHT) player in
    set_y_velocity 0%Q player
  else if Qlt_bool (inject_Z (WORLD_HEIGHT - PLAYER_STATS.size)) (pos_y player) then
    let player := set_pos_y (inject_Z (WORLD_HEIGHT - PLAYER_STATS.size)) player in
    let player := set_y_velocity 0%Q player in
    set_is_grounded true player
  else player.

(** ** Movement and dash controller (lines 106-146)

    The parameter [delta_time] of the source is never read and is left out.
    The clock is read once for the cooldown test and once more to stamp
    [last_dash]. *)

Definition move_player (player : Player) (keys : Keys) : Clock Player :=
  if is_dashing player then
    ret (set_pos_x (float_add (pos_x player) (x_velocity player)) player)
  else
    let speed := speed player in
    player <-
      (if K_LSHIFT keys then
         player <-
           (if negb (dash_key_pressed player) then
              now <- get_ticks ;;
              if now - last_dash player >=? dash_cooldown player then
                if K_RIGHT keys || K_d keys then
                  let player := set_is_dashing true player in
                  let player := set_dash_timer 15 player in
                  let player := set_x_velocity (dash_speed player) player in
                  let player := set_facing_right true player in
                  stamp <- get_ticks ;;
                  ret (set_last_dash stamp player)
                else if K_LEFT keys || K_a keys then
                  let player := set_is_dashing true player in
                  let player := set_dash_timer 15 player in
                  let player := set_x_velocity (- dash_speed player)%Q player in
                  let player := set_facing_right false player in
                  stamp <- get_ticks ;;
                  ret (set_last_dash stamp player)
                else ret player
              else ret player
            else ret player) ;;
         ret (set_dash_key_pressed true player)
       else ret (set_dash_key_pressed false player)) ;;
    let player :=
      if K_LEFT keys || K_a keys then
        let player := set_pos_x (float_sub (pos_x player) speed) player in
        set_facing_right false player
      else player in
    let player :=
      if K_RIGHT keys || K_d keys then
        let player := set_pos_x (float_add (pos_x player) speed) player in
        set_facing_right true player
      else player in
    let player :=
      if K_SPACE keys && is_grounded player then
        set_y_velocity PLAYER_STATS.jump_force player
      else player in
    ret player.

(** ** Collision resolver (lines 150-211)

    [player_rect] and [previous_bottom] are computed once, before the loop;
    the guards read [y_velocity] from the dictionary each time. *)

(** The swept test of the landing branch, lines 161-164: the bottom edge was
    at or above the platform's top, is at or below it now, and the two
    rectangles overlap horizontally. *)
Definition crosses_top (player_rect : Rect) (previous_bottom : Q)
    (platform : Platform) : bool :=
  Qle_bool previous_bottom (inject_Z (top (rect platform))) &&
  (bottom player_rect >=? top (rect platform)) &&
  (right player_rect >? left (rect platform)) &&
  (left player_rect <? right (rect platform)).

(** Guard of the landing branch, lines 160-166. *)
Definition top_collision (player_rect : Rect) (previous_bottom : Q)
    (platform : Platform) (player : Player) : bool :=
  crosses_top player_rect previous_bottom platform &&
  Qlt_bool 0 (y_velocity player).

(** Guard of the head-bump branch, lines 173-179 and again lines 203-209. *)
Definition bottom_collision (player_rect : Rect) (platform : Platform)
    (player : Player) : bool :=
  (top player_rect <? bottom (rect platform)) &&
  Qle_bool (float_sub (inject_Z (bottom (rect platform)))
                      (Qabs (y_velocity player)))
           (inject_Z (top player_rect)) &&
  (right player_rect >? left (rect platform)) &&
  (left player_rect <? right (rect platform)) &&
  Qlt_bool (y_velocity player) 0.

(** Guard of the first side branch, lines 184-189. *)
Definition left_side_collision (player_rect : Rect) (platform : Platform) : bool :=
  (right player_rect >? left (rect platform)) &&
  (left player_rect <? left (rect platform)) &&
  (bottom player_rect >? top (rect platform) + 5) &&
  (top player_rect <? bottom (rect platform) - 5).

(** Guard of the second side branch, lines 192-197. *)
Definition right_side_collision (player_rect : Rect) (platform : Platform) : bool :=
  (left player_rect <? right (rect platform)) &&
  (right player_rect >? right (rect platform)) &&
  (bottom player_rect >? top (rect platform) + 5) &&
  (top player_rect <? bottom (rect platform) - 5).

(** The [for platform in platforms] loop; the landing branch ends in [break]. *)
Fixpoint collide_platforms (player_rect : Rect) (previous_bottom : Q)
    (player : Player) (platforms : list Platform) : Player :=
  match platforms with
  | [] => player
  | platform :: platforms =>
    if top_collision player_rect previous_bottom platform player then
      let player :=
        set_pos_y (inject_Z (top (rect platform) - PLAYER_STATS.size)) player in
      let player := set_y_velocity 0%Q player in
      set_is_grounded true player
    else
      let player :=
        if bottom_collision player_rect platform player then
          let player := set_pos_y (inject_Z (bottom (rect platform))) player in
          set_y_velocity 0%Q player
        else player in
      let player :=
        if left_side_collision player_rect platform then
          let player :=
            set_pos_x (inject_Z (left (rect platform) - PLAYER_STATS.size)) player in
          set_x_velocity 0%Q player
        else if right_side_collision player_rect platform then
          let player := set_pos_x (inject_Z (right (rect platform))) player in
          set_x_velocity 0%Q player
        else if bottom_collision player_rect platform player then
          let player := set_pos_y (inject_Z (bottom (rect platform))) player in
          set_y_velocity 0%Q player
        else player in
      collide_platforms player_rect previous_bottom player platforms
  end.

Definition handle_collisions (player : Player) (platforms : list Platform) : Player :=
  let player := set_is_grounded false player in
  let player_rect := player_rect player in
  let previous_bottom :=
    float_sub (inject_Z (bottom player_rect)) (y_velocity player) in
  collide_platforms player_rect previous_bottom player platforms.

(** The resolver with the branch of lines 202-211 deleted, for comparison. *)
Fixpoint collide_platforms_one_head_bump (player_rect : Rect) (previous_bottom : Q)
    (player : Player) (platforms : list Platform) : Player :=
  match platforms with
  | [] => player
  | platform :: platforms =>
    if top_collision player_rect previous_bottom platform player then
      let player :=
        set_pos_y (inject_Z (top (rect platform) - PLAYER_STATS.size)) player in
      let player := set_y_velocity 0%Q player in
      set_is_grounded true player
    else
      let player :=
        if bottom_collision player_rect platform player then
          let player := set_pos_y (inject_Z (bottom (rect platform))) player in
          set_y_velocity 0%Q player
        else player in
      let player :=
        if left_side_collision player_rect platform then
          let player :=
            set_pos_x (inject_Z (left (rect platform) - PLAYER_STATS.size)) player in
          set_x_velocity 0%Q player
        else if right_side_collision player_rect platform then
          let player := set_pos_x (inject_Z (right (rect platform))) player in
          set_x_velocity 0%Q player
        else player in
      collide_platforms_one_head_bump player_rect previous_bottom player platforms
  end.

Definition handle_collisions_one_head_bump (player : Player)
    (platforms : list Platform) : Player :=
  let player := set_is_grounded false player in
  let player_rect := player_rect player in
  let previous_bottom :=
    float_sub (inject_Z (bottom player_rect)) (y_velocity player) in
  collide_platforms_one_head_bump player_rect previous_bottom player platforms.

(** ** Pickups and hazards (lines 259-301) *)

(** The loop of [handle_coin_collection]: coins are marked in place and the
    local [score] is counted up. *)
Fixpoint collect_coins (player_rect : Rect) (coins : list Coin) (score : Z)
    : list Coin * Z :=
  match coins with
  | [] => ([], score)
  | coin :: coins =>
    if negb (collected coin) && colliderect player_rect (coin_rect coin) then
      let coin := mkCoin (coin_rect coin) true in
      let score := score + 1 in
      let (coins, score) := collect_coins player_rect coins score in
      (coin :: coins, score)
    else
      let (coins, score) := collect_coins player_rect coins score in
      (coin :: coins, score)
  end.

(** Returns the coins as the call leaves them and the returned score. *)
Definition handle_coin_collection (player : Player) (coins : list Coin)
    (score : Z) : list Coin * Z :=
  collect_coins (player_rect player) coins score.

(** [handle_damage] as bound when the game runs: the definition of line 293,
    which replaces the one of line 268. *)
Definition handle_damage (player : Player) (amount : Z) : Clock Player :=
  current_time <- get_ticks ;;
  if negb (is_invincible player) then
    let player := set_hp (hp player - amount) player in
    let player := if hp player <? 0 then set_hp 0 player else player in
    let player := set_is_invincible true player in
    ret (set_last_damage_time current_time player)
  else ret player.

Fixpoint damage_loop (player_rect : Rect) (player : Player)
    (damage_bricks : list DamageBrick) : Clock Player :=
  match damage_bricks with
  | [] => ret player
  | brick :: damage_bricks =>
    player <-
      (if colliderect player_rect (brick_rect brick) then
         handle_damage player (damage brick)
       else ret player) ;;
    damage_loop player_rect player damage_bricks
  end.

Definition handle_damage_bricks (player : Player)
    (damage_bricks : list DamageBrick) : Clock Player :=
  damage_loop (player_rect player) player damage_bricks.

(** ** The update pass of the main loop (lines 438-473, 511-534)

    The state that [main] keeps across iterations.  Rendering, the camera
    and the score store read this state and never write it; the death-screen
    branch at the head of the loop (lines 491-508) leaves it unchanged. *)

Record Session := mkSession {
  player : Player;
  coins : list Coin;
  score : Z;
  game_over : bool;
  game_over_time : option Z
}.

(** Lines 438-454. *)
Definition initial_player : Player :=
  {| pos_x := fst PLAYER_STATS.start_pos;
     pos_y := snd PLAYER_STATS.start_pos;
     y_velocity := 0%Q;
     x_velocity := 0%Q;
     is_grounded := false;
     last_dash := 0;
     speed := PLAYER_STATS.speed;
     dash_speed := PLAYER_STATS.dash_speed;
     dash_cooldown := PLAYER_STATS.dash_cooldown;
     is_dashing := false;
     dash_timer := 0;
     facing_right := true;
     dash_key_pressed := false;
     hp := 100;
     is_invincible := false;
     last_damage_time := 0 |}.

(** [Coin(x, y)] with the default [size=10]; lines 457-462. *)
Definition new_coin (x y : Z) : Coin := mkCoin (mkRect x y 10 10) false.

Definition initial_coins : list Coin :=
  [new_coin 300 400; new_coin 500 500; new_coin 600 300; new_coin 700 200].

(** [DamageBrick(200, 150)] with its defaults; lines 471-473. *)
Definition damage_bricks : list DamageBrick :=
  [mkDamageBrick (mkRect 200 150 50 50) 25].

Definition initial_session : Session :=
  mkSession initial_player initial_coins 0 false None.

(** Lines 511-517: input, physics, collisions, world bounds. *)
Definition move_and_collide (platforms : list Platform) (keys : Keys)
    (player : Player) : Clock Player :=
  player <- move_player player keys ;;
  let player := apply_physics player in
  let player := handle_collisions player platforms in
  ret (constrain_player_to_world player).

(** Lines 528-531: invincibility ends one second after the last damage. *)
Definition reset_invincibility (player : Player) : Clock Player :=
  if is_invincible player then
    now <- get_ticks ;;
    if now - last_damage_time player >? 1000 then
      ret (set_is_invincible false player)
    else ret player
  else ret player.

(** One update pass, lines 511-534. *)
Definition frame (platforms : list Platform) (bricks : list DamageBrick)
    (keys : Keys) (s : Session) : Clock Session :=
  p <- move_and_collide platforms keys (player s) ;;
  if hp p <=? 0 then
    now <- get_ticks ;;
    ret (mkSession p (coins s) (score s) true (Some now))
  else
    p <- handle_damage_bricks p bricks ;;
    p <- reset_invincibility p ;;
    let (coins', score') := handle_coin_collection p (coins s) (score s) in
    ret (mkSession p coins' score' (game_over s) (game_over_time s)).

(** What one frame reads from outside: the keyboard snapshot and the values
    that the clock returns during the frame, in call order. *)
Record FrameInput := mkInput { keys : Keys; ticks : nat -> Z }.

Definition run_frame (platforms : list Platform) (bricks : list DamageBrick)
    (s : Session) (i : FrameInput) : Session :=
  fst (frame platforms bricks (keys i) s (ticks i) 0%nat).

(** A sequence of update passes.  The main loop runs one per iteration
    while [game_over] is clear; once it is set, the iterations show the death
    screen and skip the update pass (line 508), except the one that ends the
    loop.  Every run of the game is therefore a run in this sense; the
    keyboard is sampled in update passes only. *)
Definition run (platforms : list Platform) (bricks : list DamageBrick)
    (inputs : list FrameInput) (s : Session) : Session :=
  fold_left (run_frame platforms bricks) inputs s.

(** The player as each per-frame operation of lines 512-517 leaves it. *)
Definition after_move (i : FrameInput) (p : Player) : Player :=
  fst (move_player p (keys i) (ticks i) 0%nat).

Definition after_physics (i : FrameInput) (p : Player) : Player :=
  apply_physics (after_move i p).

Definition after_collisions (platforms : list Platform) (i : FrameInput)
    (p : Player) : Player :=
  handle_collisions (after_physics i p) platforms.

Definition after_constrain (platforms : list Platform) (i : FrameInput)
    (p : Player) : Player :=
  constrain_player_to_world (after_collisions platforms i p).

(** Player states that occur in a session: between two frames, and between
    the operations of the frame that follows. *)
Inductive reachable (platforms : list Platform) (bricks : list DamageBrick)
    : Player -> Prop :=
| reach_frames inputs :
    reachable platforms bricks
      (player (run platforms bricks inputs initial_session))
| reach_move inputs i :
    reachable platforms bricks
      (after_move i (player (run platforms bricks inputs initial_session)))
| reach_physics inputs i :
    reachable platforms bricks
      (after_physics i (player (run platforms bricks inputs initial_session)))
| reach_collisions inputs i :
    reachable platforms bricks
      (after_collisions platforms i
         (player (run platforms bricks inputs initial_session)))
| reach_constrain inputs i :
    reachable platforms bricks
      (after_constrain platforms i
         (player (run platforms bricks inputs initial_session))).

(** * The rest of the program *)

(** ** More of pygame.Rect *)

(** [Rect.topleft], [Rect.centerx] and [Rect.centery]; the centre is half
    the size, rounded down, from the corner. *)
Definition topleft (r : Rect) : Z * Z := (rx r, ry r).
Definition centerx (r : Rect) : Z := rx r + rw r / 2.
Definition centery (r : Rect) : Z := ry r + rh r / 2.

(** [Rect.move(x, y)]: a new rectangle, offset. *)
Definition move (r : Rect) (x y : Z) : Rect :=
  mkRect (rx r + x) (ry r + y) (rw r) (rh r).

(** [Rect.collidepoint(pos)]: the left and top edges are inside, the right
    and bottom edges are not. *)
Definition collidepoint (r : Rect) (pos : Z * Z) : bool :=
  (rx r <=? fst pos) && (fst pos <? rx r + rw r) &&
  (ry r <=? snd pos) && (snd pos <? ry r + rh r).

(** ** Camera (lines 42-57) *)

Module Camera.

Record t := mk { camera : Rect; world_width : Z; world_height : Z }.

(** [Camera(world_width, world_height)]. *)
Definition init (world_width world_height : Z) : t :=
  mk (mkRect 0 0 WINDOW_WIDTH WINDOW_HEIGHT) world_width world_height.

Definition apply (self : t) (rect : Rect) : Rect :=
  move rect (- fst (topleft (camera self))) (- snd (topleft (camera self))).

Definition update (self : t) (target : Rect) : t :=
  let x := Z.max 0 (Z.min (centerx target - WINDOW_WIDTH / 2)
                          (world_width self - WINDOW_WIDTH)) in
  let y := Z.max 0 (Z.min (centery target - WINDOW_HEIGHT / 2)
                          (world_height self - WINDOW_HEIGHT)) in
  mk (mkRect x y WINDOW_WIDTH WINDOW_HEIGHT)
     (world_width self) (world_height self).

End Camera.

(** ** The main loop (lines 429-569)

    What [main] keeps across iterations besides the session: the camera, the
    flags [score_saved] and [running], and, standing for the score store,
    the scores handed to [save_score] so far.  Drawing is left out: it
    writes none of this. *)

Module MainLoop.

Record t := mk {
  session : Session;
  camera : Camera.t;
  score_saved : bool;
  running : bool;
  saved : list Z
}.

(** The state before the first iteration, lines 435-480. *)
Definition init : t :=
  mk initial_session (Camera.init WORLD_WIDTH WORLD_HEIGHT) false true [].

(** Lines 510-538 with the locals of the iteration: the update pass of
    [frame], followed by the camera when the pass is not cut short by the
    death check.  A result of [None] stands for an exception. *)
Definition update_pass (platforms : list Platform) (bricks : list DamageBrick)
    (keys : Keys) (g : t) (score_saved running : bool) (saved : list Z)
    : Clock (option t) :=
  let s := session g in
  p <- move_and_collide platforms keys (player s) ;;
  if hp p <=? 0 then
    now <- get_ticks ;;
    ret (Some (mk (mkSession p (coins s) (score s) true (Some now))
                  (camera g) score_saved running saved))
  else
    p <- handle_damage_bricks p bricks ;;
    p <- reset_invincibility p ;;
    let (coins', score') := handle_coin_collection p (coins s) (score s) in
    let camera := Camera.update (camera g) (player_rect p) in
    ret (Some (mk (mkSession p coins' score' (game_over s) (game_over_time s))
                  camera score_saved running saved)).

(** One iteration of [while running], lines 481-567; [quit] tells whether
    the event queue holds a QUIT event.  Subtracting [game_over_time] while
    it is still [None] raises. *)
Definition iteration (platforms : list Platform) (bricks : list DamageBrick)
    (quit : bool) (keys : Keys) (g : t) : Clock (option t) :=
  let running := if quit then false else running g in
  if game_over (session g) then
    let saved :=
      if negb (score_saved g) then saved g ++ [score (session g)]
      else saved g in
    let score_saved := true in
    now <- get_ticks ;;
    match game_over_time (session g) with
    | None => ret None
    | Some since =>
      if now - since >? 5000 then
        let running := false in
        update_pass platforms bricks keys g score_saved running saved
      else
        ret (Some (mk (session g) (camera g) score_saved running saved))
    end
  else
    update_pass platforms bricks keys g (score_saved g) running (saved g).

(** What one iteration reads from outside. *)
Record Input := mkInput { quit : bool; input : FrameInput }.

Definition step (platforms : list Platform) (bricks : list DamageBrick)
    (g : t) (i : Input) : option t :=
  fst (iteration platforms bricks (quit i) (keys (input i)) g
         (ticks (input i)) 0%nat).

(** [while running] over the iterations for which input is given: the state
    in which the loop has stopped or waits for more, or [None] when an
    iteration has raised. *)
Fixpoint loop (platforms : list Platform) (bricks : list DamageBrick)
    (inputs : list Input) (g : t) : option t :=
  match inputs with
  | [] => Some g
  | i :: inputs =>
    if running g then
      match step platforms bricks g i with
      | Some g => loop platforms bricks inputs g
      | None => None
      end
    else Some g
  end.

End MainLoop.

(** ** The menu (lines 366-427)

    Names are strings of characters of any kind; [isspace] is
    [str.isspace] on one character.  Drawing and the leaderboard query are
    left out. *)

Module MainMenu.

Section Characters.

Variable char : Type.
Variable isspace : char -> bool.

(** [str.lstrip()] and [str.strip()] without arguments. *)
Fixpoint lstrip (s : list char) : list char :=
  match s with
  | [] => []
  | c :: rest => if isspace c then lstrip rest else s
  end.

Definition strip (s : list char) : list char :=
  rev (lstrip (rev (lstrip s))).

(** Truth value of a string: it is not empty. *)
Definition truthy (s : list char) : bool :=
  match s with [] => false | _ :: _ => true end.

(** The event types that the menu looks at, with the attributes it reads. *)
Inductive Event :=
| QUIT
| MOUSEBUTTONDOWN (pos : Z * Z)
| KEYDOWN (key : Z) (unicode : list char)
| OTHER.

Definition K_BACKSPACE : Z := 8.

(** Lines 375-376. *)
Definition play_button_rect : Rect :=
  mkRect (WINDOW_WIDTH / 2 - 75) (WINDOW_HEIGHT / 2 + 50) 150 50.

Definition input_rect : Rect :=
  mkRect (WINDOW_WIDTH / 2 - 150) (WINDOW_HEIGHT / 2 - 50) 300 50.

(** The locals that the event loop updates. *)
Record t := mk {
  player_name : list char;
  input_active : bool;
  running : bool
}.

(** Lines 373-378. *)
Definition init : t := mk [] false true.

(** [player_name[:-1]]. *)
Definition drop_last (s : list char) : list char := removelast s.

(** The body of [for event in pygame.event.get()], lines 382-401: the name
    with which [main_menu] returns at once, or the locals afterwards. *)
Definition handle_event (m : t) (event : Event) : list char + t :=
  match event with
  | QUIT => inr (mk (player_name m) (input_active m) false)
  | MOUSEBUTTONDOWN pos =>
    if collidepoint play_button_rect pos && truthy (strip (player_name m)) then
      inl (player_name m)
    else if collidepoint input_rect pos then
      inr (mk (player_name m) true (running m))
    else
      inr (mk (player_name m) false (running m))
  | KEYDOWN key unicode =>
    if input_active m then
      if key =? K_BACKSPACE then
        inr (mk (drop_last (player_name m)) (input_active m) (running m))
      else
        inr (mk (player_name m ++ unicode) (input_active m) (running m))
    else inr m
  | OTHER => inr m
  end.

Fixpoint handle_events (m : t) (events : list Event) : list char + t :=
  match events with
  | [] => inr m
  | event :: events =>
    match handle_event m event with
    | inl name => inl name
    | inr m => handle_events m events
    end
  end.

(** How [main_menu] ends on the frames given, each with its event queue. *)
Inductive Result :=
| Play (name : list char)
| Closed
| Waiting (m : t).

Fixpoint main_menu_loop (frames : list (list Event)) (m : t) : Result :=
  match frames with
  | [] => if running m then Waiting m else Closed
  | events :: frames =>
    if running m then
      match handle_events m events with
      | inl name => Play name
      | inr m => main_menu_loop frames m
      end
    else Closed
  end.

Definition main_menu (frames : list (list Event)) : Result :=
  main_menu_loop frames init.

End Characters.

Arguments lstrip {char}.
Arguments strip {char}.
Arguments truthy {char}.
Arguments QUIT {char}.
Arguments MOUSEBUTTONDOWN {char}.
Arguments KEYDOWN {char}.
Arguments OTHER {char}.
Arguments mk {char}.
Arguments player_name {char}.
Arguments input_active {char}.
Arguments running {char}.
Arguments init {char}.
Arguments drop_last {char}.
Arguments handle_event {char}.
Arguments handle_events {char}.
Arguments Play {char}.
Arguments Closed {char}.
Arguments Waiting {char}.
Arguments main_menu_loop {char}.
Arguments main_menu {char}.

End MainMenu.

(** * Vocabulary of the properties *)

(** ** Parts of the player

    [vitals] is written by the hazard code only, [config] by nobody, and
    everything else ([motion]) by the movement, physics, collision and
    boundary code only. *)

Definition vitals (p : Player) : Z * bool * Z :=
  (hp p, is_invincible p, last_damage_time p).

Definition config (p : Player) : Q * Q * Z :=
  (speed p, dash_speed p, dash_cooldown p).

Definition dash_state (p : Player) : Z * bool * Z * bool * bool :=
  (last_dash p, is_dashing p, dash_timer p, facing_right p, dash_key_pressed p).

Definition motion (p : Player) :=
  (pos_x p, pos_y p, x_velocity p, y_velocity p, is_grounded p, dash_state p).

(** ** Dash *)

(** What the code maintains about the horizontal velocity: it is the dash
    speed in either direction, or zero. *)
Definition dash_velocity_ok (p : Player) : Prop :=
  dash_speed p = (9 # 1)%Q /\
  (x_velocity p = (9 # 1)%Q \/ x_velocity p = (-9 # 1)%Q \/ x_velocity p = 0%Q).

(** Whether a movement key for a direction is held. *)
Definition right_held (k : Keys) : bool := K_RIGHT k || K_d k.
Definition left_held (k : Keys) : bool := K_LEFT k || K_a k.

(** The edge detector: a dashing player has [dash_key_pressed] set. *)
Definition dash_key_tracked (p : Player) : Prop :=
  is_dashing p = true -> dash_key_pressed p = true.

(** ** Coins *)

(** The number of coins whose [collected] flag is set. *)
Definition collected_count (coins : list Coin) : Z :=
  Z.of_nat (length (filter collected coins)).

(** A later state of the same coins: same rectangles, nothing uncollected. *)
Definition coins_kept (before after : list Coin) : Prop :=
  Forall2 (fun c c' =>
             coin_rect c' = coin_rect c /\
             (collected c = true -> collected c' = true))
          before after.

(** ** Frames in contact with a damage brick *)

(** The player's rectangle intersects [brick] in every frame of [inputs],
    at the point where the frame checks the damage bricks. *)
Fixpoint overlaps_throughout (platforms : list Platform)
    (bricks : list DamageBrick) (brick : DamageBrick) (s : Session)
    (inputs : list FrameInput) : bool :=
  match inputs with
  | [] => true
  | i :: inputs =>
    colliderect (player_rect (after_constrain platforms i (player s)))
                (brick_rect brick) &&
    overlaps_throughout platforms bricks brick
      (run_frame platforms bricks s i) inputs
  end.

(** The frames of [inputs] happen at the clock values [times]: the clock
    does not advance while a frame is computed. *)
Definition frames_at (times : list Z) (inputs : list FrameInput) : Prop :=
  Forall2 (fun t i => forall n, ticks i n = t) times inputs.

(** Clock values of consecutive frames at 60 frames per second (whole
    milliseconds), the first frame at [t0]. *)
Definition frame_offsets (frames : nat) : list Z :=
  map (fun k => Z.of_nat k * 1000 / 60) (seq 0 frames).

Definition sixty_hz (t0 : Z) (frames : nat) : list Z :=
  map (Z.add t0) (frame_offsets frames).

(** What a frame at clock value [t] makes of [vitals] while the player
    touches one brick of damage [d]; [frame_contact] below proves that this
    is what lines 520-531 compute. *)
Definition contact (d t : Z) (v : Z * bool * Z) : Z * bool * Z :=
  let '(h, inv, stamp) := v in
  if h <=? 0 then v
  else
    let '(h, stamp) := if inv then (h, stamp) else (Z.max 0 (h - d), t) in
    (h, negb (t - stamp >? 1000), stamp).

Definition contacts (d : Z) (times : list Z) (v : Z * bool * Z) : Z * bool * Z :=
  fold_left (fun v t => contact d t v) times v.

(** Moving the origin of the clock moves the damage stamp and nothing else. *)
Definition shift (t0 : Z) (v : Z * bool * Z) : Z * bool * Z :=
  let '(h, inv, stamp) := v in (h, inv, t0 + stamp).

(** Hit points after [k] frames of three seconds of contact at 60 frames per
    second, starting from 100 with a brick of damage 25. *)
Definition scenario_hp (k : nat) : Z :=
  if (k =? 0)%nat then 100
  else if (k <=? 62)%nat then 75
  else if (k <=? 124)%nat then 50
  else 25.

(** * Concrete states, levels and inputs *)

(** Keyboard snapshots. *)
Definition no_keys : Keys := mkKeys false false false false false false.
Definition hold_left : Keys := mkKeys false false false true false false.
Definition dash_left : Keys := mkKeys true false false true false false.
Definition dash_right : Keys := mkKeys true true false false false false.
Definition hold_right : Keys := mkKeys false true false false false false.

(** A frame during which the clock reads [t] throughout. *)
Definition frame_at (k : Keys) (t : Z) : FrameInput := mkInput k (fun _ => t).

(** A dash in its last frame. *)
Definition last_dash_frame_player : Player :=
  set_x_velocity PLAYER_STATS.dash_speed
    (set_dash_timer 1 (set_is_dashing true initial_player)).

(** The player far outside the world on both axes. *)
Definition out_of_world_player : Player :=
  set_pos_y (3000 # 1)%Q (set_pos_x (-7 # 2)%Q initial_player).

(** The starting player moved inside the brick of [main], and the same
    player still invincible from an earlier hit. *)
Definition player_in_brick : Player :=
  set_pos_y (180 # 1)%Q (set_pos_x (210 # 1)%Q initial_player).

Definition invincible_player_in_brick : Player :=
  set_is_invincible true player_in_brick.

(** A player falling at 3 per frame whose bottom edge has just passed the
    tops of three platforms, the first of them far to the right. *)
Definition falling_player : Player :=
  set_y_velocity (3 # 1)%Q (set_pos_y (246 # 1)%Q initial_player).

Definition three_platforms : list Platform :=
  [mkPlatform (mkRect 1000 259 100 20);
   mkPlatform (mkRect 150 260 100 20);
   mkPlatform (mkRect 190 258 100 20)].

(** A player at (200, 200.75) that falls at 0.5 per frame. *)
Definition player_between_pixels : Player :=
  set_y_velocity (1 # 2)%Q (set_pos_y (803 # 4)%Q initial_player).

(** An empty level; the player walks left for 57 frames, 17 ms apart, from
    x = 200 to x = 0.5, and then dashes left into the world's edge. *)
Definition walk_then_dash_left : list FrameInput :=
  map (fun k => frame_at hold_left (17 * Z.of_nat k)) (seq 1 57)
  ++ [frame_at dash_left (17 * 58)].

(** An empty level; the player falls for 18 frames and then also walks
    right for 25 frames, which takes it through the coin at (300, 400). *)
Definition fall_then_walk_right : list FrameInput :=
  map (fun k => frame_at no_keys (17 * Z.of_nat k)) (seq 1 18)
  ++ map (fun k => frame_at hold_right (17 * Z.of_nat k)) (seq 19 25).

(** The player of [main] stands on a platform whose top is at its feet,
    inside a brick of damage 25; nothing is pressed for 180 frames at 60
    frames per second, the first at clock value 600. *)
Definition ledge : list Platform := [mkPlatform (mkRect 150 215 100 20)].

Definition brick_on_ledge : DamageBrick :=
  mkDamageBrick (mkRect 190 190 50 50) 25.

Definition three_seconds : list FrameInput :=
  map (frame_at no_keys) (sixty_hz 600 180).

(** * Vocabulary of the further properties *)

(** The player's top-left corner is inside the part of the world that
    [constrain_player_to_world] allows. *)
Definition in_world (p : Player) : Prop :=
  (0 <= pos_x p <= inject_Z (WORLD_WIDTH - PLAYER_STATS.size))%Q /\
  (inject_Z SKYBOX_HEIGHT <= pos_y p
   <= inject_Z (WORLD_HEIGHT - PLAYER_STATS.size))%Q.

(** The vertical velocity lies between the jump force and the maximal fall
    speed. *)
Definition fall_speed_ok (p : Player) : Prop :=
  (PLAYER_STATS.jump_force <= y_velocity p <= MAX_FALL_SPEED)%Q.

(** The dash timer counts the frames that a dash has left. *)
Definition dash_timer_ok (p : Player) : Prop :=
  is_dashing p = true /\ 1 <= dash_timer p <= 15 \/
  is_dashing p = false /\ dash_timer p = 0.

(** A rectangle lies inside another one. *)
Definition inside (inner outer : Rect) : Prop :=
  left outer <= left inner /\ right inner <= right outer /\
  top outer <= top inner /\ bottom inner <= bottom outer.

(** The window, in screen coordinates. *)
Definition window : Rect := mkRect 0 0 WINDOW_WIDTH WINDOW_HEIGHT.

(** The whole world, in world coordinates. *)
Definition world : Rect := mkRect 0 0 WORLD_WIDTH WORLD_HEIGHT.

(** The clock as it reads from the [n]-th call on. *)
Definition later (tk : nat -> Z) (n : nat) : nat -> Z :=
  fun j => tk (n + j)%nat.

(** A computation that depends on the clock only through the readings it
    consumes: on two clocks that agree from the current call on, it
    returns the same value after the same number of calls. *)
Definition uniform {A} (m : Clock A) : Prop :=
  forall tk tk' n n',
    (forall j, tk (n + j)%nat = tk' (n' + j)%nat) ->
    exists a k,
      m tk n = (a, (n + k)%nat) /\ m tk' n' = (a, (n' + k)%nat).

(** What the main loop keeps true between iterations: the session is a
    sequence of update passes from the initial session, and the score store
    holds nothing before the game is over and the final score after. *)
Definition loop_ok (platforms : list Platform) (bricks : list DamageBrick)
    (g : MainLoop.t) : Prop :=
  (exists frames,
     MainLoop.session g = run platforms bricks frames initial_session) /\
  (MainLoop.score_saved g = false /\ MainLoop.saved g = [] \/
   MainLoop.score_saved g = true /\
   MainLoop.saved g = [score (MainLoop.session g)] /\
   game_over (MainLoop.session g) = true).

(** What the main loop keeps true about the camera: the viewport has the
    window's size and lies inside the world, and a living player is on
    screen. *)
Definition camera_ok (g : MainLoop.t) : Prop :=
  Camera.world_width (MainLoop.camera g) = WORLD_WIDTH /\
  Camera.world_height (MainLoop.camera g) = WORLD_HEIGHT /\
  inside (Camera.camera (MainLoop.camera g)) world /\
  (0 < hp (player (MainLoop.session g)) ->
   inside (Camera.apply (MainLoop.camera g)
             (player_rect (player (MainLoop.session g))))
          window).

(** ** More concrete inputs *)

(** Iterations of the main loop without QUIT events and with no key held,
    at 60 frames per second from clock value 600. *)
Definition idle_iterations (frames : nat) : list MainLoop.Input :=
  map (fun t => MainLoop.mkInput false (frame_at no_keys t))
      (sixty_hz 600 frames).

(** The state in which the main loop returns, or the initial state if it
    raises. *)
Definition loop_result (platforms : list Platform) (bricks : list DamageBrick)
    (inputs : list MainLoop.Input) : MainLoop.t :=
  match MainLoop.loop platforms bricks inputs MainLoop.init with
  | Some g => g
  | None => MainLoop.init
  end.

(** Characters as code points, with the space as only blank. *)
Definition is_blank (c : Z) : bool := c =? 32.

(** A click into the input field, the keys "A" and "b", and a click on the
    Play button. *)
Definition menu_events : list (MainMenu.Event Z) :=
  [MainMenu.MOUSEBUTTONDOWN (300, 260);
   MainMenu.KEYDOWN 97 [65];
   MainMenu.KEYDOWN 98 [98];
   MainMenu.MOUSEBUTTONDOWN (400, 375)].

(** * Properties *)

(** ** Comparisons *)

Lemma Qlt_bool_iff (a b : Q) : Qlt_bool a b = true <-> (a < b)%Q.
Proof.
  unfold Qlt_bool. rewrite negb_true_iff. split; intro H.
  - apply Qnot_le_lt. intro L. apply Qle_bool_iff in L. congruence.
  - destruct (Qle_bool b a) eqn:E; [|reflexivity].
    apply Qle_bool_iff in E. exfalso. exact (Qlt_not_le _ _ H E).
Qed.

Lemma Qlt_bool_false (a b : Q) : Qlt_bool a b = false <-> (b <= a)%Q.
Proof.
  unfold Qlt_bool. rewrite negb_false_iff. apply Qle_bool_iff.
Qed.

Lemma py_min_le (a b : Q) : (py_min a b <= b)%Q.
Proof.
  unfold py_min. destruct (Qlt_bool b a) eqn:E.
  - apply Qle_refl.
  - apply Qlt_bool_false in E. exact E.
Qed.

(** ** Floats: powers of two *)

Lemma pow2_pos (e : Z) : (0 < 2 ^ e)%Q.
Proof. apply Qpower_0_lt. reflexivity. Qed.

Lemma pow2_le (a b : Z) : a <= b -> (2 ^ a <= 2 ^ b)%Q.
Proof. intro L. apply Qpower_le_compat_l; [exact L|discriminate]. Qed.

Lemma pow2_lt_inv (a b : Z) : (2 ^ a < 2 ^ b)%Q -> a < b.
Proof.
  intro L. destruct (Z_lt_le_dec a b) as [H|H]; [exact H|].
  exfalso. apply (Qlt_not_le _ _ L). apply pow2_le. exact H.
Qed.

Lemma pow2_plus (a b : Z) : (2 ^ (a + b) == 2 ^ a * 2 ^ b)%Q.
Proof. apply Qpower_plus. discriminate. Qed.

Lemma pow2_Z (a : Z) : 0 <= a -> (inject_Z (2 ^ a) == 2 ^ a)%Q.
Proof. intro A. rewrite Zpower_Qpower by exact A. reflexivity. Qed.

(** ** Floats: the exponent *)

Lemma Qabs_num_den (q : Q) :
  (Qabs q * inject_Z (Z.pos (Qden q)) == inject_Z (Z.abs (Qnum q)))%Q.
Proof.
  destruct q as [n d]. unfold Qabs, Qeq, Qmult, inject_Z. simpl. lia.
Qed.

Lemma ilog2_spec (q : Q) :
  ~ (q == 0)%Q -> (2 ^ ilog2 q <= Qabs q < 2 ^ (ilog2 q + 1))%Q.
Proof.
  intro NZ.
  assert (N : 0 < Z.abs (Qnum q)).
  { destruct q as [n d]. unfold Qeq in NZ. simpl in *. lia. }
  pose proof (Z.log2_spec _ N) as [N1 N2].
  pose proof (Z.log2_spec (Z.pos (Qden q)) (Pos2Z.is_pos _)) as [D1 D2].
  pose proof (Z.log2_nonneg (Z.abs (Qnum q))) as LN.
  pose proof (Z.log2_nonneg (Z.pos (Qden q))) as LD.
  pose proof (Qabs_num_den q) as E.
  set (ln := Z.log2 (Z.abs (Qnum q))) in *.
  set (ld := Z.log2 (Z.pos (Qden q))) in *.
  set (n := Z.abs (Qnum q)) in *. set (d := Z.pos (Qden q)) in *.
  assert (Dpos : (0 < inject_Z d)%Q) by (rewrite <- (Zlt_Qlt 0); subst d; lia).
  rewrite Zlt_Qlt, pow2_Z in N2 by lia.
  rewrite Zle_Qle, pow2_Z in N1 by lia.
  rewrite Zlt_Qlt, pow2_Z in D2 by lia.
  rewrite Zle_Qle, pow2_Z in D1 by lia.
  assert (Up : (Qabs q < 2 ^ (ln - ld + 1))%Q).
  { apply (Qmult_lt_r _ _ (inject_Z d) Dpos). rewrite E.
    apply (Qlt_le_trans _ _ _ N2).
    replace (Z.succ ln) with ((ln - ld + 1) + ld) by lia.
    rewrite pow2_plus. apply Qmult_le_l; [apply pow2_pos|exact D1]. }
  assert (Low : (2 ^ (ln - ld - 1) <= Qabs q)%Q).
  { apply (Qmult_le_r _ _ (inject_Z d) Dpos). rewrite E.
    apply (Qle_trans _ (2 ^ ln)); [|exact N1].
    replace ln with ((ln - ld - 1) + Z.succ ld) at 2 by lia.
    rewrite pow2_plus. apply Qmult_le_l; [apply pow2_pos|].
    apply Qlt_le_weak. exact D2. }
  unfold ilog2. cbv zeta. fold n d. fold ln ld.
  destruct (Qle_bool (2 ^ (ln - ld)) (Qabs q)) eqn:C.
  - apply Qle_bool_iff in C. split; assumption.
  - split; [exact Low|].
    replace (ln - ld - 1 + 1) with (ln - ld) by lia.
    apply Qnot_le_lt. intro H. apply Qle_bool_iff in H. congruence.
Qed.

Lemma ilog2_unique (q : Q) (l : Z) :
  (2 ^ l <= Qabs q < 2 ^ (l + 1))%Q -> ilog2 q = l.
Proof.
  intros [L U].
  assert (NZ : ~ (q == 0)%Q).
  { intro Z0. rewrite Z0 in L. pose proof (pow2_pos l). 
    change (Qabs 0) with 0%Q in L. lra. }
  destruct (ilog2_spec q NZ) as [L' U'].
  assert (ilog2 q < l + 1) by (apply pow2_lt_inv; lra).
  assert (l < ilog2 q + 1) by (apply pow2_lt_inv; lra).
  lia.
Qed.

Lemma ilog2_le (x y : Q) :
  ~ (x == 0)%Q -> ~ (y == 0)%Q -> (Qabs x <= Qabs y)%Q -> ilog2 x <= ilog2 y.
Proof.
  intros X Y L.
  destruct (ilog2_spec x X) as [Lx _]. destruct (ilog2_spec y Y) as [_ Uy].
  assert (ilog2 x < ilog2 y + 1) by (apply pow2_lt_inv; lra). lia.
Qed.

(** ** Floats: rounding to an integer *)

Lemma round_half_even_comp (x y : Q) :
  (x == y)%Q -> round_half_even x = round_half_even y.
Proof.
  intro E. unfold round_half_even. rewrite (Qfloor_comp _ _ E).
  assert (E2 : (x - inject_Z (Qfloor y) == y - inject_Z (Qfloor y))%Q)
    by (rewrite E; reflexivity).
  rewrite (Qcompare_comp _ _ E2 _ _ (Qeq_refl (1 # 2))). reflexivity.
Qed.

Lemma round_half_even_Z (k : Z) : round_half_even (inject_Z k) = k.
Proof.
  unfold round_half_even. rewrite Qfloor_Z.
  destruct (Qcompare_spec (inject_Z k - inject_Z k)%Q (1 # 2)%Q) as [H|H|H];
    [exfalso; lra|reflexivity|exfalso; lra].
Qed.

Lemma round_half_even_mono (x y : Q) :
  (x <= y)%Q -> round_half_even x <= round_half_even y.
Proof.
  intro L. pose proof (Qfloor_resp_le x y L) as K.
  pose proof (Qfloor_le x) as X1. pose proof (Qlt_floor x) as X2.
  pose proof (Qfloor_le y) as Y1. pose proof (Qlt_floor y) as Y2.
  rewrite inject_Z_plus in X2, Y2.
  unfold round_half_even.
  destruct (Z.eq_dec (Qfloor x) (Qfloor y)) as [E|N].
  - rewrite <- E in *.
    destruct (Qcompare_spec (x - inject_Z (Qfloor x))%Q (1 # 2)%Q) as [A|A|A];
      destruct (Qcompare_spec (y - inject_Z (Qfloor x))%Q (1 # 2)%Q) as [B|B|B];
      try destruct (Z.even (Qfloor x)); try lia; exfalso; lra.
  - destruct (Qcompare_spec (x - inject_Z (Qfloor x))%Q (1 # 2)%Q) as [A|A|A];
      destruct (Qcompare_spec (y - inject_Z (Qfloor y))%Q (1 # 2)%Q) as [B|B|B];
      try destruct (Z.even (Qfloor x)); try destruct (Z.even (Qfloor y)); lia.
Qed.

Lemma round_half_even_error (x : Q) :
  (Qabs (inject_Z (round_half_even x) - x) <= 1 # 2)%Q.
Proof.
  pose proof (Qfloor_le x) as X1. pose proof (Qlt_floor x) as X2.
  rewrite inject_Z_plus in X2. change (inject_Z 1) with 1%Q in X2.
  unfold round_half_even. apply Qabs_Qle_condition.
  destruct (Qcompare_spec (x - inject_Z (Qfloor x))%Q (1 # 2)%Q) as [A|A|A];
    try destruct (Z.even (Qfloor x)); rewrite ?inject_Z_plus; 
    change (inject_Z 1) with 1%Q; split; lra.
Qed.

(** ** Floats: rounding to a multiple of a power of two *)

Lemma binary64_grid (q : Q) : (binary64 q == grid (float_exponent q) q)%Q.
Proof. unfold binary64, grid. apply Qred_correct. Qed.

Lemma grid_mono (e : Z) (x y : Q) : (x <= y)%Q -> (grid e x <= grid e y)%Q.
Proof.
  intro L. unfold grid. pose proof (pow2_pos e) as P.
  apply Qmult_le_compat_r; [|apply Qlt_le_weak; exact P].
  rewrite <- Zle_Qle. apply round_half_even_mono.
  apply Qmult_le_compat_r; [exact L|]. apply Qlt_le_weak.
  apply Qinv_lt_0_compat. exact P.
Qed.

Lemma grid_fixed (e e' m : Z) :
  e <= e' -> (grid e (inject_Z m * 2 ^ e') == inject_Z m * 2 ^ e')%Q.
Proof.
  intro L. unfold grid. pose proof (pow2_pos e) as P.
  assert (E : (inject_Z m * 2 ^ e' / 2 ^ e == inject_Z (m * 2 ^ (e' - e)))%Q).
  { rewrite inject_Z_mult, pow2_Z by lia.
    replace e' with ((e' - e) + e) at 1 by lia. rewrite pow2_plus.
    field. intro H. rewrite H in P. discriminate P. }
  rewrite (round_half_even_comp _ _ E), round_half_even_Z.
  rewrite inject_Z_mult, pow2_Z by lia.
  replace e' with ((e' - e) + e) at 2 by lia. rewrite pow2_plus. ring.
Qed.

Lemma grid_pow2 (e l : Z) : e <= l -> (grid e (2 ^ l) == 2 ^ l)%Q.
Proof.
  intro L. pose proof (grid_fixed e l 1 L) as H.
  assert (E : (inject_Z 1 * 2 ^ l == 2 ^ l)%Q) by (change (inject_Z 1) with 1%Q; ring).
  unfold grid in *.
  rewrite <- (round_half_even_comp _ _ (Qdiv_comp _ _ E _ _ (Qeq_refl _))).
  rewrite H. exact E.
Qed.

Lemma grid_opp_pow2 (e l : Z) : e <= l -> (grid e (- 2 ^ l) == - 2 ^ l)%Q.
Proof.
  intro L. pose proof (grid_fixed e l (-1) L) as H.
  assert (E : (inject_Z (-1) * 2 ^ l == - 2 ^ l)%Q)
    by (change (inject_Z (-1)) with (-1 # 1)%Q; ring).
  unfold grid in *.
  rewrite <- (round_half_even_comp _ _ (Qdiv_comp _ _ E _ _ (Qeq_refl _))).
  rewrite H. exact E.
Qed.

Lemma grid_zero (e : Z) (x : Q) : (x == 0)%Q -> (grid e x == 0)%Q.
Proof.
  intro Z0. unfold grid.
  assert (E : (x / 2 ^ e == inject_Z 0)%Q).
  { rewrite Z0. unfold Qdiv. change (inject_Z 0) with 0%Q. ring. }
  rewrite (round_half_even_comp _ _ E), round_half_even_Z.
  change (inject_Z 0) with 0%Q. ring.
Qed.

(** ** Floats: rounding to binary64 *)

Lemma binary64_nonneg (q : Q) : (0 <= q)%Q -> (0 <= binary64 q)%Q.
Proof.
  intro H. rewrite binary64_grid.
  rewrite <- (grid_zero (float_exponent q) 0 (Qeq_refl 0)).
  apply grid_mono. exact H.
Qed.

Lemma binary64_nonpos (q : Q) : (q <= 0)%Q -> (binary64 q <= 0)%Q.
Proof.
  intro H. rewrite binary64_grid.
  rewrite <- (grid_zero (float_exponent q) 0 (Qeq_refl 0)).
  apply grid_mono. exact H.
Qed.

(** Rounding is monotone. *)
Lemma binary64_mono (x y : Q) : (x <= y)%Q -> (binary64 x <= binary64 y)%Q.
Proof.
  intro L.
  destruct (Qeq_dec x 0) as [X0|X].
  { rewrite (binary64_grid x), (grid_zero _ x X0).
    apply binary64_nonneg. rewrite <- X0. exact L. }
  destruct (Qeq_dec y 0) as [Y0|Y].
  { rewrite (binary64_grid y), (grid_zero _ y Y0).
    apply binary64_nonpos. rewrite <- Y0. exact L. }
  destruct (ilog2_spec x X) as [Lx Ux]. destruct (ilog2_spec y Y) as [Ly Uy].
  rewrite !binary64_grid. unfold float_exponent.
  set (lx := ilog2 x) in *. set (ly := ilog2 y) in *.
  pose proof (Qabs_nonneg x) as Ax. pose proof (Qabs_nonneg y) as Ay.
  pose proof (Qle_Qabs x) as Bx. pose proof (Qle_Qabs y) as By.
  pose proof (Qle_Qabs (- x)) as Cx. pose proof (Qle_Qabs (- y)) as Cy.
  rewrite Qabs_opp in Cx, Cy.
  destruct (Z.lt_trichotomy (Z.max (lx - 52) (-1074)) (Z.max (ly - 52) (-1074)))
    as [H|[H|H]].
  - (* the exponent grows: [2 ^ ly] lies between *)
    assert (S : lx + 1 <= ly) by lia.
    pose proof (pow2_le _ _ S) as P.
    assert (Ypos : (0 < y)%Q).
    { apply Qnot_le_lt. intro N. rewrite (Qabs_neg y N) in *.
      destruct (Qlt_le_dec 0 x) as [Xp|Xn].
      - lra.
      - rewrite (Qabs_neg x Xn) in *. lra. }
    rewrite (Qabs_pos y) in * by lra.
    apply (Qle_trans _ (grid (Z.max (lx - 52) (-1074)) (2 ^ ly))).
    + apply grid_mono. lra.
    + rewrite grid_pow2 by lia.
      rewrite <- (grid_pow2 (Z.max (ly - 52) (-1074)) ly) by lia.
      apply grid_mono. exact Ly.
  - rewrite H. apply grid_mono. exact L.
  - assert (S : ly + 1 <= lx) by lia.
    pose proof (pow2_le _ _ S) as P.
    assert (Xneg : (x < 0)%Q).
    { apply Qnot_le_lt. intro N. rewrite (Qabs_pos x N) in *.
      destruct (Qlt_le_dec y 0) as [Yn|Yp].
      - lra.
      - rewrite (Qabs_pos y Yp) in *. lra. }
    rewrite (Qabs_neg x) in * by lra.
    apply (Qle_trans _ (grid (Z.max (lx - 52) (-1074)) (- 2 ^ lx))).
    + apply grid_mono. lra.
    + rewrite grid_opp_pow2 by lia.
      rewrite <- (grid_opp_pow2 (Z.max (ly - 52) (-1074)) lx) by lia.
      apply grid_mono. lra.
Qed.

(** A number with a significand below [2 ^ 53] and an exponent of at least
    -1074 is a binary64 number: rounding does not change it. *)
Lemma binary64_exact (m k : Z) :
  Z.abs m < 2 ^ 53 -> -1074 <= k ->
  (binary64 (inject_Z m * 2 ^ k) == inject_Z m * 2 ^ k)%Q.
Proof.
  intros M K. rewrite binary64_grid.
  set (q := (inject_Z m * 2 ^ k)%Q).
  destruct (Qeq_dec q 0) as [Z0|NZ].
  { rewrite (grid_zero _ q Z0). symmetry. exact Z0. }
  apply grid_fixed. unfold float_exponent.
  destruct (ilog2_spec q NZ) as [L _].
  assert (U : (Qabs q < 2 ^ (53 + k))%Q).
  { subst q. rewrite Qabs_Qmult, (Qabs_pos (2 ^ k))
      by (apply Qlt_le_weak, pow2_pos).
    rewrite pow2_plus. apply Qmult_lt_r; [apply pow2_pos|].
    rewrite <- pow2_Z by lia.
    change (Qabs (inject_Z m)) with (inject_Z (Z.abs m)).
    rewrite <- Zlt_Qlt. exact M. }
  assert (ilog2 q < 53 + k) by (apply pow2_lt_inv; lra). lia.
Qed.

Lemma binary64_comp (x y : Q) : (x == y)%Q -> binary64 x = binary64 y.
Proof.
  intro E. unfold binary64. apply Qred_complete.
  change (grid (float_exponent x) x == grid (float_exponent y) y)%Q.
  destruct (Qeq_dec x 0) as [X0|X].
  { rewrite (grid_zero _ x X0), (grid_zero _ y); [reflexivity|].
    apply (Qeq_trans _ x); [apply Qeq_sym; exact E|exact X0]. }
  assert (L : ilog2 y = ilog2 x).
  { apply ilog2_unique. rewrite <- E. apply ilog2_spec. exact X. }
  unfold float_exponent, grid. rewrite L.
  rewrite (round_half_even_comp (x / _) (y / 2 ^ Z.max (ilog2 x - 52) (-1074)));
    [reflexivity|].
  unfold Qdiv. apply Qmult_comp; [exact E|reflexivity].
Qed.

Lemma binary64_fixed (q : Q) (m k : Z) :
  (q == inject_Z m * 2 ^ k)%Q -> Z.abs m < 2 ^ 53 -> -1074 <= k ->
  binary64 q = Qred q.
Proof.
  intros E M K. rewrite (binary64_comp _ _ E).
  rewrite (Qred_complete _ _ E).
  unfold binary64. apply Qred_complete.
  change (grid (float_exponent (inject_Z m * 2 ^ k)) (inject_Z m * 2 ^ k)
          == inject_Z m * 2 ^ k)%Q.
  rewrite <- binary64_grid. apply binary64_exact; assumption.
Qed.

Lemma Qred_inject_Z (n : Z) : Qred (inject_Z n) = inject_Z n.
Proof.
  unfold Qred, inject_Z.
  pose proof (Z.ggcd_gcd n 1) as G.
  pose proof (Z.ggcd_correct_divisors n 1) as C.
  destruct (Z.ggcd n 1) as [g [a b]]. simpl in *.
  rewrite Z.gcd_1_r in G. subst g. destruct C as [C1 C2].
  rewrite Z.mul_1_l in C1, C2. subst. reflexivity.
Qed.

(** Integers below [2 ^ 53] are binary64 numbers. *)
Lemma binary64_Z (n : Z) :
  Z.abs n < 2 ^ 53 -> binary64 (inject_Z n) = inject_Z n.
Proof.
  intro N. rewrite <- (Qred_inject_Z n) at 2.
  apply (binary64_fixed _ n 0); [simpl; ring|exact N|lia].
Qed.

(** Rounding moves a number by at most half a unit in the last place. *)
Lemma binary64_error (q : Q) :
  (Qabs (binary64 q - q) <= 2 ^ float_exponent q / 2)%Q.
Proof.
  rewrite binary64_grid. unfold grid.
  pose proof (pow2_pos (float_exponent q)) as P.
  set (s := (2 ^ float_exponent q)%Q) in *.
  pose proof (round_half_even_error (q / s)) as R.
  assert (E : (inject_Z (round_half_even (q / s)) * s - q
               == (inject_Z (round_half_even (q / s)) - q / s) * s)%Q).
  { field. intro H. rewrite H in P. discriminate P. }
  rewrite E, Qabs_Qmult, (Qabs_pos s) by lra.
  unfold Qdiv. rewrite (Qmult_comm s).
  apply Qmult_le_compat_r; [exact R|lra].
Qed.

Lemma binary64_relative_error (q : Q) :
  (2 ^ (-1022) <= Qabs q)%Q ->
  (Qabs (binary64 q - q) <= Qabs q * 2 ^ (-53))%Q.
Proof.
  intro N. pose proof (pow2_pos (-1022)) as P.
  assert (NZ : ~ (q == 0)%Q).
  { intro Z0. rewrite Z0 in N. change (Qabs 0) with 0%Q in N. lra. }
  destruct (ilog2_spec q NZ) as [L U].
  assert (-1022 < ilog2 q + 1) by (apply pow2_lt_inv; lra).
  apply (Qle_trans _ _ _ (binary64_error q)).
  unfold float_exponent. rewrite Z.max_l by lia.
  replace (ilog2 q - 52) with (ilog2 q + (-53) + 1) by lia.
  rewrite !pow2_plus. change (2 ^ 1)%Q with 2%Q.
  pose proof (pow2_pos (-53)) as P2.
  apply (Qle_trans _ (2 ^ ilog2 q * 2 ^ (-53))).
  - apply Qle_lteq. right. field.
  - apply Qmult_le_compat_r; [exact L|lra].
Qed.

(** The constants of the game as binary64 numbers. *)
Lemma GRAVITY_value : GRAVITY = (3602879701896397 # 18014398509481984)%Q.
Proof. vm_compute. reflexivity. Qed.

Lemma GRAVITY_pos : (0 < GRAVITY)%Q.
Proof. rewrite GRAVITY_value. reflexivity. Qed.

(** Rounding keeps a sum or a difference between two binary64 bounds. *)
Lemma float_add_mono (a b c d : Q) :
  (a <= c)%Q -> (b <= d)%Q -> (float_add a b <= float_add c d)%Q.
Proof. intros H1 H2. apply binary64_mono. lra. Qed.

Lemma float_sub_mono (a b c d : Q) :
  (a <= c)%Q -> (d <= b)%Q -> (float_sub a b <= float_sub c d)%Q.
Proof. intros H1 H2. apply binary64_mono. lra. Qed.

(** The running sum of the literal [0.2] leaves the decimal grid in its
    third step: [0.2 + 0.2 + 0.2] is [0.6000000000000001]. *)
Example gravity_three_times :
  float_add (float_add GRAVITY GRAVITY) GRAVITY
  = (1351079888211149 # 2251799813685248)%Q /\
  ~ (float_add (float_add GRAVITY GRAVITY) GRAVITY == 3 # 5)%Q.
Proof. split; [vm_compute; reflexivity|vm_compute; discriminate]. Qed.

(** ** Physics integrator *)

(** C3. [apply_physics], on every player state: while dashing it counts
    [dash_timer] down by one and, when the timer has run out, clears
    [is_dashing] and zeroes [x_velocity], leaving [y_velocity] alone (no
    gravity); otherwise, when not grounded, it adds [GRAVITY] to
    [y_velocity] and caps it at [MAX_FALL_SPEED]; in all cases it then adds
    the resulting [y_velocity] to [pos_y]; every other field is unchanged.
    Both additions are those of Python floats: the exact sum, rounded to
    the nearest binary64 number. *)
Theorem apply_physics_spec (p : Player) :
  let p' := apply_physics p in
  (is_dashing p = true ->
     dash_timer p' = dash_timer p - 1 /\
     y_velocity p' = y_velocity p /\
     (dash_timer p - 1 <= 0 -> is_dashing p' = false /\ x_velocity p' = 0%Q) /\
     (0 < dash_timer p - 1 ->
        is_dashing p' = true /\ x_velocity p' = x_velocity p)) /\
  (is_dashing p = false ->
     dash_timer p' = dash_timer p /\ is_dashing p' = false /\
     x_velocity p' = x_velocity p /\
     (is_grounded p = true -> y_velocity p' = y_velocity p) /\
     (is_grounded p = false ->
        y_velocity p' = py_min (float_add (y_velocity p) GRAVITY) MAX_FALL_SPEED /\
        (y_velocity p' <= MAX_FALL_SPEED)%Q /\
        ((float_add (y_velocity p) GRAVITY <= MAX_FALL_SPEED)%Q ->
           y_velocity p' = float_add (y_velocity p) GRAVITY) /\
        ((MAX_FALL_SPEED < float_add (y_velocity p) GRAVITY)%Q ->
           y_velocity p' = MAX_FALL_SPEED))) /\
  pos_y p' = float_add (pos_y p) (y_velocity p') /\
  pos_x p' = pos_x p /\ is_grounded p' = is_grounded p /\
  last_dash p' = last_dash p /\ speed p' = speed p /\
  dash_speed p' = dash_speed p /\ dash_cooldown p' = dash_cooldown p /\
  facing_right p' = facing_right p /\
  dash_key_pressed p' = dash_key_pressed p /\ hp p' = hp p /\
  is_invincible p' = is_invincible p /\
  last_damage_time p' = last_damage_time p.
Proof.
  unfold apply_physics.
  destruct (is_dashing p) eqn:D; simpl.
  - destruct (Z.leb_spec (dash_timer p - 1) 0) as [T|T]; simpl;
      repeat split; intros; try reflexivity; try discriminate;
      try assumption; lia.
  - destruct (is_grounded p) eqn:G; simpl;
      repeat split; intros; try reflexivity; try discriminate;
      try assumption.
    + apply py_min_le.
    + unfold py_min. destruct (Qlt_bool MAX_FALL_SPEED _) eqn:E; [|reflexivity].
      apply Qlt_bool_iff in E. lra.
    + unfold py_min. destruct (Qlt_bool MAX_FALL_SPEED _) eqn:E; [reflexivity|].
      apply Qlt_bool_false in E. lra.
Qed.

(** The last frame of a dash; the first three frames of a fall, after which
    [y_velocity] is [0.6000000000000001]; and the cap. *)
Lemma apply_physics_spec_witness :
  (is_dashing (apply_physics last_dash_frame_player) = false /\
   x_velocity (apply_physics last_dash_frame_player) = 0%Q) /\
  y_velocity (apply_physics initial_player) = GRAVITY /\
  y_velocity (apply_physics (apply_physics (apply_physics initial_player)))
  = (1351079888211149 # 2251799813685248)%Q /\
  y_velocity (apply_physics (set_y_velocity (999 # 100)%Q initial_player))
  = MAX_FALL_SPEED.
Proof.
  split; [|split; [|split]].
  - destruct (apply_physics_spec last_dash_frame_player)
      as [[_ [_ [H _]]] _]; [reflexivity|].
    apply H. simpl. lia.
  - destruct (apply_physics_spec initial_player)
      as [_ [[_ [_ [_ [_ H]]]] _]]; [reflexivity|].
    destruct H as [_ [_ [H _]]]; [reflexivity|].
    rewrite H; vm_compute; [reflexivity|discriminate].
  - destruct (apply_physics_spec (apply_physics (apply_physics initial_player)))
      as [_ [[_ [_ [_ [_ H]]]] _]]; [reflexivity|].
    destruct H as [_ [_ [H _]]]; [reflexivity|].
    rewrite H; vm_compute; [reflexivity|discriminate].
  - destruct (apply_physics_spec (set_y_velocity (999 # 100)%Q initial_player))
      as [_ [[_ [_ [_ [_ H]]]] _]]; [reflexivity|].
    destruct H as [_ [_ [_ H]]]; [reflexivity|].
    apply H. vm_compute. reflexivity.
Defined.

(** ** Boundary constraint *)

(** C7. [constrain_player_to_world], on every player state, brings [pos_x]
    into [[0, WORLD_WIDTH - 15]] and [pos_y] into
    [[SKYBOX_HEIGHT, WORLD_HEIGHT - 15]]; a velocity component is zeroed when
    its coordinate is clamped and kept otherwise; [is_grounded] is set when
    [pos_y] was beyond [WORLD_HEIGHT - 15] and kept otherwise; no other
    field changes. *)
Theorem constrain_player_to_world_spec (p : Player) :
  let p' := constrain_player_to_world p in
  let x_max := inject_Z (WORLD_WIDTH - 15) in
  let y_min := inject_Z SKYBOX_HEIGHT in
  let y_max := inject_Z (WORLD_HEIGHT - 15) in
  (0 <= pos_x p' <= x_max)%Q /\ (y_min <= pos_y p' <= y_max)%Q /\
  ((pos_x p < 0)%Q -> pos_x p' = 0%Q /\ x_velocity p' = 0%Q) /\
  ((x_max < pos_x p)%Q -> pos_x p' = x_max /\ x_velocity p' = 0%Q) /\
  ((0 <= pos_x p <= x_max)%Q ->
     pos_x p' = pos_x p /\ x_velocity p' = x_velocity p) /\
  ((pos_y p < y_min)%Q ->
     pos_y p' = y_min /\ y_velocity p' = 0%Q /\
     is_grounded p' = is_grounded p) /\
  ((y_max < pos_y p)%Q ->
     pos_y p' = y_max /\ y_velocity p' = 0%Q /\ is_grounded p' = true) /\
  ((y_min <= pos_y p <= y_max)%Q ->
     pos_y p' = pos_y p /\ y_velocity p' = y_velocity p /\
     is_grounded p' = is_grounded p) /\
  last_dash p' = last_dash p /\ speed p' = speed p /\
  dash_speed p' = dash_speed p /\ dash_cooldown p' = dash_cooldown p /\
  is_dashing p' = is_dashing p /\ dash_timer p' = dash_timer p /\
  facing_right p' = facing_right p /\
  dash_key_pressed p' = dash_key_pressed p /\ hp p' = hp p /\
  is_invincible p' = is_invincible p /\
  last_damage_time p' = last_damage_time p.
Proof.
  intros p' x_max y_min y_max.
  assert (X : (0 <= x_max)%Q) by (vm_compute; discriminate).
  assert (Y : (y_min <= y_max)%Q) by (vm_compute; discriminate).
  subst p'. unfold constrain_player_to_world.
  change (inject_Z (WORLD_WIDTH - PLAYER_STATS.size)) with x_max.
  change (inject_Z (WORLD_HEIGHT - PLAYER_STATS.size)) with y_max.
  change (inject_Z SKYBOX_HEIGHT) with y_min.
  clearbody x_max y_min y_max.
  destruct (Qlt_bool (pos_x p) 0) eqn:X0;
    [apply Qlt_bool_iff in X0
    |apply Qlt_bool_false in X0;
     destruct (Qlt_bool x_max (pos_x p)) eqn:X1;
     [apply Qlt_bool_iff in X1|apply Qlt_bool_false in X1]];
  cbn [pos_y set_x_velocity set_pos_x];
  (destruct (Qlt_bool (pos_y p) y_min) eqn:Y0;
    [apply Qlt_bool_iff in Y0
    |apply Qlt_bool_false in Y0;
     destruct (Qlt_bool y_max (pos_y p)) eqn:Y1;
     [apply Qlt_bool_iff in Y1|apply Qlt_bool_false in Y1]]);
  simpl; repeat split; intros; try reflexivity; try lra.
Qed.

Lemma constrain_player_to_world_spec_witness :
  (pos_x (constrain_player_to_world out_of_world_player) = 0%Q /\
   x_velocity (constrain_player_to_world out_of_world_player) = 0%Q) /\
  (pos_y (constrain_player_to_world out_of_world_player) = inject_Z 2033 /\
   y_velocity (constrain_player_to_world out_of_world_player) = 0%Q /\
   is_grounded (constrain_player_to_world out_of_world_player) = true) /\
  (pos_x (constrain_player_to_world initial_player) = pos_x initial_player /\
   x_velocity (constrain_player_to_world initial_player) = 0%Q).
Proof.
  destruct (constrain_player_to_world_spec out_of_world_player)
    as [_ [_ [HX [_ [_ [_ [HY _]]]]]]].
  destruct (constrain_player_to_world_spec initial_player)
    as [_ [_ [_ [_ [HI _]]]]].
  split; [|split].
  - apply HX. vm_compute. reflexivity.
  - apply HY. vm_compute. reflexivity.
  - apply HI. split; vm_compute; discriminate.
Defined.

(** ** Damage *)

Lemma damage_loop_invincible (r : Rect) (p : Player) (bricks : list DamageBrick)
    (tk : nat -> Z) (n : nat) :
  is_invincible p = true -> fst (damage_loop r p bricks tk n) = p.
Proof.
  intro I. revert n. induction bricks as [|b bricks IH]; intro n.
  - reflexivity.
  - simpl. unfold bind.
    destruct (colliderect r (brick_rect b)).
    + unfold handle_damage, bind, get_ticks. rewrite I. simpl. apply IH.
    + simpl. apply IH.
Qed.

(** C4. Contact with a damage brick, on every player state and damage
    amount: while [is_invincible] is set, [handle_damage] (and so
    [handle_damage_bricks], whatever the bricks) returns the player state
    unchanged; otherwise [hp] becomes [hp - amount], floored at 0,
    [is_invincible] is set, [last_damage_time] takes the clock reading and
    nothing else changes; a brick whose rectangle intersects the player's is
    applied through [handle_damage] with its own [damage]. *)
Theorem handle_damage_spec (p : Player) (amount : Z) (tk : nat -> Z) (n : nat) :
  let p' := fst (handle_damage p amount tk n) in
  (is_invincible p = true ->
     p' = p /\
     forall bricks, fst (handle_damage_bricks p bricks tk n) = p) /\
  (is_invincible p = false ->
     hp p' = Z.max 0 (hp p - amount) /\
     is_invincible p' = true /\
     last_damage_time p' = tk n /\
     p' = set_last_damage_time (tk n)
            (set_is_invincible true (set_hp (Z.max 0 (hp p - amount)) p))) /\
  (forall brick,
     colliderect (player_rect p) (brick_rect brick) = true ->
     damage brick = amount ->
     fst (handle_damage_bricks p [brick] tk n) = p').
Proof.
  unfold handle_damage, handle_damage_bricks, bind, get_ticks.
  repeat split; intros.
  - rewrite H. reflexivity.
  - apply damage_loop_invincible. assumption.
  - rewrite H. simpl. destruct (Z.ltb_spec (hp p - amount) 0); simpl; lia.
  - rewrite H. simpl. destruct (hp p - amount <? 0); reflexivity.
  - rewrite H. simpl. destruct (hp p - amount <? 0); reflexivity.
  - rewrite H. simpl.
    destruct (Z.ltb_spec (hp p - amount) 0);
      [rewrite Z.max_l by lia|rewrite Z.max_r by lia]; reflexivity.
  - simpl. unfold bind. rewrite H, H0.
    unfold handle_damage, bind, get_ticks.
    destruct (is_invincible p); reflexivity.
Qed.

Lemma handle_damage_spec_witness :
  fst (handle_damage_bricks invincible_player_in_brick damage_bricks
         (fun _ => 700) 0%nat) = invincible_player_in_brick /\
  hp (fst (handle_damage player_in_brick 25 (fun _ => 700) 0%nat)) = 75 /\
  fst (handle_damage_bricks player_in_brick damage_bricks (fun _ => 700) 0%nat)
  = fst (handle_damage player_in_brick 25 (fun _ => 700) 0%nat).
Proof.
  split; [|split].
  - destruct (handle_damage_spec invincible_player_in_brick 25 (fun _ => 700) 0%nat)
      as [H _].
    destruct H as [_ H]; [reflexivity|]. apply H.
  - destruct (handle_damage_spec player_in_brick 25 (fun _ => 700) 0%nat)
      as [_ [H _]].
    destruct H as [H _]; [reflexivity|]. exact H.
  - destruct (handle_damage_spec player_in_brick 25 (fun _ => 700) 0%nat)
      as [_ [_ H]].
    apply (H (mkDamageBrick (mkRect 200 150 50 50) 25)); reflexivity.
Defined.

(** ** Collision resolver *)

Lemma bottom_collision_needs_rising (r : Rect) (platform : Platform) (q : Player) :
  (0 <= y_velocity q)%Q -> bottom_collision r platform q = false.
Proof.
  intro V. unfold bottom_collision.
  apply Qlt_bool_false in V. rewrite V. apply andb_false_r.
Qed.

(** At lines 203-209 the dictionary is as the branch of lines 173-181 left
    it: either that branch ran and zeroed [y_velocity], or its guard, the
    same one, was false. *)
Lemma second_bottom_collision_false (r : Rect) (platform : Platform) (q : Player) :
  bottom_collision r platform
    (if bottom_collision r platform q then
       set_y_velocity 0%Q (set_pos_y (inject_Z (bottom (rect platform))) q)
     else q) = false.
Proof.
  destruct (bottom_collision r platform q) eqn:B.
  - apply bottom_collision_needs_rising. simpl. apply Qle_refl.
  - exact B.
Qed.

Lemma collide_platforms_one_head_bump_eq (r : Rect) (pb : Q)
    (platforms : list Platform) (q : Player) :
  collide_platforms r pb q platforms
  = collide_platforms_one_head_bump r pb q platforms.
Proof.
  revert q. induction platforms as [|platform platforms IH]; intro q.
  - reflexivity.
  - simpl. destruct (top_collision r pb platform q); [reflexivity|].
    rewrite second_bottom_collision_false. apply IH.
Qed.

(** C6. The second head-bump branch of [handle_collisions] (lines 202-211)
    never runs: whatever the player state and the platform, its guard is
    false on the state in which it is evaluated, and the resolver without
    that branch returns the same player state on every player state and
    platform list. *)
Theorem duplicate_bottom_collision_dead :
  (forall (r : Rect) (platform : Platform) (q : Player),
     bottom_collision r platform
       (if bottom_collision r platform q then
          set_y_velocity 0%Q (set_pos_y (inject_Z (bottom (rect platform))) q)
        else q) = false) /\
  (forall (p : Player) (platforms : list Platform),
     handle_collisions p platforms
     = handle_collisions_one_head_bump p platforms).
Proof.
  split.
  - exact second_bottom_collision_false.
  - intros p platforms. unfold handle_collisions, handle_collisions_one_head_bump.
    apply collide_platforms_one_head_bump_eq.
Qed.

Lemma top_collision_falling (r : Rect) (pb : Q) (platform : Platform) (q : Player) :
  (0 < y_velocity q)%Q ->
  top_collision r pb platform q = crosses_top r pb platform.
Proof.
  intro V. unfold top_collision. apply Qlt_bool_iff in V. rewrite V.
  apply andb_true_r.
Qed.

(** Past a platform on which a falling player does not land, the vertical
    part of the state is as before. *)
Lemma collide_platforms_pass (r : Rect) (pb : Q) (platform : Platform)
    (platforms : list Platform) (q : Player) :
  (0 < y_velocity q)%Q -> crosses_top r pb platform = false ->
  exists q2,
    collide_platforms r pb q (platform :: platforms)
    = collide_platforms r pb q2 platforms /\
    (forall platforms',
       collide_platforms r pb q (platform :: platforms')
       = collide_platforms r pb q2 platforms') /\
    pos_y q2 = pos_y q /\ y_velocity q2 = y_velocity q /\
    is_grounded q2 = is_grounded q.
Proof.
  intros V C.
  assert (B : bottom_collision r platform q = false)
    by (apply bottom_collision_needs_rising, Qlt_le_weak; exact V).
  cbn [collide_platforms].
  rewrite (top_collision_falling _ _ _ _ V), C, B.
  eexists. split; [reflexivity|]. split; [reflexivity|].
  destruct (left_side_collision r platform);
    [|destruct (right_side_collision r platform)]; simpl; auto.
  rewrite B. auto.
Qed.

Lemma collide_platforms_lands (r : Rect) (pb : Q) (platform : Platform)
    (before after : list Platform) (q : Player) :
  (0 < y_velocity q)%Q ->
  (forall other, In other before -> crosses_top r pb other = false) ->
  crosses_top r pb platform = true ->
  let q' := collide_platforms r pb q (before ++ platform :: after) in
  pos_y q' = inject_Z (top (rect platform) - 15) /\
  y_velocity q' = 0%Q /\ is_grounded q' = true /\
  forall after', collide_platforms r pb q (before ++ platform :: after') = q'.
Proof.
  revert q. induction before as [|other before IH]; intros q V N C.
  - cbn [app collide_platforms].
    rewrite (top_collision_falling _ _ _ _ V), C. cbn zeta.
    repeat split.
  - destruct (collide_platforms_pass r pb other
                (before ++ platform :: after) q V
                (N other (or_introl eq_refl)))
      as (q2 & E & E' & _ & V2 & _).
    cbn [app]. cbn zeta. rewrite E.
    destruct (IH q2) as (H1 & H2 & H3 & H4).
    + rewrite V2. exact V.
    + intros x I. apply N. right. exact I.
    + exact C.
    + repeat split; try assumption.
      intro after'. rewrite E'. apply H4.
Qed.

Lemma collide_platforms_airborne (r : Rect) (pb : Q)
    (platforms : list Platform) (q : Player) :
  (0 < y_velocity q)%Q ->
  (forall other, In other platforms -> crosses_top r pb other = false) ->
  let q' := collide_platforms r pb q platforms in
  pos_y q' = pos_y q /\ y_velocity q' = y_velocity q /\
  is_grounded q' = is_grounded q.
Proof.
  revert q. induction platforms as [|other platforms IH]; intros q V N.
  - simpl. auto.
  - destruct (collide_platforms_pass r pb other platforms q V
                (N other (or_introl eq_refl)))
      as (q2 & E & _ & P2 & V2 & G2).
    cbn zeta. rewrite E.
    destruct (IH q2) as (H1 & H2 & H3).
    + rewrite V2. exact V.
    + intros x I. apply N. right. exact I.
    + repeat split; congruence.
Qed.

(** The first element of a list that satisfies a test. *)
Lemma first_such {A : Type} (f : A -> bool) (l : list A) :
  (exists x, In x l /\ f x = true) ->
  exists before x after,
    l = before ++ x :: after /\
    (forall y, In y before -> f y = false) /\ f x = true.
Proof.
  induction l as [|a l IH]; intros [x [I T]]; [destruct I|].
  destruct (f a) eqn:Fa.
  - exists [], a, l. split; [reflexivity|]. split; [intros y []|exact Fa].
  - destruct I as [->|I]; [congruence|].
    destruct IH as (before & y & after & E & N & Fy); [exists x; auto|].
    exists (a :: before), y, after. split; [rewrite E; reflexivity|].
    split; [|exact Fy]. intros z [<-|Iz]; [exact Fa|apply N; exact Iz].
Qed.

(** The landing test of lines 161-164 on the rectangle and the swept bottom
    edge that lines 155-156 compute. *)
Lemma crosses_top_iff (p : Player) (platform : Platform) :
  crosses_top (player_rect p)
    (float_sub (inject_Z (bottom (player_rect p))) (y_velocity p)) platform
  = true <->
  (float_sub (inject_Z (to_int (pos_y p) + 15)) (y_velocity p)
   <= inject_Z (top (rect platform)))%Q /\
  top (rect platform) <= to_int (pos_y p) + 15 /\
  left (rect platform) < to_int (pos_x p) + 15 /\
  to_int (pos_x p) < right (rect platform).
Proof.
  unfold crosses_top, player_rect.
  unfold bottom at 1 2, right at 1, left at 2. cbn [rx ry rw rh].
  unfold PLAYER_STATS.size.
  rewrite !andb_true_iff, Qle_bool_iff, Z.geb_le, Z.gtb_lt, Z.ltb_lt.
  tauto.
Qed.

(** C2 (amended).  Landing, on every player state with [y_velocity > 0] and
    every platform list.  The resolver works on the player's rectangle,
    whose corner is the position truncated to integers: the bottom edge is
    [int(pos_y) + 15], and [previous_bottom] is that edge minus
    [y_velocity], rounded as a float.  A platform is landed on when
    [previous_bottom <= top], [bottom >= top] and the rectangle overlaps it
    horizontally.  [handle_collisions] snaps [pos_y] to the top of the first
    such platform in list order minus 15, zeroes [y_velocity] and sets
    [is_grounded], and the platforms after it do not influence the result;
    when no platform qualifies the player stays airborne with [pos_y] and
    [y_velocity] as they were; so the player is grounded exactly when some
    platform qualifies. *)
Theorem handle_collisions_landing (p : Player) (platforms : list Platform) :
  (0 < y_velocity p)%Q ->
  let player_left := to_int (pos_x p) in
  let player_right := to_int (pos_x p) + 15 in
  let player_bottom := to_int (pos_y p) + 15 in
  let previous_bottom := float_sub (inject_Z player_bottom) (y_velocity p) in
  let lands (platform : Platform) : Prop :=
    (previous_bottom <= inject_Z (top (rect platform)))%Q /\
    top (rect platform) <= player_bottom /\
    left (rect platform) < player_right /\
    player_left < right (rect platform) in
  let p' := handle_collisions p platforms in
  (forall before platform after,
     platforms = before ++ platform :: after ->
     (forall other, In other before -> ~ lands other) ->
     lands platform ->
     pos_y p' = inject_Z (top (rect platform) - 15) /\
     y_velocity p' = 0%Q /\ is_grounded p' = true /\
     forall after', handle_collisions p (before ++ platform :: after') = p') /\
  ((forall platform, In platform platforms -> ~ lands platform) ->
     pos_y p' = pos_y p /\ y_velocity p' = y_velocity p /\
     is_grounded p' = false) /\
  (is_grounded p' = true <->
   exists platform, In platform platforms /\ lands platform).
Proof.
  intros V player_left player_right player_bottom previous_bottom lands p'.
  set (r := player_rect p).
  set (pb := float_sub (inject_Z (bottom r)) (y_velocity p)).
  assert (R : forall platform, crosses_top r pb platform = true <-> lands platform)
    by (intro platform; apply (crosses_top_iff p platform)).
  assert (N : forall platform, ~ lands platform -> crosses_top r pb platform = false).
  { intros platform H. destruct (crosses_top r pb platform) eqn:C;
      [|reflexivity]. exfalso. apply H, R. exact C. }
  assert (Lands : forall before platform after,
            platforms = before ++ platform :: after ->
            (forall other, In other before -> ~ lands other) ->
            lands platform ->
            pos_y p' = inject_Z (top (rect platform) - 15) /\
            y_velocity p' = 0%Q /\ is_grounded p' = true /\
            forall after',
              handle_collisions p (before ++ platform :: after') = p').
  { intros before platform after E B L. subst p'. rewrite E.
    apply (collide_platforms_lands r pb platform before after
             (set_is_grounded false p) V).
    - intros other I. apply N, B. exact I.
    - apply R. exact L. }
  assert (Airborne : (forall platform, In platform platforms -> ~ lands platform) ->
            pos_y p' = pos_y p /\ y_velocity p' = y_velocity p /\
            is_grounded p' = false).
  { intro A.
    apply (collide_platforms_airborne r pb platforms
             (set_is_grounded false p) V).
    intros other I. apply N, A. exact I. }
  split; [exact Lands|]. split; [exact Airborne|]. split.
  - intro G.
    destruct (existsb (crosses_top r pb) platforms) eqn:X.
    + apply existsb_exists in X. destruct X as [x [I C]].
      exists x. split; [exact I|apply R; exact C].
    + exfalso. destruct Airborne as [_ [_ A]]; [|congruence].
      intros platform I L. apply R in L.
      assert (existsb (crosses_top r pb) platforms = true)
        by (apply existsb_exists; exists platform; auto).
      congruence.
  - intros [x [I L]].
    destruct (first_such (crosses_top r pb) platforms)
      as (before & y & after & E & B & C);
      [exists x; split; [exact I|apply R; exact L]|].
    apply (Lands before y after E).
    + intros other Io Lo. apply R in Lo. rewrite (B other Io) in Lo.
      discriminate Lo.
    + apply R. exact C.
Qed.

(** The first platform is out of reach sideways, the second and the third
    both qualify and have different tops: the player lands on the second. *)
Lemma handle_collisions_landing_witness :
  (0 < y_velocity falling_player)%Q /\
  pos_y (handle_collisions falling_player three_platforms) = inject_Z 245 /\
  y_velocity (handle_collisions falling_player three_platforms) = 0%Q /\
  is_grounded (handle_collisions falling_player three_platforms) = true.
Proof.
  assert (V : (0 < y_velocity falling_player)%Q) by reflexivity.
  split; [exact V|].
  destruct (handle_collisions_landing falling_player three_platforms V)
    as [H _].
  destruct (H [mkPlatform (mkRect 1000 259 100 20)]
              (mkPlatform (mkRect 150 260 100 20))
              [mkPlatform (mkRect 190 258 100 20)])
    as [H1 [H2 [H3 _]]].
  - reflexivity.
  - intros other [<-|[]] [_ [_ [L _]]]. vm_compute in L. discriminate L.
  - split; [vm_compute; discriminate|].
    split; [vm_compute; discriminate|].
    split; vm_compute; reflexivity.
  - split; [exact H1|]. split; [exact H2|exact H3].
Defined.

(** C2, counterexample.  The position is (200, 200.75) and the player falls
    at 0.5 per frame onto a platform whose top is at 215.  Measured from
    the position, the bottom edge is at 215.75 and was at 215.25 one frame
    ago, below the top already, so that the three conditions of the claim
    do not hold; the rectangle's bottom edge is at 215, and the resolver
    lands the player. *)
Lemma landing_on_truncated_edge :
  let p := player_between_pixels in
  (0 < y_velocity p)%Q /\
  ~ (pos_y p + 15 - y_velocity p <= 215)%Q /\
  ~ (float_sub (float_add (pos_y p) 15) (y_velocity p) <= 215)%Q /\
  is_grounded (handle_collisions p ledge) = true /\
  pos_y (handle_collisions p ledge) = inject_Z 200 /\
  y_velocity (handle_collisions p ledge) = 0%Q.
Proof.
  cbn zeta. split; [reflexivity|].
  split; [vm_compute; intro H; apply H; reflexivity|].
  split; [vm_compute; intro H; apply H; reflexivity|].
  split; [vm_compute; reflexivity|].
  split; vm_compute; reflexivity.
Qed.

(** ** Which operation writes which part of the player *)

Ltac break_if :=
  match goal with
  | |- context [if ?c then _ else _] => destruct c eqn:?
  end.

Ltac run_clock := unfold bind, ret, get_ticks; cbn beta iota zeta.

Lemma bind_run {A B} (m : Clock A) (f : A -> Clock B) (tk : nat -> Z) (n : nat) :
  bind m f tk n = f (fst (m tk n)) tk (snd (m tk n)).
Proof. unfold bind. destruct (m tk n). reflexivity. Qed.

Lemma move_player_vitals (p : Player) (k : Keys) (tk : nat -> Z) (n : nat) :
  vitals (fst (move_player p k tk n)) = vitals p /\
  config (fst (move_player p k tk n)) = config p.
Proof.
  unfold move_player. run_clock. repeat break_if; split; reflexivity.
Qed.

Lemma apply_physics_vitals (p : Player) :
  vitals (apply_physics p) = vitals p /\ config (apply_physics p) = config p.
Proof.
  unfold apply_physics. repeat break_if; split; reflexivity.
Qed.

Lemma collide_platforms_keeps (r : Rect) (pb : Q) (platforms : list Platform)
    (q : Player) :
  let q' := collide_platforms r pb q platforms in
  vitals q' = vitals q /\ config q' = config q /\
  dash_state q' = dash_state q /\
  (x_velocity q' = x_velocity q \/ x_velocity q' = 0%Q).
Proof.
  revert q. induction platforms as [|platform platforms IH]; intro q.
  - simpl. auto.
  - cbn [collide_platforms]. break_if.
    + simpl. auto.
    + match goal with
      | |- context [collide_platforms r pb ?q2 platforms] =>
          specialize (IH q2); cbn zeta in IH |- *;
          destruct IH as [V [C [D X]]];
          assert (E : vitals q2 = vitals q /\ config q2 = config q /\
                      dash_state q2 = dash_state q /\
                      (x_velocity q2 = x_velocity q \/ x_velocity q2 = 0%Q))
            by (repeat break_if; simpl; auto);
          destruct E as [V2 [C2 [D2 X2]]];
          rewrite V, C, D
      end.
      repeat split; try assumption.
      destruct X as [X|X]; [rewrite X; exact X2|right; exact X].
Qed.

Lemma handle_collisions_keeps (p : Player) (platforms : list Platform) :
  let p' := handle_collisions p platforms in
  vitals p' = vitals p /\ config p' = config p /\
  dash_state p' = dash_state p /\
  (x_velocity p' = x_velocity p \/ x_velocity p' = 0%Q).
Proof.
  exact (collide_platforms_keeps _ _ platforms (set_is_grounded false p)).
Qed.

Lemma constrain_player_to_world_keeps (p : Player) :
  let p' := constrain_player_to_world p in
  vitals p' = vitals p /\ config p' = config p /\
  dash_state p' = dash_state p /\
  (x_velocity p' = x_velocity p \/ x_velocity p' = 0%Q).
Proof.
  unfold constrain_player_to_world. repeat break_if; simpl; auto.
Qed.

Lemma handle_damage_motion (p : Player) (amount : Z) (tk : nat -> Z) (n : nat) :
  motion (fst (handle_damage p amount tk n)) = motion p /\
  config (fst (handle_damage p amount tk n)) = config p.
Proof.
  unfold handle_damage. run_clock. repeat break_if; split; reflexivity.
Qed.

Lemma damage_loop_motion (r : Rect) (bricks : list DamageBrick) (p : Player)
    (tk : nat -> Z) (n : nat) :
  motion (fst (damage_loop r p bricks tk n)) = motion p /\
  config (fst (damage_loop r p bricks tk n)) = config p.
Proof.
  revert p n. induction bricks as [|b bricks IH]; intros p n.
  - split; reflexivity.
  - cbn [damage_loop]. rewrite bind_run.
    destruct (colliderect r (brick_rect b)).
    + destruct (IH (fst (handle_damage p (damage b) tk n))
                   (snd (handle_damage p (damage b) tk n))) as [M C].
      destruct (handle_damage_motion p (damage b) tk n) as [M1 C1].
      split; congruence.
    + apply IH.
Qed.

Lemma reset_invincibility_motion (p : Player) (tk : nat -> Z) (n : nat) :
  let p' := fst (reset_invincibility p tk n) in
  motion p' = motion p /\ config p' = config p /\ hp p' = hp p /\
  last_damage_time p' = last_damage_time p.
Proof.
  unfold reset_invincibility. run_clock. repeat break_if; simpl; auto.
Qed.

(** ** Sessions *)

Lemma run_snoc (platforms : list Platform) (bricks : list DamageBrick)
    (inputs : list FrameInput) (i : FrameInput) (s : Session) :
  run platforms bricks (inputs ++ [i]) s
  = run_frame platforms bricks (run platforms bricks inputs s) i.
Proof. unfold run. rewrite fold_left_app. reflexivity. Qed.

(** A property of sessions that holds at the start and is kept by every
    frame holds after every sequence of frames. *)
Lemma run_invariant (platforms : list Platform) (bricks : list DamageBrick)
    (P : Session -> Prop) :
  (forall s i, P s -> P (run_frame platforms bricks s i)) ->
  forall inputs s, P s -> P (run platforms bricks inputs s).
Proof.
  intros Step inputs. induction inputs as [|i inputs IH]; intros s H.
  - exact H.
  - simpl. apply IH. apply Step. exact H.
Qed.

(** The player that a frame leaves: the motion half of the frame, then,
    unless the player is dead, the hazard half. *)
Lemma run_frame_player_eq (platforms : list Platform)
    (bricks : list DamageBrick) (s : Session) (i : FrameInput) :
  let p4 := after_constrain platforms i (player s) in
  let n4 := snd (move_player (player s) (keys i) (ticks i) 0%nat) in
  let hit := handle_damage_bricks p4 bricks (ticks i) n4 in
  player (run_frame platforms bricks s i)
  = if hp p4 <=? 0 then p4
    else fst (reset_invincibility (fst hit) (ticks i) (snd hit)).
Proof.
  cbn zeta. unfold run_frame, frame, move_and_collide.
  unfold after_constrain, after_collisions, after_physics, after_move.
  rewrite !bind_run. unfold ret at 1 2. cbn [fst snd].
  destruct (hp _ <=? 0).
  - reflexivity.
  - rewrite !bind_run.
    destruct (handle_coin_collection _ (coins s) (score s)). reflexivity.
Qed.

Lemma after_constrain_vitals (platforms : list Platform) (i : FrameInput)
    (p : Player) :
  vitals (after_constrain platforms i p) = vitals p /\
  config (after_constrain platforms i p) = config p.
Proof.
  unfold after_constrain, after_collisions, after_physics, after_move.
  destruct (move_player_vitals p (keys i) (ticks i) 0%nat) as [V1 C1].
  destruct (apply_physics_vitals
              (fst (move_player p (keys i) (ticks i) 0%nat))) as [V2 C2].
  destruct (handle_collisions_keeps
              (apply_physics (fst (move_player p (keys i) (ticks i) 0%nat)))
              platforms) as [V3 [C3 _]].
  destruct (constrain_player_to_world_keeps
              (handle_collisions
                 (apply_physics
                    (fst (move_player p (keys i) (ticks i) 0%nat)))
                 platforms)) as [V4 [C4 _]].
  split; congruence.
Qed.

(** The hazard half of the frame leaves [motion] and [config] alone, and the
    motion half leaves [vitals] and [config] alone. *)
Lemma run_frame_player (platforms : list Platform) (bricks : list DamageBrick)
    (s : Session) (i : FrameInput) :
  let p4 := after_constrain platforms i (player s) in
  let p' := player (run_frame platforms bricks s i) in
  motion p' = motion p4 /\ config p' = config (player s) /\
  vitals p4 = vitals (player s).
Proof.
  cbn zeta.
  destruct (after_constrain_vitals platforms i (player s)) as [V4 C4].
  rewrite run_frame_player_eq. cbn zeta.
  set (p4 := after_constrain platforms i (player s)) in *.
  set (n4 := snd _).
  destruct (hp p4 <=? 0); [auto|].
  unfold handle_damage_bricks.
  destruct (damage_loop_motion (player_rect p4) bricks p4 (ticks i) n4)
    as [M5 C5].
  destruct (reset_invincibility_motion
              (fst (damage_loop (player_rect p4) p4 bricks (ticks i) n4))
              (ticks i)
              (snd (damage_loop (player_rect p4) p4 bricks (ticks i) n4)))
    as [M6 [C6 _]].
  repeat split; congruence.
Qed.

(** ** Dash velocity *)

Lemma move_player_x_velocity (p : Player) (k : Keys) (tk : nat -> Z) (n : nat) :
  let p' := fst (move_player p k tk n) in
  x_velocity p' = x_velocity p \/ x_velocity p' = dash_speed p \/
  x_velocity p' = (- dash_speed p)%Q.
Proof.
  unfold move_player. run_clock. repeat break_if; simpl; auto.
Qed.

Lemma apply_physics_x_velocity (p : Player) :
  x_velocity (apply_physics p) = x_velocity p \/
  x_velocity (apply_physics p) = 0%Q.
Proof.
  unfold apply_physics. repeat break_if; simpl; auto.
Qed.

Lemma after_move_ok (i : FrameInput) (p : Player) :
  dash_velocity_ok p -> dash_velocity_ok (after_move i p).
Proof.
  intros [S X]. unfold after_move.
  destruct (move_player_vitals p (keys i) (ticks i) 0%nat) as [_ C].
  destruct (move_player_x_velocity p (keys i) (ticks i) 0%nat) as [E|[E|E]];
    split; try (unfold config in C; congruence); rewrite E; auto;
    rewrite S; auto.
Qed.

Lemma after_physics_ok (i : FrameInput) (p : Player) :
  dash_velocity_ok p -> dash_velocity_ok (after_physics i p).
Proof.
  intro H. apply (after_move_ok i) in H. destruct H as [S X].
  unfold after_physics.
  destruct (apply_physics_vitals (after_move i p)) as [_ C].
  destruct (apply_physics_x_velocity (after_move i p)) as [E|E];
    split; try (unfold config in C; congruence); rewrite E; auto.
Qed.

Lemma after_collisions_ok (platforms : list Platform) (i : FrameInput)
    (p : Player) :
  dash_velocity_ok p -> dash_velocity_ok (after_collisions platforms i p).
Proof.
  intro H. apply (after_physics_ok i) in H. destruct H as [S X].
  unfold after_collisions.
  destruct (handle_collisions_keeps (after_physics i p) platforms)
    as [_ [C [_ [E|E]]]];
    split; try (unfold config in C; congruence); rewrite E; auto.
Qed.

Lemma after_constrain_ok (platforms : list Platform) (i : FrameInput)
    (p : Player) :
  dash_velocity_ok p -> dash_velocity_ok (after_constrain platforms i p).
Proof.
  intro H. apply (after_collisions_ok platforms i) in H. destruct H as [S X].
  unfold after_constrain.
  destruct (constrain_player_to_world_keeps (after_collisions platforms i p))
    as [_ [C [_ [E|E]]]];
    split; try (unfold config in C; congruence); rewrite E; auto.
Qed.

Lemma run_dash_velocity_ok (platforms : list Platform)
    (bricks : list DamageBrick) (inputs : list FrameInput) :
  dash_velocity_ok (player (run platforms bricks inputs initial_session)).
Proof.
  apply (run_invariant platforms bricks (fun s => dash_velocity_ok (player s))).
  - intros s i H.
    pose proof (after_constrain_ok platforms i _ H) as [_ X].
    destruct H as [S _].
    destruct (run_frame_player platforms bricks s i) as [M [C _]].
    unfold motion in M. unfold config in C.
    split; [congruence|].
    replace (x_velocity (player (run_frame platforms bricks s i)))
      with (x_velocity (after_constrain platforms i (player s)))
      by congruence.
    exact X.
  - split; [reflexivity|]. right. right. reflexivity.
Qed.

(** C1 (amended).  For every player state that occurs in a session, between
    frames or after any of the per-frame operations: while [is_dashing] is
    set, [x_velocity] is [dash_speed] (9) in one of the two directions, or 0
    once a side collision or the horizontal world bound has stopped the
    player; and gravity is not applied: [apply_physics] leaves [y_velocity]
    as it is and adds exactly that velocity to [pos_y].  On such a state
    movement and physics keep [x_velocity] for as long as the dash lasts,
    while collision resolution and the boundary clamp keep it or zero it
    and leave [is_dashing] set. *)
Theorem dashing_velocity_invariant (platforms : list Platform)
    (bricks : list DamageBrick) (p : Player) :
  reachable platforms bricks p ->
  is_dashing p = true ->
  (x_velocity p = dash_speed p \/ x_velocity p = (- dash_speed p)%Q \/
   x_velocity p = 0%Q) /\
  dash_speed p = (9 # 1)%Q /\
  y_velocity (apply_physics p) = y_velocity p /\
  pos_y (apply_physics p) = float_add (pos_y p) (y_velocity p) /\
  (forall k tk n,
     is_dashing (fst (move_player p k tk n)) = true /\
     x_velocity (fst (move_player p k tk n)) = x_velocity p) /\
  (is_dashing (apply_physics p) = true ->
     x_velocity (apply_physics p) = x_velocity p) /\
  (forall level,
     is_dashing (handle_collisions p level) = true /\
     (x_velocity (handle_collisions p level) = x_velocity p \/
      x_velocity (handle_collisions p level) = 0%Q)) /\
  is_dashing (constrain_player_to_world p) = true /\
  (x_velocity (constrain_player_to_world p) = x_velocity p \/
   x_velocity (constrain_player_to_world p) = 0%Q).
Proof.
  intros R D.
  assert (O : dash_velocity_ok p).
  { destruct R.
    - apply run_dash_velocity_ok.
    - apply after_move_ok, run_dash_velocity_ok.
    - apply after_physics_ok, run_dash_velocity_ok.
    - apply after_collisions_ok, run_dash_velocity_ok.
    - apply after_constrain_ok, run_dash_velocity_ok. }
  destruct O as [S X]. rewrite S. split; [exact X|]. split; [reflexivity|].
  assert (G : y_velocity (apply_physics p) = y_velocity p /\
              pos_y (apply_physics p) = float_add (pos_y p) (y_velocity p) /\
              (is_dashing (apply_physics p) = true ->
               x_velocity (apply_physics p) = x_velocity p)).
  { unfold apply_physics. rewrite D. simpl.
    destruct (dash_timer p - 1 <=? 0); simpl; repeat split;
      intro; congruence. }
  destruct G as [G1 [G2 G3]].
  split; [exact G1|]. split; [exact G2|]. split; [|split; [exact G3|]].
  - intros k tk n. unfold move_player. rewrite D. simpl. auto.
  - split.
    + intro level.
      destruct (handle_collisions_keeps p level) as [_ [_ [E V]]].
      unfold dash_state in E. split; [congruence|exact V].
    + destruct (constrain_player_to_world_keeps p) as [_ [_ [E V]]].
      unfold dash_state in E. split; [congruence|exact V].
Qed.

Lemma dashing_velocity_invariant_witness :
  let p := player (run [] damage_bricks [frame_at dash_right 600]
                     initial_session) in
  is_dashing p = true /\ x_velocity p = (9 # 1)%Q /\
  y_velocity (apply_physics p) = y_velocity p.
Proof.
  cbn zeta.
  destruct (dashing_velocity_invariant [] damage_bricks _
              (reach_frames [] damage_bricks [frame_at dash_right 600]))
    as [_ [_ [H _]]]; [reflexivity|].
  split; [reflexivity|]. split; [reflexivity|]. exact H.
Defined.

(** C1, counterexample.  The frame that starts the dash also clamps the
    player at the left bound, which zeroes [x_velocity] and leaves
    [is_dashing] set: a state of the session in which the player is dashing
    and the magnitude of [x_velocity] is not [dash_speed]. *)
Lemma dashing_with_zero_velocity :
  let p := player (run [] damage_bricks walk_then_dash_left initial_session) in
  reachable [] damage_bricks p /\
  is_dashing p = true /\ x_velocity p = 0%Q /\
  ~ (Qabs (x_velocity p) == dash_speed p)%Q.
Proof.
  cbn zeta. split; [apply reach_frames|].
  split; [vm_compute; reflexivity|].
  split; [vm_compute; reflexivity|].
  vm_compute. discriminate.
Qed.

(** ** Coins and score *)

Lemma coins_kept_refl (coins : list Coin) : coins_kept coins coins.
Proof.
  induction coins as [|c coins IH]; constructor; auto.
Qed.

Lemma coins_kept_trans (a b c : list Coin) :
  coins_kept a b -> coins_kept b c -> coins_kept a c.
Proof.
  intro H. revert c. induction H as [|x y a b [R F] H IH]; intros c K.
  - inversion K. constructor.
  - inversion K as [|y' z b' c' [R' F'] K']; subst.
    constructor; [|apply IH; exact K'].
    split; [congruence|auto].
Qed.

Lemma collect_coins_spec (r : Rect) (coins : list Coin) (score : Z) :
  let result := collect_coins r coins score in
  snd result = score + (collected_count (fst result) - collected_count coins) /\
  coins_kept coins (fst result).
Proof.
  revert score. induction coins as [|c coins IH]; intro score.
  - simpl. split; [unfold collected_count; simpl; lia|constructor].
  - cbn [collect_coins].
    destruct (negb (collected c) && colliderect r (coin_rect c)) eqn:G.
    + specialize (IH (score + 1)). cbn zeta in IH.
      destruct (collect_coins r coins (score + 1)) as [coins' score'].
      cbn [fst snd] in *. destruct IH as [S K].
      apply andb_prop in G. destruct G as [G _].
      apply negb_true_iff in G.
      split.
      * unfold collected_count in *. cbn [filter collected]. rewrite G.
        cbn [length]. lia.
      * constructor; [|exact K]. split; [reflexivity|]. intro. reflexivity.
    + specialize (IH score). cbn zeta in IH.
      destruct (collect_coins r coins score) as [coins' score'].
      cbn [fst snd] in *. destruct IH as [S K].
      split.
      * unfold collected_count in *. cbn [filter].
        destruct (collected c); cbn [length]; lia.
      * constructor; [|exact K]. split; [reflexivity|]. auto.
Qed.

Lemma run_frame_coins (platforms : list Platform) (bricks : list DamageBrick)
    (s : Session) (i : FrameInput) :
  let s' := run_frame platforms bricks s i in
  score s' = score s + (collected_count (coins s') - collected_count (coins s)) /\
  coins_kept (coins s) (coins s').
Proof.
  unfold run_frame, frame. rewrite bind_run.
  destruct (hp _ <=? 0).
  - run_clock. cbn [fst coins score]. split; [lia|apply coins_kept_refl].
  - rewrite !bind_run.
    match goal with
    | |- context [handle_coin_collection ?p (coins s) (score s)] =>
        pose proof (collect_coins_spec (player_rect p) (coins s) (score s)) as H;
        unfold handle_coin_collection;
        destruct (collect_coins (player_rect p) (coins s) (score s))
          as [coins' score']
    end.
    exact H.
Qed.

Lemma run_coins_kept (platforms : list Platform) (bricks : list DamageBrick)
    (more : list FrameInput) (s : Session) :
  coins_kept (coins s) (coins (run platforms bricks more s)).
Proof.
  revert s. induction more as [|i more IH]; intro s.
  - apply coins_kept_refl.
  - simpl. eapply coins_kept_trans; [|apply IH].
    apply run_frame_coins.
Qed.

(** C9. In every session, whatever the level and the inputs: the score
    starts at 0 and, after every sequence of frames, equals the number of
    coins whose [collected] flag is set; a flag that is set stays set in
    every later state, so each coin goes from uncollected to collected at
    most once; and [handle_coin_collection] returns the score it was given
    plus the number of coins it has newly collected. *)
Theorem score_counts_collected_coins (platforms : list Platform)
    (bricks : list DamageBrick) (inputs more : list FrameInput) :
  let s := run platforms bricks inputs initial_session in
  let s' := run platforms bricks more s in
  score initial_session = 0 /\
  score s = collected_count (coins s) /\
  coins_kept (coins s) (coins s') /\
  (forall (p : Player) (cs : list Coin) (n : Z),
     snd (handle_coin_collection p cs n)
     = n + (collected_count (fst (handle_coin_collection p cs n))
            - collected_count cs) /\
     coins_kept cs (fst (handle_coin_collection p cs n))).
Proof.
  cbn zeta. split; [reflexivity|]. split; [|split].
  - apply (run_invariant platforms bricks
             (fun s => score s = collected_count (coins s))).
    + intros s i H. destruct (run_frame_coins platforms bricks s i) as [E _].
      lia.
    + reflexivity.
  - apply run_coins_kept.
  - intros p cs n. apply collect_coins_spec.
Qed.

(** The first coin of [main] is picked up in flight, and only that one. *)
Example coin_collected_in_flight :
  let s := run [] damage_bricks fall_then_walk_right initial_session in
  map collected (coins s) = [true; false; false; false] /\ score s = 1.
Proof. vm_compute. split; reflexivity. Qed.

(** ** Hit points *)

Lemma handle_damage_hp (p : Player) (amount : Z) (tk : nat -> Z) (n : nat) :
  0 <= amount -> 0 <= hp p ->
  0 <= hp (fst (handle_damage p amount tk n)) <= hp p.
Proof.
  intros A H. unfold handle_damage. run_clock.
  destruct (is_invincible p); simpl; [lia|].
  destruct (Z.ltb_spec (hp p - amount) 0); simpl; lia.
Qed.

Lemma damage_loop_hp (r : Rect) (bricks : list DamageBrick) (p : Player)
    (tk : nat -> Z) (n : nat) :
  Forall (fun b => 0 <= damage b) bricks -> 0 <= hp p ->
  0 <= hp (fst (damage_loop r p bricks tk n)) <= hp p.
Proof.
  intro F. revert p n. induction F as [|b bricks B F IH]; intros p n H.
  - simpl. lia.
  - cbn [damage_loop]. rewrite bind_run.
    destruct (colliderect r (brick_rect b)).
    + pose proof (handle_damage_hp p (damage b) tk n B H) as H1.
      specialize (IH (fst (handle_damage p (damage b) tk n))
                     (snd (handle_damage p (damage b) tk n))).
      lia.
    + apply IH. exact H.
Qed.

Lemma run_frame_hp (platforms : list Platform) (bricks : list DamageBrick)
    (s : Session) (i : FrameInput) :
  Forall (fun b => 0 <= damage b) bricks -> 0 <= hp (player s) ->
  0 <= hp (player (run_frame platforms bricks s i)) <= hp (player s).
Proof.
  intros F H.
  destruct (after_constrain_vitals platforms i (player s)) as [V _].
  assert (H4 : hp (after_constrain platforms i (player s)) = hp (player s))
    by (unfold vitals in V; congruence).
  rewrite run_frame_player_eq. cbn zeta.
  set (p4 := after_constrain platforms i (player s)) in *.
  set (n4 := snd _).
  destruct (hp p4 <=? 0); [lia|].
  destruct (reset_invincibility_motion
              (fst (handle_damage_bricks p4 bricks (ticks i) n4)) (ticks i)
              (snd (handle_damage_bricks p4 bricks (ticks i) n4)))
    as [_ [_ [E _]]].
  rewrite E. unfold handle_damage_bricks.
  pose proof (damage_loop_hp (player_rect p4) bricks p4 (ticks i) n4 F).
  lia.
Qed.

Lemma damage_bricks_nonnegative : Forall (fun b => 0 <= damage b) damage_bricks.
Proof. repeat constructor. simpl. lia. Qed.

Lemma run_hp_bounds (platforms : list Platform) (inputs : list FrameInput) :
  0 <= hp (player (run platforms damage_bricks inputs initial_session)) <= 100.
Proof.
  apply (run_invariant platforms damage_bricks
           (fun s => 0 <= hp (player s) <= 100)).
  - intros s i H.
    pose proof (run_frame_hp platforms damage_bricks s i
                  damage_bricks_nonnegative).
    lia.
  - simpl. lia.
Qed.

Lemma run_hp_decreasing (platforms : list Platform) (more : list FrameInput)
    (s : Session) :
  0 <= hp (player s) ->
  0 <= hp (player (run platforms damage_bricks more s)) <= hp (player s).
Proof.
  revert s. induction more as [|i more IH]; intros s H.
  - simpl. lia.
  - pose proof (run_frame_hp platforms damage_bricks s i
                  damage_bricks_nonnegative H) as H1.
    specialize (IH (run_frame platforms damage_bricks s i) (proj1 H1)).
    change (run platforms damage_bricks (i :: more) s)
      with (run platforms damage_bricks more
              (run_frame platforms damage_bricks s i)).
    lia.
Qed.

(** C10. In a session of the game (the damage brick of [main], any level,
    any inputs): [hp] starts at 100, stays within [[0, 100]] after every
    sequence of frames and never increases from one point of the session to
    a later one; the movement, physics, collision and boundary operations
    leave [hp] alone, and [handle_damage], the only writer, with a damage
    that is not negative returns [hp] between 0 and its former value. *)
Theorem hp_never_increases (platforms : list Platform)
    (inputs more : list FrameInput) :
  let s := run platforms damage_bricks inputs initial_session in
  let s' := run platforms damage_bricks more s in
  hp (player initial_session) = 100 /\
  0 <= hp (player s) <= 100 /\
  hp (player s') <= hp (player s) /\
  (forall (i : FrameInput) (p : Player),
     hp (after_move i p) = hp p /\
     hp (after_physics i p) = hp p /\
     hp (after_collisions platforms i p) = hp p /\
     hp (after_constrain platforms i p) = hp p) /\
  (forall (p : Player) (amount : Z) (tk : nat -> Z) (n : nat),
     0 <= amount -> 0 <= hp p ->
     0 <= hp (fst (handle_damage p amount tk n)) <= hp p).
Proof.
  cbn zeta. split; [reflexivity|].
  pose proof (run_hp_bounds platforms inputs) as B.
  split; [exact B|]. split; [|split].
  - apply run_hp_decreasing. lia.
  - intros i p.
    unfold after_constrain, after_collisions, after_physics, after_move.
    destruct (move_player_vitals p (keys i) (ticks i) 0%nat) as [V1 _].
    destruct (apply_physics_vitals
                (fst (move_player p (keys i) (ticks i) 0%nat))) as [V2 _].
    destruct (handle_collisions_keeps
                (apply_physics (fst (move_player p (keys i) (ticks i) 0%nat)))
                platforms) as [V3 _].
    destruct (constrain_player_to_world_keeps
                (handle_collisions
                   (apply_physics
                      (fst (move_player p (keys i) (ticks i) 0%nat)))
                   platforms)) as [V4 _].
    unfold vitals in *. repeat split; congruence.
  - intros p amount tk n. apply handle_damage_hp.
Qed.

Lemma hp_never_increases_witness :
  0 <= hp (fst (handle_damage player_in_brick 25 (fun _ => 700) 0%nat)) <= 100.
Proof.
  destruct (hp_never_increases [] [] []) as [_ [_ [_ [_ H]]]].
  apply (H player_in_brick 25 (fun _ => 700) 0%nat); simpl; lia.
Defined.

(** ** Dash trigger *)

(** [move_player] starts a dash: what must have been the case, and what it
    leaves behind. *)
Lemma move_player_trigger (p : Player) (k : Keys) (tk : nat -> Z) (n : nat) :
  let p' := fst (move_player p k tk n) in
  is_dashing p = false -> is_dashing p' = true ->
  K_LSHIFT k = true /\ dash_key_pressed p = false /\
  dash_cooldown p <= tk n - last_dash p /\
  (right_held k || left_held k = true) /\
  dash_timer p' = 15 /\ last_dash p' = tk (S n) /\
  dash_key_pressed p' = true /\
  (right_held k = true /\ x_velocity p' = dash_speed p /\
   facing_right p' = true
   \/
   right_held k = false /\ left_held k = true /\
   x_velocity p' = (- dash_speed p)%Q /\ facing_right p' = false).
Proof.
  unfold move_player, right_held, left_held. run_clock. intros D.
  rewrite D.
  destruct (K_LSHIFT k); [|repeat break_if; simpl; intro; congruence].
  destruct (dash_key_pressed p); cbn [negb];
    [repeat break_if; simpl; intro; congruence|].
  destruct (Z.geb_spec (tk n - last_dash p) (dash_cooldown p)) as [T|T];
    [|repeat break_if; simpl; intro; congruence].
  destruct (K_RIGHT k || K_d k) eqn:R.
  - repeat break_if; simpl; intro; repeat split; auto; lia.
  - destruct (K_LEFT k || K_a k) eqn:L.
    + repeat break_if; simpl; intro; repeat split; auto; lia.
    + repeat break_if; simpl; intro; congruence.
Qed.

(** Without a trigger [last_dash] is not written. *)
Lemma move_player_last_dash (p : Player) (k : Keys) (tk : nat -> Z) (n : nat) :
  let p' := fst (move_player p k tk n) in
  is_dashing p' = is_dashing p -> last_dash p' = last_dash p.
Proof.
  unfold move_player. run_clock.
  destruct (is_dashing p) eqn:D; [reflexivity|].
  repeat break_if; simpl; intro; congruence.
Qed.

Lemma move_player_dash_key (p : Player) (k : Keys) (tk : nat -> Z) (n : nat) :
  let p' := fst (move_player p k tk n) in
  dash_key_tracked p ->
  dash_key_tracked p' /\ (dash_key_pressed p' = false -> K_LSHIFT k = false).
Proof.
  unfold dash_key_tracked, move_player. run_clock.
  destruct (is_dashing p) eqn:D.
  - simpl. intro J. rewrite D, (J eq_refl). split; [auto|discriminate].
  - intros _. repeat break_if; simpl; split; congruence.
Qed.

Lemma apply_physics_dash_state (p : Player) :
  let p' := apply_physics p in
  dash_key_pressed p' = dash_key_pressed p /\ last_dash p' = last_dash p /\
  (is_dashing p' = true -> is_dashing p = true).
Proof.
  unfold apply_physics. repeat break_if; simpl; repeat split; congruence.
Qed.

(** After a whole frame the dash bookkeeping is what [move_player] then
    [apply_physics] made of it. *)
Lemma run_frame_dash_state (platforms : list Platform)
    (bricks : list DamageBrick) (s : Session) (i : FrameInput) :
  dash_state (player (run_frame platforms bricks s i))
  = dash_state (after_physics i (player s)).
Proof.
  destruct (run_frame_player platforms bricks s i) as [M _].
  unfold motion in M.
  assert (E : dash_state (player (run_frame platforms bricks s i))
              = dash_state (after_constrain platforms i (player s)))
    by congruence.
  rewrite E. unfold after_constrain, after_collisions.
  destruct (constrain_player_to_world_keeps
              (handle_collisions (after_physics i (player s)) platforms))
    as [_ [_ [D1 _]]].
  destruct (handle_collisions_keeps (after_physics i (player s)) platforms)
    as [_ [_ [D2 _]]].
  congruence.
Qed.

Lemma run_frame_dash_key (platforms : list Platform)
    (bricks : list DamageBrick) (s : Session) (i : FrameInput) :
  let p' := player (run_frame platforms bricks s i) in
  dash_key_tracked (player s) ->
  dash_key_tracked p' /\
  (dash_key_pressed p' = false -> K_LSHIFT (keys i) = false) /\
  last_dash p' = last_dash (after_move i (player s)).
Proof.
  cbn zeta. intro J.
  pose proof (run_frame_dash_state platforms bricks s i) as E.
  unfold dash_state, after_physics in E.
  destruct (apply_physics_dash_state (after_move i (player s)))
    as [K [L D]].
  destruct (move_player_dash_key (player s) (keys i) (ticks i) 0%nat J)
    as [J' U].
  fold (after_move i (player s)) in J', U.
  assert (E1 : is_dashing (player (run_frame platforms bricks s i))
               = is_dashing (apply_physics (after_move i (player s))))
    by congruence.
  assert (E2 : dash_key_pressed (player (run_frame platforms bricks s i))
               = dash_key_pressed (apply_physics (after_move i (player s))))
    by congruence.
  assert (E3 : last_dash (player (run_frame platforms bricks s i))
               = last_dash (apply_physics (after_move i (player s))))
    by congruence.
  unfold dash_key_tracked in *. rewrite E1, E2, E3, K, L.
  repeat split; auto.
Qed.

Lemma run_dash_key_tracked (platforms : list Platform)
    (bricks : list DamageBrick) (inputs : list FrameInput) :
  let p := player (run platforms bricks inputs initial_session) in
  dash_key_tracked p /\ config p = config initial_player.
Proof.
  apply (run_invariant platforms bricks
           (fun s => dash_key_tracked (player s) /\
                     config (player s) = config initial_player)).
  - intros s i [J C]. split.
    + apply run_frame_dash_key. exact J.
    + destruct (run_frame_player platforms bricks s i) as [_ [C' _]].
      congruence.
  - split; [intro D; discriminate D|reflexivity].
Qed.

(** C8. In every session, for every sequence of frame inputs and clock
    readings and every next frame: no dash starts while fewer than 500 ms
    separate the clock from [last_dash]; a dash starts only when the dash
    key is down in this frame and was up in the previous one, and a
    direction key is held; starting a dash sets [is_dashing], sets
    [dash_timer] to 15, sets [x_velocity] to 9 (right) or -9 (left), and
    stamps [last_dash] with the clock; [last_dash] changes at no other
    moment. *)
Theorem dash_trigger_spec (platforms : list Platform)
    (bricks : list DamageBrick) (inputs : list FrameInput) (i : FrameInput) :
  let s := run platforms bricks inputs initial_session in
  let p := player s in
  let p' := after_move i p in
  (ticks i 0%nat - last_dash p < 500 ->
     is_dashing p = false -> is_dashing p' = false) /\
  (is_dashing p = false -> is_dashing p' = true ->
     500 <= ticks i 0%nat - last_dash p /\
     K_LSHIFT (keys i) = true /\
     (forall before previous,
        inputs = before ++ [previous] -> K_LSHIFT (keys previous) = false) /\
     (right_held (keys i) || left_held (keys i) = true) /\
     dash_timer p' = 15 /\
     (right_held (keys i) = true /\ x_velocity p' = (9 # 1)%Q \/
      right_held (keys i) = false /\ left_held (keys i) = true /\
      x_velocity p' = (-9 # 1)%Q) /\
     last_dash p' = ticks i 1%nat) /\
  (is_dashing p' = is_dashing p -> last_dash p' = last_dash p) /\
  last_dash (player (run_frame platforms bricks s i)) = last_dash p'.
Proof.
  cbn zeta.
  destruct (run_dash_key_tracked platforms bricks inputs) as [J C].
  cbn zeta in J, C. unfold config in C.
  assert (CD : dash_cooldown
                 (player (run platforms bricks inputs initial_session)) = 500)
    by (change 500 with (dash_cooldown initial_player); congruence).
  assert (DS : dash_speed
                 (player (run platforms bricks inputs initial_session))
               = (9 # 1)%Q)
    by (change (9 # 1)%Q with (dash_speed initial_player); congruence).
  assert (T : is_dashing
                (player (run platforms bricks inputs initial_session)) = false ->
              is_dashing
                (after_move i
                   (player (run platforms bricks inputs initial_session)))
              = true ->
              _) by exact (move_player_trigger _ (keys i) (ticks i) 0%nat).
  rewrite CD, DS in T.
  split; [|split; [|split]].
  - intros Early D.
    destruct (is_dashing (after_move i _)) eqn:D'; [|reflexivity].
    destruct (T D eq_refl) as [_ [_ [Late _]]]. lia.
  - intros D D'.
    destruct (T D D') as [Sh [Up [Late [Dir [Tm [St [_ V]]]]]]].
    repeat split; try assumption.
    + intros before previous ->. rewrite run_snoc in Up.
      destruct (run_dash_key_tracked platforms bricks before) as [J0 _].
      destruct (run_frame_dash_key platforms bricks _ previous J0)
        as [_ [U _]].
      apply U. exact Up.
    + destruct V as [[R [V _]]|[R [L [V _]]]]; [left|right]; auto.
  - apply move_player_last_dash.
  - apply run_frame_dash_key. exact J.
Qed.

Lemma dash_trigger_spec_witness :
  (let p := player (run [] damage_bricks [frame_at no_keys 600]
                      initial_session) in
   let p' := after_move (frame_at dash_right 617) p in
   500 <= 617 - last_dash p /\ dash_timer p' = 15 /\ last_dash p' = 617) /\
  is_dashing (after_move (frame_at dash_right 100) initial_player) = false.
Proof.
  split.
  - destruct (dash_trigger_spec [] damage_bricks [frame_at no_keys 600]
                (frame_at dash_right 617)) as [_ [H _]].
    destruct H as [H1 [_ [_ [_ [H2 [_ H3]]]]]];
      [vm_compute; reflexivity|vm_compute; reflexivity|].
    repeat split; assumption.
  - destruct (dash_trigger_spec [] damage_bricks [] (frame_at dash_right 100))
      as [H _].
    apply H; [simpl; lia|reflexivity].
Defined.

(** ** Continuous contact with a damage brick *)

Lemma frame_contact (platforms : list Platform) (brick : DamageBrick)
    (s : Session) (i : FrameInput) (t : Z) :
  (forall n, ticks i n = t) ->
  colliderect (player_rect (after_constrain platforms i (player s)))
              (brick_rect brick) = true ->
  vitals (player (run_frame platforms [brick] s i))
  = contact (damage brick) t (vitals (player s)).
Proof.
  intros Ht O.
  destruct (after_constrain_vitals platforms i (player s)) as [V _].
  rewrite <- V, run_frame_player_eq. cbn zeta.
  set (p4 := after_constrain platforms i (player s)) in *.
  set (n4 := snd _).
  unfold contact, vitals at 2.
  destruct (hp p4 <=? 0); [reflexivity|].
  unfold handle_damage_bricks. cbn [damage_loop]. rewrite O.
  unfold handle_damage, reset_invincibility. run_clock. rewrite !Ht.
  destruct (is_invincible p4) eqn:I; cbn [negb fst snd].
  - rewrite I. cbn beta iota. rewrite Ht.
    destruct (t - last_damage_time p4 >? 1000);
      unfold vitals; cbn; rewrite ?I; reflexivity.
  - cbn. rewrite ?Ht.
    destruct (t - t >? 1000);
      destruct (Z.ltb_spec (hp p4 - damage brick) 0);
      [rewrite Z.max_l by lia|rewrite Z.max_r by lia
      |rewrite Z.max_l by lia|rewrite Z.max_r by lia]; reflexivity.
Qed.

Lemma run_contacts (platforms : list Platform) (brick : DamageBrick)
    (times : list Z) (inputs : list FrameInput) :
  frames_at times inputs ->
  forall s,
    overlaps_throughout platforms [brick] brick s inputs = true ->
    vitals (player (run platforms [brick] inputs s))
    = contacts (damage brick) times (vitals (player s)).
Proof.
  induction 1 as [|t i times inputs Ht F IH]; intros s O.
  - reflexivity.
  - cbn [overlaps_throughout] in O. apply andb_prop in O.
    destruct O as [O1 O2].
    unfold run, contacts. cbn [fold_left].
    rewrite <- (frame_contact platforms brick s i t Ht O1).
    apply IH. exact O2.
Qed.

Lemma frames_at_firstn (k : nat) (times : list Z) (inputs : list FrameInput) :
  frames_at times inputs -> frames_at (firstn k times) (firstn k inputs).
Proof.
  intro F. revert k. induction F as [|t i times inputs Ht F IH]; intro k.
  - rewrite !firstn_nil. constructor.
  - destruct k; [constructor|]. cbn [firstn]. constructor; [exact Ht|apply IH].
Qed.

Lemma overlaps_throughout_firstn (platforms : list Platform)
    (bricks : list DamageBrick) (brick : DamageBrick) (k : nat)
    (inputs : list FrameInput) (s : Session) :
  overlaps_throughout platforms bricks brick s inputs = true ->
  overlaps_throughout platforms bricks brick s (firstn k inputs) = true.
Proof.
  revert k s. induction inputs as [|i inputs IH]; intros k s O.
  - rewrite firstn_nil. reflexivity.
  - destruct k; [reflexivity|].
    cbn [firstn overlaps_throughout] in *.
    apply andb_prop in O. destruct O as [O1 O2].
    rewrite O1. apply IH. exact O2.
Qed.

Lemma contact_shift (d t0 t : Z) (v : Z * bool * Z) :
  contact d (t0 + t) (shift t0 v) = shift t0 (contact d t v).
Proof.
  destruct v as [[h inv] stamp]. unfold contact, shift.
  destruct (h <=? 0); [reflexivity|].
  destruct inv.
  - replace (t0 + t - (t0 + stamp)) with (t - stamp) by lia. reflexivity.
  - replace (t0 + t - (t0 + t)) with (t - t) by lia. reflexivity.
Qed.

Lemma contacts_shift (d t0 : Z) (times : list Z) (v : Z * bool * Z) :
  contacts d (map (Z.add t0) times) (shift t0 v)
  = shift t0 (contacts d times v).
Proof.
  revert v. induction times as [|t times IH]; intro v.
  - reflexivity.
  - unfold contacts in *. cbn [map fold_left].
    rewrite contact_shift. apply IH.
Qed.

(** A living player who is not invincible: the old damage stamp does not
    matter. *)
Lemma contacts_fresh (d : Z) (times : list Z) (h stamp stamp' : Z) :
  0 < h ->
  fst (fst (contacts d times (h, false, stamp)))
  = fst (fst (contacts d times (h, false, stamp'))).
Proof.
  intro H. destruct times as [|t times]; [reflexivity|].
  unfold contacts. cbn [fold_left].
  replace (contact d t (h, false, stamp)) with (contact d t (h, false, stamp')).
  - reflexivity.
  - unfold contact. destruct (Z.leb_spec h 0); [lia|reflexivity].
Qed.

Lemma shift_hp (t0 : Z) (v : Z * bool * Z) : fst (fst (shift t0 v)) = fst (fst v).
Proof. destruct v as [[h inv] stamp]. reflexivity. Qed.

Lemma scenario_contacts :
  forallb (fun k =>
             fst (fst (contacts 25 (firstn k (frame_offsets 180))
                         (100, false, 0)))
             =? scenario_hp k)
          (seq 0 181) = true.
Proof. vm_compute. reflexivity. Qed.

(** C5 (amended).  Starting from [hp = 100] and not invincible, with one
    damage brick of damage 25 whose rectangle intersects the player's in
    every frame, for 3 seconds of frames at 60 frames per second (180
    frames, the first at any clock value [t0]): [hp] decreases by 25 once
    per invincibility window, not once over the whole interval.  It is 75
    after the first frame and stays 75 through frame 62; the window is
    cleared once the clock is more than 1000 ms past the damage stamp, the
    next frame damages again, so [hp] is 50 from frame 63 and 25 from frame
    125; the final [hp] is 25. *)
Theorem continuous_contact_hp (platforms : list Platform) (brick : DamageBrick)
    (t0 : Z) (inputs : list FrameInput) (s : Session) :
  damage brick = 25 ->
  hp (player s) = 100 ->
  is_invincible (player s) = false ->
  frames_at (sixty_hz t0 180) inputs ->
  overlaps_throughout platforms [brick] brick s inputs = true ->
  (forall k, (k <= 180)%nat ->
     hp (player (run platforms [brick] (firstn k inputs) s)) = scenario_hp k) /\
  hp (player (run platforms [brick] inputs s)) = 25.
Proof.
  intros Dmg H I F O.
  assert (Steps : forall k, (k <= 180)%nat ->
            hp (player (run platforms [brick] (firstn k inputs) s))
            = scenario_hp k).
  { intros k K.
    pose proof (run_contacts platforms brick _ _ (frames_at_firstn k _ _ F) s
                  (overlaps_throughout_firstn _ _ _ k _ _ O)) as R.
    change (hp (player (run platforms [brick] (firstn k inputs) s)))
      with (fst (fst (vitals
                        (player (run platforms [brick] (firstn k inputs) s))))).
    rewrite R, Dmg. unfold vitals. rewrite H, I.
    unfold sixty_hz. rewrite firstn_map.
    rewrite (contacts_fresh 25 _ 100 _ (t0 + 0)) by lia.
    change (100, false, t0 + 0) with (shift t0 (100, false, 0)).
    rewrite contacts_shift, shift_hp.
    pose proof scenario_contacts as Chk.
    rewrite forallb_forall in Chk.
    apply Z.eqb_eq. apply Chk. apply in_seq. lia. }
  split; [exact Steps|].
  assert (L : length inputs = 180%nat).
  { apply Forall2_length in F. rewrite <- F. unfold sixty_hz, frame_offsets.
    rewrite !length_map, length_seq. reflexivity. }
  rewrite <- (firstn_all inputs), L. apply (Steps 180%nat). lia.
Qed.

Lemma frames_at_frame_at (k : Keys) (times : list Z) :
  frames_at times (map (frame_at k) times).
Proof.
  induction times as [|t times IH]; constructor; [reflexivity|exact IH].
Qed.

Lemma continuous_contact_hp_witness :
  hp (player (run ledge [brick_on_ledge] (firstn 60 three_seconds)
                initial_session)) = 75 /\
  hp (player (run ledge [brick_on_ledge] three_seconds initial_session)) = 25.
Proof.
  destruct (continuous_contact_hp ledge brick_on_ledge 600 three_seconds
              initial_session) as [H1 H2].
  - reflexivity.
  - reflexivity.
  - reflexivity.
  - apply frames_at_frame_at.
  - vm_compute. reflexivity.
  - split; [apply (H1 60%nat); lia|exact H2].
Defined.

(** C5, counterexample.  In that scenario the brick intersects the player
    in every one of the 180 frames, and the final [hp] is 25, not 75: after
    the hit of the first frame the player is hit again 1033 ms and 2066 ms
    later. *)
Lemma continuous_contact_three_hits :
  overlaps_throughout ledge [brick_on_ledge] brick_on_ledge initial_session
    three_seconds = true /\
  hp (player initial_session) = 100 /\
  hp (player (run ledge [brick_on_ledge] three_seconds initial_session)) = 25 /\
  hp (player (run ledge [brick_on_ledge] three_seconds initial_session)) <> 75.
Proof.
  split; [vm_compute; reflexivity|]. split; [reflexivity|].
  assert (E : hp (player (run ledge [brick_on_ledge] three_seconds
                            initial_session)) = 25)
    by (vm_compute; reflexivity).
  split; [exact E|]. rewrite E. discriminate.
Qed.

(** * Further properties *)

(** ** Camera *)

Lemma to_int_bounds (q : Q) (lo hi : Z) :
  0 <= lo -> (inject_Z lo <= q <= inject_Z hi)%Q -> lo <= to_int q <= hi.
Proof.
  destruct q as [a b]. unfold to_int, Qle, inject_Z. cbn [Qnum Qden].
  intros L [H1 H2]. rewrite Z.mul_1_r in *.
  assert (A : 0 <= a) by nia.
  rewrite Z.quot_div_nonneg by lia. split.
  - apply Z.div_le_lower_bound; lia.
  - apply Z.div_le_upper_bound; lia.
Qed.

Lemma update_in_world (self : Camera.t) (target : Rect) :
  WINDOW_WIDTH <= Camera.world_width self ->
  WINDOW_HEIGHT <= Camera.world_height self ->
  let c := Camera.update self target in
  inside (Camera.camera c)
         (mkRect 0 0 (Camera.world_width self) (Camera.world_height self)) /\
  rw (Camera.camera c) = WINDOW_WIDTH /\
  rh (Camera.camera c) = WINDOW_HEIGHT /\
  Camera.world_width c = Camera.world_width self /\
  Camera.world_height c = Camera.world_height self.
Proof.
  intros W H. unfold Camera.update, inside, left, right, top, bottom.
  cbn [Camera.camera Camera.world_width Camera.world_height rx ry rw rh].
  repeat split; lia.
Qed.


(** X1. Whatever the target, [Camera.update] leaves a viewport of the
    window's size that lies inside the world, provided the world is at
    least as large as the window; the world size is kept. *)
Theorem camera_update_in_world (self : Camera.t) (target : Rect) :
  WINDOW_WIDTH <= Camera.world_width self ->
  WINDOW_HEIGHT <= Camera.world_height self ->
  let c := Camera.update self target in
  inside (Camera.camera c)
         (mkRect 0 0 (Camera.world_width self) (Camera.world_height self)) /\
  rw (Camera.camera c) = WINDOW_WIDTH /\
  rh (Camera.camera c) = WINDOW_HEIGHT /\
  Camera.world_width c = Camera.world_width self /\
  Camera.world_height c = Camera.world_height self.
Proof. exact (update_in_world self target). Qed.

Lemma camera_update_in_world_witness :
  inside (Camera.camera
            (Camera.update (Camera.init WORLD_WIDTH WORLD_HEIGHT)
                           (mkRect 4000 10 15 15)))
         world.
Proof.
  destruct (camera_update_in_world (Camera.init WORLD_WIDTH WORLD_HEIGHT)
              (mkRect 4000 10 15 15)) as [H _].
  - vm_compute. discriminate.
  - vm_compute. discriminate.
  - exact H.
Defined.

(** X2. On each axis, when the target's centre is at least half a window
    away from both ends of the world, [Camera.update] puts the centre of the
    viewport on the centre of the target. *)
Theorem camera_update_centres (self : Camera.t) (target : Rect) :
  let c := Camera.camera (Camera.update self target) in
  (WINDOW_WIDTH / 2 <= centerx target
     <= Camera.world_width self - WINDOW_WIDTH / 2 ->
   centerx c = centerx target) /\
  (WINDOW_HEIGHT / 2 <= centery target
     <= Camera.world_height self - WINDOW_HEIGHT / 2 ->
   centery c = centery target).
Proof.
  unfold Camera.update, centerx, centery, WINDOW_WIDTH, WINDOW_HEIGHT.
  cbn [Camera.camera rx ry rw rh].
  change (800 / 2) with 400. change (600 / 2) with 300.
  split; intro; lia.
Qed.

Lemma camera_update_centres_witness :
  centerx (Camera.camera
             (Camera.update (Camera.init WORLD_WIDTH WORLD_HEIGHT)
                            (mkRect 1000 1000 15 15)))
  = centerx (mkRect 1000 1000 15 15).
Proof.
  destruct (camera_update_centres (Camera.init WORLD_WIDTH WORLD_HEIGHT)
              (mkRect 1000 1000 15 15)) as [H _].
  apply H. vm_compute. split; discriminate.
Defined.

Lemma update_shows_player (self : Camera.t) (p : Player) :
  Camera.world_width self = WORLD_WIDTH ->
  Camera.world_height self = WORLD_HEIGHT ->
  in_world p ->
  inside (Camera.apply (Camera.update self (player_rect p)) (player_rect p))
         window.
Proof.
  intros W H [[X0 X1] [Y0 Y1]].
  assert (BX : 0 <= to_int (pos_x p) <= WORLD_WIDTH - PLAYER_STATS.size)
    by (apply to_int_bounds; [lia|split; assumption]).
  assert (BY : SKYBOX_HEIGHT <= to_int (pos_y p)
               <= WORLD_HEIGHT - PLAYER_STATS.size)
    by (apply to_int_bounds; [unfold SKYBOX_HEIGHT; lia|split; assumption]).
  unfold Camera.apply, Camera.update, inside, window, move, topleft,
    player_rect, centerx, centery, left, right, top, bottom.
  cbn [Camera.camera Camera.world_width Camera.world_height rx ry rw rh fst snd].
  rewrite W, H.
  change (PLAYER_STATS.size / 2) with 7.
  change (WINDOW_WIDTH / 2) with 400. change (WINDOW_HEIGHT / 2) with 300.
  unfold WORLD_WIDTH, WORLD_HEIGHT, WINDOW_WIDTH, WINDOW_HEIGHT,
    SKYBOX_HEIGHT, PLAYER_STATS.size in *.
  repeat split; lia.
Qed.


(** X3. A player inside the world bounds is always on screen: once the
    camera of the game's world has been updated on the player's rectangle,
    that rectangle, offset by the camera, lies inside the window. *)
Theorem player_on_screen (self : Camera.t) (p : Player) :
  Camera.world_width self = WORLD_WIDTH ->
  Camera.world_height self = WORLD_HEIGHT ->
  in_world p ->
  inside (Camera.apply (Camera.update self (player_rect p)) (player_rect p))
         window.
Proof. exact (update_shows_player self p). Qed.

Lemma player_on_screen_witness :
  inside (Camera.apply
            (Camera.update (Camera.init WORLD_WIDTH WORLD_HEIGHT)
                           (player_rect initial_player))
            (player_rect initial_player))
         window.
Proof.
  apply (player_on_screen (Camera.init WORLD_WIDTH WORLD_HEIGHT) initial_player).
  - reflexivity.
  - reflexivity.
  - unfold in_world. vm_compute. repeat split; discriminate.
Defined.

(** ** World bounds *)

Lemma constrain_player_to_world_in_world (p : Player) :
  in_world (constrain_player_to_world p).
Proof.
  unfold in_world, constrain_player_to_world.
  set (x_max := inject_Z (WORLD_WIDTH - PLAYER_STATS.size)).
  set (y_min := inject_Z SKYBOX_HEIGHT).
  set (y_max := inject_Z (WORLD_HEIGHT - PLAYER_STATS.size)).
  assert (X : (0 <= x_max)%Q) by (vm_compute; discriminate).
  assert (Y : (y_min <= y_max)%Q) by (vm_compute; discriminate).
  clearbody x_max y_min y_max.
  destruct (Qlt_bool (pos_x p) 0) eqn:X0;
    [|destruct (Qlt_bool x_max (pos_x p)) eqn:X1];
    cbn [pos_y set_x_velocity set_pos_x];
    (destruct (Qlt_bool (pos_y p) y_min) eqn:Y0;
      [|destruct (Qlt_bool y_max (pos_y p)) eqn:Y1]);
    cbn;
    repeat match goal with
           | H : Qlt_bool _ _ = true |- _ => apply Qlt_bool_iff in H
           | H : Qlt_bool _ _ = false |- _ => apply Qlt_bool_false in H
           end;
    repeat split; lra.
Qed.

Lemma run_frame_position (platforms : list Platform)
    (bricks : list DamageBrick) (s : Session) (i : FrameInput) :
  pos_x (player (run_frame platforms bricks s i))
  = pos_x (after_constrain platforms i (player s)) /\
  pos_y (player (run_frame platforms bricks s i))
  = pos_y (after_constrain platforms i (player s)).
Proof.
  destruct (run_frame_player platforms bricks s i) as [M _].
  unfold motion in M. split; congruence.
Qed.

Lemma run_frame_in_world (platforms : list Platform)
    (bricks : list DamageBrick) (s : Session) (i : FrameInput) :
  in_world (player (run_frame platforms bricks s i)).
Proof.
  destruct (run_frame_position platforms bricks s i) as [X Y].
  unfold in_world. rewrite X, Y.
  apply constrain_player_to_world_in_world.
Qed.

(** X4. The player never leaves the world: after every frame, whatever the
    state before it, the level, the bricks and the input, [pos_x] is in
    [[0, WORLD_WIDTH - 15]] and [pos_y] in
    [[SKYBOX_HEIGHT, WORLD_HEIGHT - 15]]; so it is after every sequence of
    frames of a session, whose start position satisfies this too. *)
Theorem player_stays_in_world (platforms : list Platform)
    (bricks : list DamageBrick) :
  (forall s i, in_world (player (run_frame platforms bricks s i))) /\
  (forall inputs,
     in_world (player (run platforms bricks inputs initial_session))).
Proof.
  split; [apply run_frame_in_world|]. intro inputs.
  apply (run_invariant platforms bricks (fun s => in_world (player s))).
  - intros s i _. apply run_frame_in_world.
  - unfold in_world. vm_compute. repeat split; discriminate.
Qed.

(** ** Vertical velocity *)

Lemma move_player_y_velocity (p : Player) (k : Keys) (tk : nat -> Z) (n : nat) :
  let p' := fst (move_player p k tk n) in
  y_velocity p' = y_velocity p \/ y_velocity p' = PLAYER_STATS.jump_force.
Proof.
  unfold move_player. run_clock. repeat break_if; simpl; auto.
Qed.

Lemma collide_platforms_y_velocity (r : Rect) (pb : Q)
    (platforms : list Platform) (q : Player) :
  let q' := collide_platforms r pb q platforms in
  (y_velocity q' = y_velocity q \/ y_velocity q' = 0%Q) /\
  (is_grounded q = false -> is_grounded q' = true -> y_velocity q' = 0%Q).
Proof.
  revert q. induction platforms as [|platform platforms IH]; intro q.
  - simpl. split; [auto|congruence].
  - cbn [collide_platforms]. break_if.
    + simpl. auto.
    + match goal with
      | |- context [collide_platforms r pb ?q2 platforms] =>
          specialize (IH q2); cbn zeta in IH |- *;
          destruct IH as [V G];
          assert (E : (y_velocity q2 = y_velocity q \/ y_velocity q2 = 0%Q) /\
                      is_grounded q2 = is_grounded q)
            by (repeat break_if; simpl; auto);
          destruct E as [V2 G2]
      end.
      split.
      * destruct V as [V|V]; [rewrite V; exact V2|right; exact V].
      * intros F T. apply G; congruence.
Qed.

Lemma handle_collisions_y_velocity (p : Player) (platforms : list Platform) :
  let p' := handle_collisions p platforms in
  (y_velocity p' = y_velocity p \/ y_velocity p' = 0%Q) /\
  (is_grounded p' = true -> y_velocity p' = 0%Q).
Proof.
  destruct (collide_platforms_y_velocity
              (player_rect (set_is_grounded false p))
              (float_sub (inject_Z (bottom (player_rect (set_is_grounded false p))))
                 (y_velocity (set_is_grounded false p)))
              platforms (set_is_grounded false p)) as [V G].
  split; [exact V|]. intro T. apply G; [reflexivity|exact T].
Qed.

Lemma constrain_player_to_world_y_velocity (p : Player) :
  let p' := constrain_player_to_world p in
  (y_velocity p' = y_velocity p \/ y_velocity p' = 0%Q) /\
  (is_grounded p' = true -> is_grounded p = true \/ y_velocity p' = 0%Q).
Proof.
  unfold constrain_player_to_world. repeat break_if; simpl; auto.
Qed.

Lemma fall_speed_ok_step (p q : Player) :
  fall_speed_ok p ->
  y_velocity q = y_velocity p \/ y_velocity q = 0%Q \/
  y_velocity q = PLAYER_STATS.jump_force ->
  fall_speed_ok q.
Proof.
  unfold fall_speed_ok. intros [L U] [E|[E|E]]; rewrite E.
  - split; assumption.
  - split; vm_compute; discriminate.
  - split; vm_compute; discriminate.
Qed.

Lemma apply_physics_fall_speed (p : Player) :
  fall_speed_ok p -> fall_speed_ok (apply_physics p).
Proof.
  unfold fall_speed_ok, apply_physics. intros [L U].
  destruct (is_dashing p); cbn [negb].
  - destruct (dash_timer _ <=? 0); simpl; split; assumption.
  - destruct (is_grounded p); cbn [negb]; simpl; [split; assumption|].
    split; [|apply py_min_le].
    unfold py_min. destruct (Qlt_bool MAX_FALL_SPEED _).
    + vm_compute. discriminate.
    + apply (Qle_trans _ (binary64 (-5 # 1)));
        [vm_compute; discriminate|].
      apply binary64_mono. pose proof GRAVITY_pos.
      unfold PLAYER_STATS.jump_force in L. lra.
Qed.

Lemma after_stages_fall_speed (platforms : list Platform) (i : FrameInput)
    (p : Player) :
  fall_speed_ok p ->
  fall_speed_ok (after_move i p) /\ fall_speed_ok (after_physics i p) /\
  fall_speed_ok (after_collisions platforms i p) /\
  fall_speed_ok (after_constrain platforms i p).
Proof.
  intro H.
  assert (H1 : fall_speed_ok (after_move i p)).
  { apply (fall_speed_ok_step p); [exact H|].
    destruct (move_player_y_velocity p (keys i) (ticks i) 0%nat); auto. }
  assert (H2 : fall_speed_ok (after_physics i p))
    by (apply apply_physics_fall_speed; exact H1).
  assert (H3 : fall_speed_ok (after_collisions platforms i p)).
  { apply (fall_speed_ok_step (after_physics i p)); [exact H2|].
    destruct (handle_collisions_y_velocity (after_physics i p) platforms)
      as [[E|E] _]; auto. }
  split; [exact H1|]. split; [exact H2|]. split; [exact H3|].
  apply (fall_speed_ok_step (after_collisions platforms i p)); [exact H3|].
  destruct (constrain_player_to_world_y_velocity
              (after_collisions platforms i p)) as [[E|E] _]; auto.
Qed.

Lemma run_fall_speed (platforms : list Platform) (bricks : list DamageBrick)
    (inputs : list FrameInput) :
  fall_speed_ok (player (run platforms bricks inputs initial_session)).
Proof.
  apply (run_invariant platforms bricks (fun s => fall_speed_ok (player s))).
  - intros s i H.
    destruct (after_stages_fall_speed platforms i _ H) as [_ [_ [_ H4]]].
    destruct (run_frame_player platforms bricks s i) as [M _].
    unfold motion in M. unfold fall_speed_ok in *.
    replace (y_velocity (player (run_frame platforms bricks s i)))
      with (y_velocity (after_constrain platforms i (player s)))
      by congruence.
    exact H4.
  - unfold fall_speed_ok. vm_compute. split; discriminate.
Qed.

(** X5. In every state that occurs in a session, [y_velocity] lies between
    the jump force (-5) and [MAX_FALL_SPEED] (10): the player never rises
    faster than a jump nor falls faster than the cap, whatever the level
    and the inputs. *)
Theorem fall_speed_bounded (platforms : list Platform)
    (bricks : list DamageBrick) (p : Player) :
  reachable platforms bricks p ->
  (-5 # 1 <= y_velocity p <= 10 # 1)%Q.
Proof.
  intro R. change (fall_speed_ok p).
  destruct R as [inputs|inputs i|inputs i|inputs i|inputs i];
    pose proof (run_fall_speed platforms bricks inputs) as H;
    [exact H|..];
    destruct (after_stages_fall_speed platforms i _ H) as [H1 [H2 [H3 H4]]];
    assumption.
Qed.

Lemma fall_speed_bounded_witness :
  (-5 # 1 <= y_velocity (player (run [] damage_bricks walk_then_dash_left
                                   initial_session)) <= 10 # 1)%Q.
Proof.
  apply (fall_speed_bounded [] damage_bricks). apply reach_frames.
Defined.

(** X6. After every frame, whatever the state before it, a grounded player
    is at rest vertically: [is_grounded] is set only by a landing or by the
    floor bound, and both zero [y_velocity].  A player that moves up or down
    is therefore airborne and cannot jump in the next frame. *)
Theorem grounded_player_at_rest (platforms : list Platform)
    (bricks : list DamageBrick) (s : Session) (i : FrameInput) :
  let p' := player (run_frame platforms bricks s i) in
  is_grounded p' = true -> y_velocity p' = 0%Q.
Proof.
  cbn zeta.
  destruct (run_frame_player platforms bricks s i) as [M _].
  unfold motion in M.
  replace (y_velocity (player (run_frame platforms bricks s i)))
    with (y_velocity (after_constrain platforms i (player s))) by congruence.
  replace (is_grounded (player (run_frame platforms bricks s i)))
    with (is_grounded (after_constrain platforms i (player s))) by congruence.
  unfold after_constrain. intro G.
  destruct (constrain_player_to_world_y_velocity
              (after_collisions platforms i (player s))) as [V C].
  destruct (C G) as [G'|Z]; [|exact Z].
  destruct (handle_collisions_y_velocity (after_physics i (player s)) platforms)
    as [_ L].
  fold (after_collisions platforms i (player s)) in L.
  destruct V as [V|V]; [rewrite V; apply L; exact G'|exact V].
Qed.

Lemma grounded_player_at_rest_witness :
  y_velocity (player (run_frame ledge [brick_on_ledge] initial_session
                        (frame_at no_keys 600))) = 0%Q.
Proof.
  apply (grounded_player_at_rest ledge [brick_on_ledge] initial_session
           (frame_at no_keys 600)).
  vm_compute. reflexivity.
Defined.

(** ** Dash timer *)

Lemma move_player_dash_timer (p : Player) (k : Keys) (tk : nat -> Z) (n : nat) :
  let p' := fst (move_player p k tk n) in
  is_dashing p' = is_dashing p /\ dash_timer p' = dash_timer p \/
  is_dashing p = false /\ is_dashing p' = true /\ dash_timer p' = 15.
Proof.
  unfold move_player. run_clock.
  destruct (is_dashing p) eqn:D; [simpl; auto|].
  repeat break_if; simpl; auto.
Qed.

Lemma apply_physics_dash_timer (p : Player) :
  dash_timer_ok p -> dash_timer_ok (apply_physics p).
Proof.
  unfold dash_timer_ok, apply_physics.
  intros [[D T]|[D T]]; rewrite D; cbn.
  - destruct (Z.leb_spec (dash_timer p - 1) 0) as [E|E]; cbn;
      [right|left]; split; try assumption; try reflexivity; lia.
  - destruct (is_grounded p); cbn; right; auto.
Qed.

Lemma dash_timer_ok_kept (p q : Player) :
  dash_state q = dash_state p -> dash_timer_ok p -> dash_timer_ok q.
Proof.
  unfold dash_state, dash_timer_ok. intros E H.
  replace (is_dashing q) with (is_dashing p) by congruence.
  replace (dash_timer q) with (dash_timer p) by congruence.
  exact H.
Qed.

Lemma after_stages_dash_timer (platforms : list Platform) (i : FrameInput)
    (p : Player) :
  dash_timer_ok p ->
  dash_timer_ok (after_move i p) /\ dash_timer_ok (after_physics i p) /\
  dash_timer_ok (after_collisions platforms i p) /\
  dash_timer_ok (after_constrain platforms i p).
Proof.
  intro H.
  assert (H1 : dash_timer_ok (after_move i p)).
  { unfold after_move.
    destruct (move_player_dash_timer p (keys i) (ticks i) 0%nat)
      as [[D T]|[D [D' T]]]; unfold dash_timer_ok in *.
    - rewrite D, T. exact H.
    - left. split; [exact D'|lia]. }
  assert (H2 : dash_timer_ok (after_physics i p))
    by (apply apply_physics_dash_timer; exact H1).
  assert (H3 : dash_timer_ok (after_collisions platforms i p)).
  { apply (dash_timer_ok_kept (after_physics i p)); [|exact H2].
    apply handle_collisions_keeps. }
  split; [exact H1|]. split; [exact H2|]. split; [exact H3|].
  apply (dash_timer_ok_kept (after_collisions platforms i p)); [|exact H3].
  apply constrain_player_to_world_keeps.
Qed.

Lemma run_dash_timer (platforms : list Platform) (bricks : list DamageBrick)
    (inputs : list FrameInput) :
  dash_timer_ok (player (run platforms bricks inputs initial_session)).
Proof.
  apply (run_invariant platforms bricks (fun s => dash_timer_ok (player s))).
  - intros s i H.
    destruct (after_stages_dash_timer platforms i _ H) as [_ [_ [_ H4]]].
    apply (dash_timer_ok_kept (after_constrain platforms i (player s)));
      [|exact H4].
    destruct (run_frame_player platforms bricks s i) as [M _].
    unfold motion in M. congruence.
  - right. split; reflexivity.
Qed.

(** X7. In every state that occurs in a session the player is dashing
    exactly when [dash_timer] is positive, and [dash_timer] stays within
    [[0, 15]]. *)
Theorem dashing_iff_timer_positive (platforms : list Platform)
    (bricks : list DamageBrick) (p : Player) :
  reachable platforms bricks p ->
  (is_dashing p = true <-> 0 < dash_timer p) /\ 0 <= dash_timer p <= 15.
Proof.
  intro R.
  assert (H : dash_timer_ok p).
  { destruct R as [inputs|inputs i|inputs i|inputs i|inputs i];
      pose proof (run_dash_timer platforms bricks inputs) as H;
      [exact H|..];
      destruct (after_stages_dash_timer platforms i _ H)
        as [H1 [H2 [H3 H4]]]; assumption. }
  destruct H as [[D T]|[D T]]; rewrite D; split; try lia;
    split; intro; try lia; try reflexivity; discriminate.
Qed.

Lemma dashing_iff_timer_positive_witness :
  0 <= dash_timer (after_move (frame_at dash_right 600) initial_player) <= 15.
Proof.
  apply (dashing_iff_timer_positive [] damage_bricks).
  apply (reach_move [] damage_bricks []).
Defined.

(** ** Dash duration *)

(** One frame of a dash: the timer is counted down, the dash ends when it
    runs out, and the keys are not looked at. *)
Lemma run_frame_dashing (platforms : list Platform) (bricks : list DamageBrick)
    (s : Session) (i : FrameInput) :
  is_dashing (player s) = true ->
  let p' := player (run_frame platforms bricks s i) in
  dash_timer p' = dash_timer (player s) - 1 /\
  (0 < dash_timer (player s) - 1 -> is_dashing p' = true) /\
  (dash_timer (player s) - 1 <= 0 ->
     is_dashing p' = false /\ x_velocity p' = 0%Q) /\
  (forall k, run_frame platforms bricks s (mkInput k (ticks i))
             = run_frame platforms bricks s i).
Proof.
  intro D. cbn zeta.
  pose proof (run_frame_dash_state platforms bricks s i) as E.
  destruct (run_frame_player platforms bricks s i) as [M _].
  unfold motion in M.
  assert (X : x_velocity (player (run_frame platforms bricks s i))
              = x_velocity (after_constrain platforms i (player s)))
    by congruence.
  assert (P : after_physics i (player s)
              = apply_physics
                  (set_pos_x (float_add (pos_x (player s)) (x_velocity (player s)))
                             (player s))).
  { unfold after_physics, after_move, move_player. rewrite D. reflexivity. }
  unfold dash_state in E.
  assert (E1 : is_dashing (player (run_frame platforms bricks s i))
               = is_dashing (after_physics i (player s))) by congruence.
  assert (E2 : dash_timer (player (run_frame platforms bricks s i))
               = dash_timer (after_physics i (player s))) by congruence.
  rewrite E1, E2, X. clear E E1 E2 X M.
  split; [|split; [|split]].
  - rewrite P. unfold apply_physics. cbn. rewrite D. cbn.
    destruct (dash_timer (player s) - 1 <=? 0); reflexivity.
  - intro T. rewrite P. unfold apply_physics. cbn. rewrite D. cbn.
    destruct (Z.leb_spec (dash_timer (player s) - 1) 0); [lia|exact D].
  - intro T.
    assert (A : is_dashing (after_physics i (player s)) = false /\
                x_velocity (after_physics i (player s)) = 0%Q).
    { rewrite P. unfold apply_physics. cbn. rewrite D. cbn.
      destruct (Z.leb_spec (dash_timer (player s) - 1) 0); [|lia].
      split; reflexivity. }
    destruct A as [A1 A2]. split; [exact A1|].
    unfold after_constrain, after_collisions.
    destruct (handle_collisions_keeps (after_physics i (player s)) platforms)
      as [_ [_ [_ [V|V]]]];
      destruct (constrain_player_to_world_keeps
                  (handle_collisions (after_physics i (player s)) platforms))
        as [_ [_ [_ [W|W]]]]; congruence.
  - intro k. unfold run_frame, frame, move_and_collide, move_player.
    cbn [keys ticks]. rewrite D. reflexivity.
Qed.

(** X8. A dash lasts exactly as many frames as [dash_timer] says and cannot
    be steered, shortened or prolonged by input: from any state in which
    the player is dashing with [dash_timer = t >= 1], the player is still
    dashing after fewer than [t] frames, with the timer counted down by
    one per frame; after exactly [t] frames the dash is over with
    [x_velocity = 0]; and over those frames the keys make no difference to
    the session. *)
Theorem dash_lasts_timer_frames (platforms : list Platform)
    (bricks : list DamageBrick) (inputs : list FrameInput) (s : Session) :
  is_dashing (player s) = true ->
  1 <= dash_timer (player s) ->
  let t := dash_timer (player s) in
  let frames := Z.of_nat (length inputs) in
  let p' := player (run platforms bricks inputs s) in
  (frames < t -> is_dashing p' = true /\ dash_timer p' = t - frames) /\
  (frames = t ->
     is_dashing p' = false /\ dash_timer p' = 0 /\ x_velocity p' = 0%Q) /\
  (frames <= t ->
     forall inputs',
       Forall2 (fun i i' => ticks i' = ticks i) inputs inputs' ->
       run platforms bricks inputs' s = run platforms bricks inputs s).
Proof.
  revert s. induction inputs as [|i inputs IH]; intros s D T; cbn zeta.
  - cbn [length Z.of_nat run fold_left]. split; [|split].
    + intros _. split; [exact D|lia].
    + lia.
    + intros _ inputs' F. inversion F. reflexivity.
  - change (run platforms bricks (i :: inputs) s)
      with (run platforms bricks inputs (run_frame platforms bricks s i)).
    rewrite length_cons, Nat2Z.inj_succ.
    destruct (run_frame_dashing platforms bricks s i D) as [Tm [On [Off Key]]].
    destruct (Z.leb_spec (dash_timer (player s) - 1) 0) as [Last|More].
    + assert (T1 : dash_timer (player s) = 1) by lia.
      destruct (Off Last) as [D' X'].
      destruct inputs as [|i2 inputs].
      * cbn [length Z.of_nat run fold_left]. split; [lia|]. split.
        -- intros _. repeat split; [exact D'|lia|exact X'].
        -- intros _ inputs' F.
           inversion F as [|a b la lb Hab Hl]; subst. inversion Hl; subst.
           cbn [run fold_left]. destruct b as [k tk]. cbn [ticks] in Hab.
           subst tk. apply Key.
      * rewrite length_cons, Nat2Z.inj_succ. repeat split; intros; lia.
    + specialize (IH (run_frame platforms bricks s i) (On More)).
      rewrite Tm in IH. specialize (IH ltac:(lia)). cbn zeta in IH.
      destruct IH as [IH1 [IH2 IH3]]. split; [|split].
      * intro L. destruct IH1 as [A B]; [lia|]. split; [exact A|lia].
      * intro L. apply IH2. lia.
      * intros L inputs' F.
        inversion F as [|a b la lb Hab Hl]; subst.
        change (run platforms bricks (b :: lb) s)
          with (run platforms bricks lb (run_frame platforms bricks s b)).
        destruct b as [k tk]. cbn [ticks] in Hab. subst tk. rewrite Key.
        apply IH3; [lia|exact Hl].
Qed.

Lemma dash_lasts_timer_frames_witness :
  let s := run [] damage_bricks [frame_at dash_right 600] initial_session in
  let inputs := map (frame_at hold_left) (sixty_hz 616 14) in
  dash_timer (player s) = 14 /\
  is_dashing (player (run [] damage_bricks inputs s)) = false /\
  x_velocity (player (run [] damage_bricks inputs s)) = 0%Q.
Proof.
  cbn zeta. split; [vm_compute; reflexivity|].
  destruct (dash_lasts_timer_frames [] damage_bricks
              (map (frame_at hold_left) (sixty_hz 616 14))
              (run [] damage_bricks [frame_at dash_right 600] initial_session))
    as [_ [H _]].
  - vm_compute. reflexivity.
  - vm_compute. discriminate.
  - destruct H as [H1 [_ H3]]; [vm_compute; reflexivity|].
    split; assumption.
Defined.

(** ** Normal movement *)

(** Half-integers of moderate size are binary64 numbers. *)
Lemma binary64_half (j : Z) (q : Q) :
  Z.abs j < 2 ^ 53 -> (q == inject_Z j / 2)%Q -> (binary64 q == q)%Q.
Proof.
  intros J E.
  assert (E' : (q == inject_Z j * 2 ^ (-1))%Q) by exact E.
  rewrite (binary64_comp _ _ E'), E'.
  apply binary64_exact; [exact J|lia].
Qed.

(** X9. When the player is not dashing, [move_player] moves and turns the
    player by the direction keys alone, whether or not the call also starts
    a dash: [speed] is subtracted from [pos_x] if a left key is held and
    then added if a right key is held, both as floats; the player faces
    right if a right key is held and otherwise left if a left key is held;
    [y_velocity] becomes the jump force exactly when the jump key is held
    and the player is grounded; [pos_y] and [is_grounded] are untouched.
    On a half-integer position (below [2 ^ 50] in size here), such as the
    start position, with the speed 3.5 of the game, nothing is rounded:
    [pos_x] goes down by 3.5, up by 3.5, or stays when both keys are held. *)
Theorem move_player_displacement (p : Player) (k : Keys) (tk : nat -> Z)
    (n : nat) :
  is_dashing p = false ->
  let p' := fst (move_player p k tk n) in
  let x1 := if left_held k then float_sub (pos_x p) (speed p) else pos_x p in
  pos_x p' = (if right_held k then float_add x1 (speed p) else x1) /\
  (forall j : Z,
     Z.abs j <= 2 ^ 50 -> (pos_x p == inject_Z j / 2)%Q ->
     speed p = (7 # 2)%Q ->
     (pos_x p' == pos_x p - (if left_held k then 7 # 2 else 0)
                          + (if right_held k then 7 # 2 else 0))%Q) /\
  facing_right p'
  = (if right_held k then true
     else if left_held k then false else facing_right p) /\
  y_velocity p'
  = (if K_SPACE k && is_grounded p then PLAYER_STATS.jump_force
     else y_velocity p) /\
  pos_y p' = pos_y p /\ is_grounded p' = is_grounded p.
Proof.
  intro D. cbn zeta.
  assert (X : pos_x (fst (move_player p k tk n))
              = (if right_held k
                 then float_add
                        (if left_held k then float_sub (pos_x p) (speed p)
                         else pos_x p) (speed p)
                 else if left_held k then float_sub (pos_x p) (speed p)
                      else pos_x p)).
  { unfold move_player, left_held, right_held. rewrite D. run_clock.
    destruct (K_LEFT k || K_a k); destruct (K_RIGHT k || K_d k);
      repeat break_if; reflexivity. }
  split; [exact X|]. split.
  - intros j J E S. rewrite X, S. unfold float_add, float_sub.
    assert (P : (2 ^ 50 + 7 < 2 ^ 53)%Z) by reflexivity.
    destruct (left_held k); destruct (right_held k).
    + assert (E1 : (binary64 (pos_x p - (7 # 2)) == pos_x p - (7 # 2))%Q).
      { apply (binary64_half (j + -7)); [lia|].
        rewrite E, inject_Z_plus. change (inject_Z (-7)) with (-7 # 1)%Q.
        field. }
      assert (E2 : (binary64 (pos_x p - (7 # 2)) + (7 # 2) == pos_x p)%Q)
        by (rewrite E1; ring).
      rewrite (binary64_comp _ _ E2), (binary64_half j _ ltac:(lia) E). ring.
    + rewrite (binary64_half (j + -7)); [ring|lia|].
      rewrite E, inject_Z_plus. change (inject_Z (-7)) with (-7 # 1)%Q. field.
    + rewrite (binary64_half (j + 7)); [ring|lia|].
      rewrite E, inject_Z_plus. change (inject_Z 7) with 7%Q. field.
    + ring.
  - unfold move_player, left_held, right_held. rewrite D. run_clock.
    destruct (K_LEFT k || K_a k); destruct (K_RIGHT k || K_d k);
      destruct (K_SPACE k); destruct (is_grounded p) eqn:G;
      repeat break_if; cbn in *; try congruence; rewrite ?G;
      repeat split; reflexivity.
Qed.

(** Both direction keys held while a dash starts, at x = 200. *)
Lemma move_player_displacement_witness :
  (pos_x (fst (move_player initial_player
                 (mkKeys true true false true false false)
                 (fun _ => 600%Z) 0%nat))
   == pos_x initial_player - (7 # 2) + (7 # 2))%Q.
Proof.
  destruct (move_player_displacement initial_player
              (mkKeys true true false true false false) (fun _ => 600) 0%nat)
    as [_ [H _]]; [reflexivity|].
  apply (H 400); [vm_compute; discriminate|reflexivity|reflexivity].
Defined.

(** ** More of the collision resolver *)

Lemma collide_platforms_resting (r : Rect) (pb : Q)
    (platforms : list Platform) (q : Player) :
  Qlt_bool 0 (y_velocity q) = false -> Qlt_bool (y_velocity q) 0 = false ->
  let q' := collide_platforms r pb q platforms in
  pos_y q' = pos_y q /\ y_velocity q' = y_velocity q /\
  is_grounded q' = is_grounded q.
Proof.
  revert q. induction platforms as [|platform platforms IH]; intros q U D.
  - simpl. auto.
  - assert (B : bottom_collision r platform q = false)
      by (apply bottom_collision_needs_rising, Qlt_bool_false; exact D).
    cbn [collide_platforms]. unfold top_collision.
    rewrite U, andb_false_r, B. cbv iota. rewrite B.
    set (q2 := if left_side_collision r platform then _ else _).
    assert (E : pos_y q2 = pos_y q /\ y_velocity q2 = y_velocity q /\
                is_grounded q2 = is_grounded q)
      by (subst q2; repeat break_if; simpl; auto).
    destruct E as [E1 [E2 E3]].
    specialize (IH q2). rewrite E2 in IH. specialize (IH U D).
    cbn zeta in IH |- *. destruct IH as [I1 [I2 I3]].
    repeat split; congruence.
Qed.

Lemma collide_platforms_not_falling (r : Rect) (pb : Q)
    (platforms : list Platform) (q : Player) :
  Qlt_bool 0 (y_velocity q) = false ->
  is_grounded (collide_platforms r pb q platforms) = is_grounded q.
Proof.
  revert q. induction platforms as [|platform platforms IH]; intros q U.
  - reflexivity.
  - cbn [collide_platforms]. unfold top_collision at 1.
    rewrite U, andb_false_r.
    match goal with
    | |- is_grounded (collide_platforms r pb ?q2 platforms) = _ =>
        assert (E : is_grounded q2 = is_grounded q /\
                    (y_velocity q2 = y_velocity q \/ y_velocity q2 = 0%Q))
          by (repeat break_if; simpl; auto);
        rewrite (IH q2); [apply E|]
    end.
    destruct E as [_ [E|E]]; rewrite E; [exact U|reflexivity].
Qed.

(** X10. [handle_collisions] never grounds a player that is not falling:
    with [y_velocity <= 0] the result has [is_grounded = false], whatever
    the platforms, even when the player stands exactly on one; and when
    [y_velocity] is zero the call also leaves [pos_y] and [y_velocity] as
    they are. *)
Theorem not_falling_never_grounded (p : Player) (platforms : list Platform) :
  (y_velocity p <= 0)%Q ->
  let p' := handle_collisions p platforms in
  is_grounded p' = false /\
  ((y_velocity p == 0)%Q ->
     pos_y p' = pos_y p /\ y_velocity p' = y_velocity p).
Proof.
  intros V. cbn zeta. unfold handle_collisions.
  assert (U : Qlt_bool 0 (y_velocity (set_is_grounded false p)) = false)
    by (apply Qlt_bool_false; exact V).
  split.
  - rewrite collide_platforms_not_falling by exact U. reflexivity.
  - intro Z.
    assert (D : Qlt_bool (y_velocity (set_is_grounded false p)) 0 = false)
      by (apply Qlt_bool_false; cbn; rewrite Z; apply Qle_refl).
    destruct (collide_platforms_resting
                (player_rect (set_is_grounded false p))
                (float_sub (inject_Z (bottom (player_rect (set_is_grounded false p))))
                 (y_velocity (set_is_grounded false p)))
                platforms (set_is_grounded false p) U D) as [H1 [H2 _]].
    split; assumption.
Qed.

(** A player standing on the middle platform with no vertical velocity. *)
Lemma not_falling_never_grounded_witness :
  is_grounded
    (handle_collisions (set_pos_y (245 # 1)%Q (set_is_grounded true initial_player))
       three_platforms) = false.
Proof.
  apply (not_falling_never_grounded
           (set_pos_y (245 # 1)%Q (set_is_grounded true initial_player))
           three_platforms).
  vm_compute. discriminate.
Defined.

Lemma bottom_collision_y_velocity (r : Rect) (platform : Platform)
    (q q' : Player) :
  y_velocity q' = y_velocity q ->
  bottom_collision r platform q' = bottom_collision r platform q.
Proof. unfold bottom_collision. intros ->. reflexivity. Qed.

Lemma collide_platforms_rising (r : Rect) (pb : Q) (p : Player)
    (platforms : list Platform) (q : Player) :
  (y_velocity p < 0)%Q -> y_velocity q = y_velocity p ->
  let q' := collide_platforms r pb q platforms in
  is_grounded q' = is_grounded q /\
  match find (fun platform => bottom_collision r platform p) platforms with
  | Some platform =>
      pos_y q' = inject_Z (bottom (rect platform)) /\ y_velocity q' = 0%Q
  | None => pos_y q' = pos_y q /\ y_velocity q' = y_velocity q
  end.
Proof.
  intros V. revert q.
  assert (U : Qlt_bool 0 (y_velocity p) = false)
    by (apply Qlt_bool_false, Qlt_le_weak; exact V).
  induction platforms as [|platform platforms IH]; intros q E.
  - simpl. auto.
  - assert (T : top_collision r pb platform q = false)
      by (unfold top_collision; rewrite E, U; apply andb_false_r).
    cbn [collide_platforms find]. rewrite T.
    rewrite (bottom_collision_y_velocity r platform p q E).
    destruct (bottom_collision r platform p) eqn:B.
    + (* head bump: the player is at rest from here on *)
      match goal with
      | |- context [collide_platforms r pb ?x platforms] => set (q2 := x)
      end.
      assert (F : pos_y q2 = inject_Z (bottom (rect platform)) /\
                  y_velocity q2 = 0%Q /\ is_grounded q2 = is_grounded q)
        by (subst q2; repeat break_if; simpl; auto).
      destruct F as [F1 [F2 F3]].
      destruct (collide_platforms_resting r pb platforms q2)
        as [R1 [R2 R3]]; [rewrite F2; reflexivity..|].
      cbn zeta. repeat split; congruence.
    + match goal with
      | |- context [collide_platforms r pb ?x platforms] => set (q2 := x)
      end.
      assert (F : pos_y q2 = pos_y q /\ y_velocity q2 = y_velocity q /\
                  is_grounded q2 = is_grounded q).
      { subst q2.
        rewrite ?(bottom_collision_y_velocity r platform p q E), ?B.
        repeat break_if; simpl; auto. }
      destruct F as [F1 [F2 F3]].
      specialize (IH q2 ltac:(congruence)). cbn zeta in IH |- *.
      destruct IH as [G H].
      split; [congruence|].
      destruct (find _ platforms); destruct H as [H1 H2]; split; congruence.
Qed.

Lemma find_first {A : Type} (f : A -> bool) (before after : list A) (x : A) :
  (forall y, In y before -> f y = false) -> f x = true ->
  find f (before ++ x :: after) = Some x.
Proof.
  intros N T. induction before as [|a before IH].
  - cbn. rewrite T. reflexivity.
  - cbn. rewrite (N a (or_introl eq_refl)). apply IH.
    intros y I. apply N. right. exact I.
Qed.

Lemma find_nothing {A : Type} (f : A -> bool) (l : list A) :
  (forall y, In y l -> f y = false) -> find f l = None.
Proof.
  intro N. destruct (find f l) as [x|] eqn:E; [|reflexivity].
  apply find_some in E. destruct E as [I T]. rewrite (N x I) in T.
  discriminate T.
Qed.

Lemma Qabs_negative (y : Q) : (y < 0)%Q -> Qabs y = (- y)%Q.
Proof.
  destruct y as [a b]. unfold Qlt, Qabs, Qopp. cbn [Qnum Qden].
  intro H. f_equal. lia.
Qed.

(** The head-bump test of lines 173-178 on the rectangle that line 155
    computes. *)
Lemma bottom_collision_iff (p : Player) (platform : Platform) :
  (y_velocity p < 0)%Q ->
  bottom_collision (player_rect p) platform p = true <->
  to_int (pos_y p) < bottom (rect platform) /\
  (float_sub (inject_Z (bottom (rect platform))) (- y_velocity p)
   <= inject_Z (to_int (pos_y p)))%Q /\
  left (rect platform) < to_int (pos_x p) + 15 /\
  to_int (pos_x p) < right (rect platform).
Proof.
  intro V. unfold bottom_collision, player_rect.
  unfold top at 1 2, right at 1, left at 2. cbn [rx ry rw rh].
  unfold PLAYER_STATS.size. rewrite (Qabs_negative _ V).
  apply Qlt_bool_iff in V. rewrite V, andb_true_r.
  rewrite !andb_true_iff, Qle_bool_iff, Z.gtb_lt, !Z.ltb_lt. tauto.
Qed.

(** X11. Head bump, on every player state with [y_velocity < 0] and every
    platform list.  The resolver works on the player's rectangle, whose
    corner is the position truncated to integers.  A platform is bumped
    into when the rectangle's top edge is above the platform's bottom edge
    by at most [abs(y_velocity)] (the subtraction [bottom - abs(y_velocity)]
    is rounded as a float) and the rectangle overlaps it horizontally.
    [handle_collisions] snaps [pos_y] to the bottom of the first such
    platform in list order and zeroes [y_velocity]; no later platform moves
    the player vertically again; when no platform qualifies [pos_y] and
    [y_velocity] are kept.  The player is not grounded in either case. *)
Theorem handle_collisions_head_bump (p : Player) (platforms : list Platform) :
  (y_velocity p < 0)%Q ->
  let player_left := to_int (pos_x p) in
  let player_right := to_int (pos_x p) + 15 in
  let player_top := to_int (pos_y p) in
  let bumps (platform : Platform) : Prop :=
    player_top < bottom (rect platform) /\
    (float_sub (inject_Z (bottom (rect platform))) (- y_velocity p)
     <= inject_Z player_top)%Q /\
    left (rect platform) < player_right /\
    player_left < right (rect platform) in
  let p' := handle_collisions p platforms in
  is_grounded p' = false /\
  (forall before platform after,
     platforms = before ++ platform :: after ->
     (forall other, In other before -> ~ bumps other) ->
     bumps platform ->
     pos_y p' = inject_Z (bottom (rect platform)) /\ y_velocity p' = 0%Q) /\
  ((forall platform, In platform platforms -> ~ bumps platform) ->
     pos_y p' = pos_y p /\ y_velocity p' = y_velocity p).
Proof.
  intros V player_left player_right player_top bumps p'.
  assert (H : is_grounded p' = false /\
              match find (fun platform =>
                            bottom_collision (player_rect p) platform p)
                         platforms with
              | Some platform =>
                  pos_y p' = inject_Z (bottom (rect platform)) /\
                  y_velocity p' = 0%Q
              | None => pos_y p' = pos_y p /\ y_velocity p' = y_velocity p
              end)
    by exact (collide_platforms_rising (player_rect p)
                (float_sub (inject_Z (bottom (player_rect p))) (y_velocity p))
                p platforms (set_is_grounded false p) V eq_refl).
  destruct H as [G H]. split; [exact G|].
  assert (N : forall platform,
            ~ bumps platform ->
            bottom_collision (player_rect p) platform p = false).
  { intros platform B.
    destruct (bottom_collision (player_rect p) platform p) eqn:C;
      [|reflexivity].
    exfalso. apply B. apply (bottom_collision_iff p platform V). exact C. }
  split.
  - intros before platform after E B T. subst platforms.
    rewrite (find_first _ before after platform) in H; [exact H| |].
    + intros other I. apply N, B. exact I.
    + apply (bottom_collision_iff p platform V). exact T.
  - intro A. rewrite find_nothing in H; [exact H|].
    intros other I. apply N, A. exact I.
Qed.

(** A player rising at 5 per frame whose top edge has just passed the
    bottoms of three platforms.  The first is out of reach sideways, the
    second and the third both qualify and have different bottoms: the
    player is put below the second. *)
Lemma handle_collisions_head_bump_witness :
  let p := set_y_velocity (-5 # 1)%Q (set_pos_y (277 # 1)%Q initial_player) in
  pos_y (handle_collisions p three_platforms) = inject_Z 280 /\
  y_velocity (handle_collisions p three_platforms) = 0%Q.
Proof.
  cbn zeta.
  destruct (handle_collisions_head_bump
              (set_y_velocity (-5 # 1)%Q (set_pos_y (277 # 1)%Q initial_player))
              three_platforms) as [_ [H _]]; [reflexivity|].
  apply (H [mkPlatform (mkRect 1000 259 100 20)]
           (mkPlatform (mkRect 150 260 100 20))
           [mkPlatform (mkRect 190 258 100 20)]).
  - reflexivity.
  - intros other [<-|[]] [_ [_ [L _]]]. vm_compute in L. discriminate L.
  - split; [vm_compute; reflexivity|].
    split; [vm_compute; discriminate|].
    split; vm_compute; reflexivity.
Defined.

Lemma collide_platforms_snap (r : Rect) (pb : Q) (platforms : list Platform)
    (q : Player) :
  let q' := collide_platforms r pb q platforms in
  pos_x q' = pos_x q /\ x_velocity q' = x_velocity q \/
  x_velocity q' = 0%Q /\
  exists platform,
    In platform platforms /\
    (pos_x q' = inject_Z (left (rect platform) - PLAYER_STATS.size) \/
     pos_x q' = inject_Z (right (rect platform))).
Proof.
  revert q. induction platforms as [|platform platforms IH]; intro q.
  - left. split; reflexivity.
  - cbn [collide_platforms]. break_if; [left; split; reflexivity|].
    match goal with
    | |- context [collide_platforms r pb ?q2 platforms] =>
        assert (E : pos_x q2 = pos_x q /\ x_velocity q2 = x_velocity q \/
                    x_velocity q2 = 0%Q /\
                    (pos_x q2
                     = inject_Z (left (rect platform) - PLAYER_STATS.size) \/
                     pos_x q2 = inject_Z (right (rect platform))))
          by (repeat break_if; simpl; auto);
        destruct (IH q2) as [[I1 I2]|[I1 [pl [I2 I3]]]]
    end.
    + cbn zeta. destruct E as [[E1 E2]|[E1 E2]].
      * left. split; congruence.
      * right. split; [congruence|]. exists platform.
        split; [left; reflexivity|]. rewrite I1. exact E2.
    + right. split; [exact I1|]. exists pl. split; [right; exact I2|exact I3].
Qed.

(** X12. [handle_collisions] moves the player horizontally only by snapping
    it to the side of a platform of the list, and every snap stops it:
    either [pos_x] and [x_velocity] are as before, or [x_velocity] is 0 and
    [pos_x] is some platform's left edge minus 15 or some platform's right
    edge. *)
Theorem handle_collisions_side_snap (p : Player) (platforms : list Platform) :
  let p' := handle_collisions p platforms in
  pos_x p' = pos_x p /\ x_velocity p' = x_velocity p \/
  x_velocity p' = 0%Q /\
  exists platform,
    In platform platforms /\
    (pos_x p' = inject_Z (left (rect platform) - 15) \/
     pos_x p' = inject_Z (right (rect platform))).
Proof.
  exact (collide_platforms_snap _ _ platforms (set_is_grounded false p)).
Qed.

(** ** More of the boundary constraint *)

(** X13. [constrain_player_to_world] is idempotent: applied to its own
    result it changes nothing. *)
Theorem constrain_player_to_world_idempotent (p : Player) :
  constrain_player_to_world (constrain_player_to_world p)
  = constrain_player_to_world p.
Proof.
  pose proof (constrain_player_to_world_in_world p) as [[X0 X1] [Y0 Y1]].
  set (q := constrain_player_to_world p) in *.
  unfold constrain_player_to_world at 1.
  apply Qlt_bool_false in X0, X1, Y0, Y1.
  rewrite X0, X1. cbn zeta. rewrite Y0, Y1. reflexivity.
Qed.

(** ** More on coins and score *)

(** X14. Coin collection is idempotent: calling [handle_coin_collection]
    again for the same player on the coins that a first call has left
    collects nothing and returns the score it is given. *)
Theorem handle_coin_collection_idempotent (p : Player) (cs : list Coin)
    (n m : Z) :
  handle_coin_collection p (fst (handle_coin_collection p cs n)) m
  = (fst (handle_coin_collection p cs n), m).
Proof.
  unfold handle_coin_collection. generalize (player_rect p) as r. intro r.
  revert n m. induction cs as [|c cs IH]; intros n m.
  - reflexivity.
  - cbn [collect_coins].
    destruct (negb (collected c) && colliderect r (coin_rect c)) eqn:G.
    + specialize (IH (n + 1) m).
      destruct (collect_coins r cs (n + 1)) as [cs' n'].
      cbn [fst] in *. cbn [collect_coins collected negb andb].
      rewrite IH. reflexivity.
    + specialize (IH n m).
      destruct (collect_coins r cs n) as [cs' n'].
      cbn [fst] in *. cbn [collect_coins]. rewrite G, IH. reflexivity.
Qed.

Lemma collected_count_le_length (cs : list Coin) :
  0 <= collected_count cs <= Z.of_nat (length cs).
Proof.
  unfold collected_count. pose proof (filter_length_le collected cs). lia.
Qed.

Lemma coins_kept_count (a b : list Coin) :
  coins_kept a b ->
  collected_count a <= collected_count b /\ length b = length a /\
  map coin_rect b = map coin_rect a.
Proof.
  unfold collected_count.
  induction 1 as [|x y a b [R F] H IH].
  - simpl. repeat split; lia.
  - destruct IH as [C [L M]]. cbn [filter length map].
    rewrite L, M, R. repeat split.
    destruct (collected x) eqn:X.
    + rewrite (F eq_refl). cbn [length]. lia.
    + destruct (collected y); cbn [length]; lia.
Qed.

Lemma run_score_count (platforms : list Platform) (bricks : list DamageBrick)
    (inputs : list FrameInput) (s : Session) :
  score s = collected_count (coins s) ->
  score (run platforms bricks inputs s)
  = collected_count (coins (run platforms bricks inputs s)).
Proof.
  apply (run_invariant platforms bricks
           (fun s => score s = collected_count (coins s))).
  intros s0 i H. destruct (run_frame_coins platforms bricks s0 i) as [E _].
  lia.
Qed.

(** X15. In every session the score never decreases from one point to a
    later one and never exceeds the number of coins: the four coins of
    [main] stay four, with their rectangles, and the score stays within
    [[0, 4]]. *)
Theorem score_monotone_and_bounded (platforms : list Platform)
    (bricks : list DamageBrick) (inputs more : list FrameInput) :
  let s := run platforms bricks inputs initial_session in
  let s' := run platforms bricks more s in
  score s <= score s' /\ 0 <= score s <= 4 /\
  length (coins s) = 4%nat /\
  map coin_rect (coins s) = map coin_rect initial_coins.
Proof.
  cbn zeta.
  pose proof (run_score_count platforms bricks inputs initial_session eq_refl)
    as S.
  pose proof (run_score_count platforms bricks more _ S) as S'.
  destruct (coins_kept_count _ _
              (run_coins_kept platforms bricks inputs initial_session))
    as [_ [L M]].
  destruct (coins_kept_count _ _
              (run_coins_kept platforms bricks more
                 (run platforms bricks inputs initial_session)))
    as [C _].
  pose proof (collected_count_le_length
                (coins (run platforms bricks inputs initial_session))) as B.
  rewrite L in B. cbn [initial_session coins initial_coins length] in *.
  repeat split; try assumption; lia.
Qed.

(** ** More on damage *)

(** X16. Of the damage bricks that the player touches in one call of
    [handle_damage_bricks], only the first in list order damages a player
    who is not invincible: the result is that of [handle_damage] with that
    brick's damage, because the hit makes the player invincible for the
    rest of the loop.  When the player touches no brick nothing changes and
    the clock is not read. *)
Theorem first_touched_brick_damages (p : Player) (bricks : list DamageBrick)
    (tk : nat -> Z) (n : nat) :
  is_invincible p = false ->
  match find (fun b => colliderect (player_rect p) (brick_rect b)) bricks with
  | Some b =>
      fst (handle_damage_bricks p bricks tk n)
      = fst (handle_damage p (damage b) tk n)
  | None => handle_damage_bricks p bricks tk n = (p, n)
  end.
Proof.
  intro I. unfold handle_damage_bricks.
  generalize (player_rect p) as r. intro r.
  revert n. induction bricks as [|b bricks IH]; intro n.
  - reflexivity.
  - cbn [find damage_loop]. rewrite bind_run.
    destruct (colliderect r (brick_rect b)).
    + apply damage_loop_invincible.
      unfold handle_damage. run_clock. rewrite I. reflexivity.
    + apply IH.
Qed.

Lemma first_touched_brick_damages_witness :
  hp (fst (handle_damage_bricks player_in_brick
             (mkDamageBrick (mkRect 0 0 10 10) 40 ::
              mkDamageBrick (mkRect 200 150 50 50) 25 ::
              mkDamageBrick (mkRect 190 170 50 50) 60 :: nil)
             (fun _ => 700) 0%nat)) = 75.
Proof.
  pose proof (first_touched_brick_damages player_in_brick
                (mkDamageBrick (mkRect 0 0 10 10) 40 ::
                 mkDamageBrick (mkRect 200 150 50 50) 25 ::
                 mkDamageBrick (mkRect 190 170 50 50) 60 :: nil)
                (fun _ => 700) 0%nat eq_refl) as H.
  cbv beta iota in H.
  change (find _ _) with (Some (mkDamageBrick (mkRect 200 150 50 50) 25)) in H.
  cbv beta iota in H. rewrite H. reflexivity.
Defined.

(** X17. The invincibility window: a frame that starts with the player
    invincible changes neither [hp] nor [last_damage_time], whatever the
    bricks; the player is still invincible after it unless a clock reading
    of the frame is more than 1000 ms past [last_damage_time]. *)
Theorem invincible_frame_takes_no_damage (platforms : list Platform)
    (bricks : list DamageBrick) (s : Session) (i : FrameInput) :
  is_invincible (player s) = true ->
  let p' := player (run_frame platforms bricks s i) in
  hp p' = hp (player s) /\
  last_damage_time p' = last_damage_time (player s) /\
  (is_invincible p' = false ->
     exists n, ticks i n - last_damage_time (player s) > 1000) /\
  ((forall n, ticks i n - last_damage_time (player s) <= 1000) ->
     is_invincible p' = true).
Proof.
  intro I. cbn zeta.
  destruct (after_constrain_vitals platforms i (player s)) as [V _].
  unfold vitals in V.
  assert (V1 : hp (after_constrain platforms i (player s)) = hp (player s))
    by congruence.
  assert (V2 : is_invincible (after_constrain platforms i (player s)) = true)
    by congruence.
  assert (V3 : last_damage_time (after_constrain platforms i (player s))
               = last_damage_time (player s)) by congruence.
  rewrite run_frame_player_eq. cbn zeta.
  set (p4 := after_constrain platforms i (player s)) in *.
  set (n4 := snd _).
  destruct (hp p4 <=? 0).
  - repeat split; try assumption; congruence.
  - unfold handle_damage_bricks.
    pose proof (damage_loop_invincible (player_rect p4) p4 bricks (ticks i)
                  n4 V2) as E.
    destruct (damage_loop (player_rect p4) p4 bricks (ticks i) n4)
      as [p5 n5]. cbn [fst snd] in *. subst p5.
    unfold reset_invincibility. rewrite V2. run_clock. rewrite V3.
    destruct (Z.gtb_spec (ticks i n5 - last_damage_time (player s)) 1000)
      as [G|G]; cbn.
    + repeat split; try assumption.
      * intros _. exists n5. lia.
      * intro A. specialize (A n5). lia.
    + repeat split; try assumption; [congruence|intros _; exact V2].
Qed.

Lemma invincible_frame_takes_no_damage_witness :
  let s := run ledge [brick_on_ledge] [frame_at no_keys 600] initial_session in
  hp (player (run_frame ledge [brick_on_ledge] s (frame_at no_keys 1600)))
  = 75 /\
  is_invincible
    (player (run_frame ledge [brick_on_ledge] s (frame_at no_keys 1600)))
  = true.
Proof.
  cbn zeta.
  destruct (invincible_frame_takes_no_damage ledge [brick_on_ledge]
              (run ledge [brick_on_ledge] [frame_at no_keys 600]
                 initial_session)
              (frame_at no_keys 1600)) as [H1 [_ [_ H2]]].
  - vm_compute. reflexivity.
  - split; [exact H1|]. apply H2. intro n. vm_compute. discriminate.
Defined.

(** ** Death *)

(** The session that a frame leaves. *)
Lemma run_frame_eq (platforms : list Platform) (bricks : list DamageBrick)
    (s : Session) (i : FrameInput) :
  let p4 := after_constrain platforms i (player s) in
  let n4 := snd (move_player (player s) (keys i) (ticks i) 0%nat) in
  let hit := handle_damage_bricks p4 bricks (ticks i) n4 in
  let p6 := fst (reset_invincibility (fst hit) (ticks i) (snd hit)) in
  let picked := handle_coin_collection p6 (coins s) (score s) in
  run_frame platforms bricks s i
  = if hp p4 <=? 0 then
      mkSession p4 (coins s) (score s) true (Some (ticks i n4))
    else
      mkSession p6 (fst picked) (snd picked) (game_over s) (game_over_time s).
Proof.
  cbn zeta. unfold run_frame, frame, move_and_collide.
  unfold after_constrain, after_collisions, after_physics, after_move.
  rewrite !bind_run. unfold ret at 1 2. cbn [fst snd].
  destruct (hp _ <=? 0).
  - reflexivity.
  - rewrite !bind_run.
    destruct (handle_coin_collection _ (coins s) (score s)). reflexivity.
Qed.

Lemma run_frame_dead (platforms : list Platform) (bricks : list DamageBrick)
    (s : Session) (i : FrameInput) :
  hp (player s) <= 0 ->
  let s' := run_frame platforms bricks s i in
  coins s' = coins s /\ score s' = score s /\
  vitals (player s') = vitals (player s) /\
  game_over s' = true /\ game_over_time s' <> None.
Proof.
  intro H. cbn zeta.
  destruct (after_constrain_vitals platforms i (player s)) as [V _].
  rewrite run_frame_eq. cbn zeta.
  replace (hp (after_constrain platforms i (player s)) <=? 0) with true.
  - cbn. split; [reflexivity|]. split; [reflexivity|]. split; [exact V|].
    split; [reflexivity|discriminate].
  - symmetry. apply Z.leb_le. unfold vitals in V.
    replace (hp (after_constrain platforms i (player s)))
      with (hp (player s)) by congruence.
    exact H.
Qed.

Lemma run_dead_frozen (platforms : list Platform)
    (bricks : list DamageBrick) (inputs : list FrameInput) (s : Session) :
  hp (player s) <= 0 ->
  let s' := run platforms bricks inputs s in
  coins s' = coins s /\ score s' = score s /\
  vitals (player s') = vitals (player s) /\
  (inputs <> [] -> game_over s' = true /\ game_over_time s' <> None).
Proof.
  revert s. induction inputs as [|i inputs IH]; intros s H; cbn zeta.
  - split; [reflexivity|]. split; [reflexivity|]. split; [reflexivity|].
    intro A. contradiction.
  - change (run platforms bricks (i :: inputs) s)
      with (run platforms bricks inputs (run_frame platforms bricks s i)).
    destruct (run_frame_dead platforms bricks s i H) as [C [S [V [G T]]]].
    assert (H' : hp (player (run_frame platforms bricks s i)) <= 0)
      by (unfold vitals in V;
          replace (hp (player (run_frame platforms bricks s i)))
            with (hp (player s)) by congruence; exact H).
    specialize (IH _ H'). cbn zeta in IH.
    destruct IH as [C' [S' [V' G']]].
    repeat split; try congruence.
    + destruct inputs; [exact G|apply G'; discriminate].
    + destruct inputs; [exact T|apply G'; discriminate].
Qed.

(** X18. A dead player is frozen: from any state with [hp <= 0], every
    frame takes the death branch, so the coins, the score, [hp],
    [is_invincible] and [last_damage_time] are the same after every
    sequence of frames, and after the first frame [game_over] is set with a
    timestamp. *)
Theorem dead_player_frozen (platforms : list Platform)
    (bricks : list DamageBrick) (inputs : list FrameInput) (s : Session) :
  hp (player s) <= 0 ->
  let s' := run platforms bricks inputs s in
  coins s' = coins s /\ score s' = score s /\
  vitals (player s') = vitals (player s) /\
  (inputs <> [] -> game_over s' = true /\ game_over_time s' <> None).
Proof. exact (run_dead_frozen platforms bricks inputs s). Qed.

Lemma dead_player_frozen_witness :
  let s := mkSession (set_hp 0 initial_player) initial_coins 3 false None in
  score (run [] damage_bricks fall_then_walk_right s) = 3 /\
  coins (run [] damage_bricks fall_then_walk_right s) = initial_coins.
Proof.
  cbn zeta.
  destruct (dead_player_frozen [] damage_bricks fall_then_walk_right
              (mkSession (set_hp 0 initial_player) initial_coins 3 false None))
    as [C [S _]].
  - simpl. lia.
  - split; [exact S|exact C].
Defined.

Lemma run_frame_game_over (platforms : list Platform)
    (bricks : list DamageBrick) (s : Session) (i : FrameInput) :
  let s' := run_frame platforms bricks s i in
  game_over s' = true ->
  game_over s = true /\ game_over_time s' = game_over_time s \/
  hp (player s') <= 0 /\ game_over_time s' <> None.
Proof.
  cbn zeta.
  destruct (Z.leb_spec (hp (after_constrain platforms i (player s))) 0)
    as [D|D].
  - intros _. right.
    destruct (after_constrain_vitals platforms i (player s)) as [V _].
    assert (H : hp (player s) <= 0)
      by (unfold vitals in V;
          replace (hp (player s))
            with (hp (after_constrain platforms i (player s)))
            by congruence; exact D).
    destruct (run_frame_dead platforms bricks s i H) as [_ [_ [V' [_ T]]]].
    split; [|exact T]. unfold vitals in V'.
    replace (hp (player (run_frame platforms bricks s i)))
      with (hp (player s)) by congruence.
    exact H.
  - apply Z.leb_gt in D. rewrite run_frame_eq. cbn zeta. rewrite D.
    cbn. auto.
Qed.

Lemma run_game_over_dead (platforms : list Platform)
    (bricks : list DamageBrick) (inputs : list FrameInput) :
  let s := run platforms bricks inputs initial_session in
  game_over s = true -> hp (player s) <= 0 /\ game_over_time s <> None.
Proof.
  cbn zeta.
  apply (run_invariant platforms bricks
           (fun s => game_over s = true ->
                     hp (player s) <= 0 /\ game_over_time s <> None)).
  - intros s i H G.
    destruct (run_frame_game_over platforms bricks s i G)
      as [[G0 T]|[D T]].
    + destruct (H G0) as [D N].
      destruct (run_frame_dead platforms bricks s i D) as [_ [_ [V _]]].
      unfold vitals in V. split; [|congruence].
      replace (hp (player (run_frame platforms bricks s i)))
        with (hp (player s)) by congruence.
      exact D.
    + split; assumption.
  - discriminate.
Qed.

(** X19. In every session, [game_over] is set only for a dead player and
    always with a timestamp: after every sequence of frames from the start,
    [game_over = true] implies [hp <= 0] and [game_over_time] is not
    [None]; and from then on both [game_over] and [hp <= 0] stay. *)
Theorem game_over_means_dead (platforms : list Platform)
    (bricks : list DamageBrick) (inputs : list FrameInput) :
  let s := run platforms bricks inputs initial_session in
  game_over s = true ->
  hp (player s) <= 0 /\ game_over_time s <> None /\
  forall more,
    game_over (run platforms bricks more s) = true /\
    hp (player (run platforms bricks more s)) <= 0.
Proof.
  cbn zeta. intro G.
  destruct (run_game_over_dead platforms bricks inputs G) as [D N].
  split; [exact D|]. split; [exact N|].
  intro more.
  destruct (run_dead_frozen platforms bricks more _ D) as [_ [_ [V O]]].
  cbn zeta in V, O. unfold vitals in V. split.
  - destruct more as [|i more]; [exact G|apply O; discriminate].
  - replace (hp (player (run platforms bricks more
                           (run platforms bricks inputs initial_session))))
      with (hp (player (run platforms bricks inputs initial_session)))
      by congruence.
    exact D.
Qed.

(** On the ledge, inside the brick, the fourth hit comes after a little more
    than three seconds and the next frame ends the game. *)
Lemma game_over_means_dead_witness :
  hp (player (run ledge [brick_on_ledge]
                (map (frame_at no_keys) (sixty_hz 600 200))
                initial_session)) <= 0.
Proof.
  destruct (game_over_means_dead ledge [brick_on_ledge]
              (map (frame_at no_keys) (sixty_hz 600 200))) as [H _].
  - vm_compute. reflexivity.
  - exact H.
Defined.

(** ** The clock inside a frame *)

Lemma uniform_ret {A} (a : A) : uniform (ret a).
Proof.
  intros tk tk' n n' _. exists a, 0%nat. unfold ret.
  rewrite !Nat.add_0_r. split; reflexivity.
Qed.

Lemma uniform_get_ticks : uniform get_ticks.
Proof.
  intros tk tk' n n' E. exists (tk n), 1%nat. unfold get_ticks.
  specialize (E 0%nat). rewrite !Nat.add_0_r in E. rewrite <- E.
  rewrite !Nat.add_1_r. split; reflexivity.
Qed.

Lemma uniform_bind {A B} (m : Clock A) (f : A -> Clock B) :
  uniform m -> (forall a, uniform (f a)) -> uniform (bind m f).
Proof.
  intros Hm Hf tk tk' n n' E.
  destruct (Hm tk tk' n n' E) as (a & k & E1 & E2).
  destruct (Hf a tk tk' (n + k)%nat (n' + k)%nat) as (b & k2 & F1 & F2).
  { intro j. rewrite <- !Nat.add_assoc. apply E. }
  exists b, (k + k2)%nat. unfold bind. rewrite E1, E2, F1, F2.
  rewrite !Nat.add_assoc. split; reflexivity.
Qed.

Ltac uniformity :=
  repeat first
    [ apply uniform_ret
    | apply uniform_get_ticks
    | apply uniform_bind; [|intro]
    | match goal with
      | |- uniform (if ?c then _ else _) => destruct c
      | |- uniform (let (_, _) := ?x in _) => destruct x
      end
    | progress cbn zeta ].

Lemma uniform_move_player (p : Player) (k : Keys) : uniform (move_player p k).
Proof. unfold move_player. uniformity. Qed.

Lemma uniform_handle_damage (p : Player) (amount : Z) :
  uniform (handle_damage p amount).
Proof. unfold handle_damage. uniformity. Qed.

Lemma uniform_damage_loop (r : Rect) (bricks : list DamageBrick) (p : Player) :
  uniform (damage_loop r p bricks).
Proof.
  revert p. induction bricks as [|b bricks IH]; intro p; cbn [damage_loop].
  - apply uniform_ret.
  - apply uniform_bind; [|exact IH].
    destruct (colliderect r (brick_rect b));
      [apply uniform_handle_damage|apply uniform_ret].
Qed.

Lemma uniform_frame (platforms : list Platform) (bricks : list DamageBrick)
    (k : Keys) (s : Session) :
  uniform (frame platforms bricks k s).
Proof.
  unfold frame, move_and_collide, handle_damage_bricks, reset_invincibility.
  apply uniform_bind.
  - apply uniform_bind; [apply uniform_move_player|intro; apply uniform_ret].
  - intro p. destruct (hp p <=? 0); [uniformity|].
    apply uniform_bind; [apply uniform_damage_loop|intro p5].
    uniformity.
Qed.

(** A frame run from the [n]-th clock reading on is the frame whose input
    is the clock from there. *)
Lemma frame_later (platforms : list Platform) (bricks : list DamageBrick)
    (k : Keys) (s : Session) (tk : nat -> Z) (n : nat) :
  fst (frame platforms bricks k s tk n)
  = run_frame platforms bricks s (mkInput k (later tk n)).
Proof.
  unfold run_frame. cbn [keys ticks].
  destruct (uniform_frame platforms bricks k s tk (later tk n) n 0%nat)
    as (a & j & E1 & E2); [intro; reflexivity|].
  rewrite E1, E2. reflexivity.
Qed.

(** ** The main loop *)

(** The update pass of the loop is [frame] on the session; the camera is
    updated on the player's rectangle unless the death check cut the pass
    short. *)
Lemma update_pass_frame (platforms : list Platform) (bricks : list DamageBrick)
    (k : Keys) (g : MainLoop.t) (ss r : bool) (sv : list Z) (tk : nat -> Z)
    (n : nat) :
  exists g',
    fst (MainLoop.update_pass platforms bricks k g ss r sv tk n) = Some g' /\
    MainLoop.session g' = fst (frame platforms bricks k (MainLoop.session g) tk n) /\
    MainLoop.score_saved g' = ss /\ MainLoop.running g' = r /\
    MainLoop.saved g' = sv /\
    (hp (player (MainLoop.session g')) <= 0 /\
     MainLoop.camera g' = MainLoop.camera g
     \/
     MainLoop.camera g'
     = Camera.update (MainLoop.camera g)
         (player_rect (player (MainLoop.session g')))).
Proof.
  unfold MainLoop.update_pass, frame. rewrite !bind_run.
  destruct (Z.leb_spec
              (hp (fst (move_and_collide platforms k
                          (player (MainLoop.session g)) tk n))) 0) as [D|D].
  - run_clock. eexists. split; [reflexivity|]. cbn.
    repeat split. left. split; [exact D|reflexivity].
  - rewrite !bind_run.
    destruct (handle_coin_collection _ (coins (MainLoop.session g))
                (score (MainLoop.session g))).
    unfold ret. eexists. split; [reflexivity|]. cbn.
    repeat split. right. reflexivity.
Qed.

Lemma loop_ok_init (platforms : list Platform) (bricks : list DamageBrick) :
  loop_ok platforms bricks MainLoop.init.
Proof.
  split; [exists []; reflexivity|]. left. split; reflexivity.
Qed.

Lemma camera_ok_init : camera_ok MainLoop.init.
Proof.
  unfold camera_ok. cbn. repeat split; try (vm_compute; discriminate).
Qed.

Lemma camera_ok_update_pass (g g' : MainLoop.t) :
  camera_ok g ->
  in_world (player (MainLoop.session g')) ->
  hp (player (MainLoop.session g')) <= 0 /\
  MainLoop.camera g' = MainLoop.camera g
  \/
  MainLoop.camera g'
  = Camera.update (MainLoop.camera g)
      (player_rect (player (MainLoop.session g'))) ->
  camera_ok g'.
Proof.
  intros [W [H [V P]]] I [[D C]|C]; unfold camera_ok; rewrite C.
  - split; [exact W|]. split; [exact H|]. split; [exact V|]. intro A. lia.
  - destruct (update_in_world (MainLoop.camera g)
                (player_rect (player (MainLoop.session g'))))
      as [V' [_ [_ [W' H']]]];
      [rewrite W; vm_compute; discriminate
      |rewrite H; vm_compute; discriminate|].
    rewrite W, H in V'. split; [congruence|]. split; [congruence|].
    split; [exact V'|]. intros _. apply update_shows_player; assumption.
Qed.

(** One iteration from a state that satisfies the invariants: it does not
    raise, and the invariants hold afterwards. *)
Lemma step_ok (platforms : list Platform) (bricks : list DamageBrick)
    (g : MainLoop.t) (i : MainLoop.Input) :
  loop_ok platforms bricks g -> camera_ok g ->
  exists g',
    MainLoop.step platforms bricks g i = Some g' /\
    loop_ok platforms bricks g' /\ camera_ok g' /\
    (MainLoop.running g' = false ->
     MainLoop.running g = false \/ MainLoop.quit i = true \/
     MainLoop.score_saved g' = true).
Proof.
  intros [[frames F] S] C. unfold MainLoop.step, MainLoop.iteration.
  destruct (game_over (MainLoop.session g)) eqn:G.
  - (* the game is over *)
    assert (Dead : hp (player (MainLoop.session g)) <= 0 /\
                   game_over_time (MainLoop.session g) <> None)
      by (rewrite F in *; apply run_game_over_dead; exact G).
    destruct Dead as [Dead Stamp].
    destruct (game_over_time (MainLoop.session g)) as [since|] eqn:T;
      [clear Stamp|contradiction].
    assert (Saved : (if negb (MainLoop.score_saved g)
                     then MainLoop.saved g ++ [score (MainLoop.session g)]
                     else MainLoop.saved g)
                    = [score (MainLoop.session g)]).
    { destruct S as [[S1 S2]|[S1 [S2 _]]]; rewrite S1, S2; reflexivity. }
    rewrite Saved. rewrite bind_run. cbn [get_ticks fst snd].
    destruct (ticks (MainLoop.input i) 0%nat - since >? 5000).
    + destruct (update_pass_frame platforms bricks
                  (keys (MainLoop.input i)) g true false
                  [score (MainLoop.session g)] (ticks (MainLoop.input i))
                  1%nat) as (g' & E & Ses & SS & R & SV & Cam).
      exists g'. split; [exact E|].
      rewrite frame_later in Ses.
      destruct (run_frame_dead platforms bricks (MainLoop.session g)
                  (mkInput (keys (MainLoop.input i))
                           (later (ticks (MainLoop.input i)) 1)) Dead)
        as [_ [Sc [_ [GO _]]]].
      rewrite <- Ses in Sc, GO.
      split; [split|split].
      * exists (frames ++ [mkInput (keys (MainLoop.input i))
                             (later (ticks (MainLoop.input i)) 1)]).
        rewrite run_snoc, <- F. exact Ses.
      * right. rewrite SS, SV, Sc, GO. repeat split.
      * apply (camera_ok_update_pass g g' C); [|exact Cam].
        rewrite Ses. apply run_frame_in_world.
      * intros _. right. right. exact SS.
    + eexists. split; [reflexivity|]. split; [split|split].
      * exists frames. exact F.
      * right. cbn. rewrite G. repeat split.
      * exact C.
      * intros _. right. right. reflexivity.
  - (* the game goes on *)
    assert (Fresh : MainLoop.score_saved g = false /\ MainLoop.saved g = [])
      by (destruct S as [S|[_ [_ S]]]; [exact S|congruence]).
    destruct Fresh as [S1 S2].
    destruct (update_pass_frame platforms bricks
                (keys (MainLoop.input i)) g (MainLoop.score_saved g)
                (if MainLoop.quit i then false else MainLoop.running g)
                (MainLoop.saved g) (ticks (MainLoop.input i)) 0%nat)
      as (g' & E & Ses & SS & R & SV & Cam).
    exists g'. split; [exact E|].
    rewrite frame_later in Ses.
    split; [split|split].
    + exists (frames ++ [mkInput (keys (MainLoop.input i))
                           (later (ticks (MainLoop.input i)) 0)]).
      rewrite run_snoc, <- F. exact Ses.
    + left. rewrite SS, SV. split; assumption.
    + apply (camera_ok_update_pass g g' C); [|exact Cam].
      rewrite Ses. apply run_frame_in_world.
    + rewrite R. destruct (MainLoop.quit i); auto.
Qed.

Lemma loop_ok_loop (platforms : list Platform) (bricks : list DamageBrick)
    (inputs : list MainLoop.Input) (g : MainLoop.t) :
  loop_ok platforms bricks g -> camera_ok g ->
  exists g',
    MainLoop.loop platforms bricks inputs g = Some g' /\
    loop_ok platforms bricks g' /\ camera_ok g' /\
    (MainLoop.running g' = false ->
     MainLoop.running g = false \/
     (exists i, In i inputs /\ MainLoop.quit i = true) \/
     MainLoop.score_saved g' = true).
Proof.
  revert g. induction inputs as [|i inputs IH]; intros g L C.
  - exists g. cbn. auto.
  - cbn [MainLoop.loop]. destruct (MainLoop.running g) eqn:R.
    + destruct (step_ok platforms bricks g i L C) as (g1 & E & L1 & C1 & Q1).
      rewrite E.
      destruct (IH g1 L1 C1) as (g' & E' & L' & C' & Q').
      exists g'. split; [exact E'|]. split; [exact L'|]. split; [exact C'|].
      intro Off. right. destruct (Q' Off) as [Off1|[[j [In Qj]]|Sv]].
      * assert (Same : g' = g1).
        { destruct inputs; cbn in E'; [congruence|].
          rewrite Off1 in E'. congruence. }
        destruct (Q1 Off1) as [A|[A|A]]; [congruence| |].
        -- left. exists i. split; [left; reflexivity|exact A].
        -- right. rewrite Same. exact A.
      * left. exists j. split; [right; exact In|exact Qj].
      * right. exact Sv.
    + exists g. auto.
Qed.

(** X20. The main loop never raises on the timestamp of the death screen
    and its session is a session of update passes: for every level, bricks
    and inputs, [while running] returns a state, and the session of that
    state is the initial session after some sequence of frames, so every
    property of such sequences holds of the game as the loop runs it. *)
Theorem main_loop_runs_frames (platforms : list Platform)
    (bricks : list DamageBrick) (inputs : list MainLoop.Input) :
  exists g frames,
    MainLoop.loop platforms bricks inputs MainLoop.init = Some g /\
    MainLoop.session g = run platforms bricks frames initial_session.
Proof.
  destruct (loop_ok_loop platforms bricks inputs MainLoop.init
              (loop_ok_init platforms bricks) camera_ok_init)
    as (g & E & [[frames F] _] & _).
  exists g, frames. split; assumption.
Qed.

(** X21. The score is saved at most once, only when the game is over, and
    it is the final score: whenever the loop returns, the scores handed to
    [save_score] are none, or exactly the session's score with [game_over]
    set; a game that is not over has saved nothing; and a loop that has
    stopped without any QUIT event has saved its score. *)
Theorem score_saved_once (platforms : list Platform)
    (bricks : list DamageBrick) (inputs : list MainLoop.Input)
    (g : MainLoop.t) :
  MainLoop.loop platforms bricks inputs MainLoop.init = Some g ->
  (MainLoop.saved g = [] \/
   MainLoop.saved g = [score (MainLoop.session g)] /\
   game_over (MainLoop.session g) = true) /\
  (game_over (MainLoop.session g) = false -> MainLoop.saved g = []) /\
  (MainLoop.running g = false ->
   (forall i, In i inputs -> MainLoop.quit i = false) ->
   MainLoop.saved g = [score (MainLoop.session g)]).
Proof.
  intro E.
  destruct (loop_ok_loop platforms bricks inputs MainLoop.init
              (loop_ok_init platforms bricks) camera_ok_init)
    as (g' & E' & [_ S] & _ & Q).
  assert (g' = g) by congruence. subst g'.
  split; [|split].
  - destruct S as [[_ S]|[_ S]]; auto.
  - intro G. destruct S as [[_ S]|[_ [_ S]]]; [exact S|congruence].
  - intros Off NoQuit.
    destruct (Q Off) as [A|[[i [In A]]|A]].
    + discriminate A.
    + rewrite (NoQuit i In) in A. discriminate A.
    + destruct S as [[S _]|[_ [S _]]]; [congruence|exact S].
Qed.

(** X22. The camera of the main loop always shows a part of the world, and
    a living player is always on screen: whenever the loop returns, the
    viewport lies inside the world, and if [hp > 0] the player's rectangle,
    offset by the camera, lies inside the window. *)
Theorem camera_follows_player (platforms : list Platform)
    (bricks : list DamageBrick) (inputs : list MainLoop.Input)
    (g : MainLoop.t) :
  MainLoop.loop platforms bricks inputs MainLoop.init = Some g ->
  inside (Camera.camera (MainLoop.camera g)) world /\
  (0 < hp (player (MainLoop.session g)) ->
   inside (Camera.apply (MainLoop.camera g)
             (player_rect (player (MainLoop.session g))))
          window).
Proof.
  intro E.
  destruct (loop_ok_loop platforms bricks inputs MainLoop.init
              (loop_ok_init platforms bricks) camera_ok_init)
    as (g' & E' & _ & [_ [_ C]] & _).
  assert (g' = g) by congruence. subst g'. exact C.
Qed.

Lemma score_saved_once_witness :
  MainLoop.loop ledge [brick_on_ledge] (idle_iterations 520) MainLoop.init =
    Some (loop_result ledge [brick_on_ledge] (idle_iterations 520)) /\
  MainLoop.saved (loop_result ledge [brick_on_ledge] (idle_iterations 520)) =
    [score (MainLoop.session
              (loop_result ledge [brick_on_ledge] (idle_iterations 520)))].
Proof.
  assert (E : MainLoop.loop ledge [brick_on_ledge] (idle_iterations 520)
                MainLoop.init =
              Some (loop_result ledge [brick_on_ledge] (idle_iterations 520)))
    by (vm_compute; reflexivity).
  split; [exact E|].
  destruct (score_saved_once _ _ _ _ E) as [_ [_ S]].
  apply S.
  - vm_compute; reflexivity.
  - intros i I. apply in_map_iff in I. destruct I as [t [<- _]]. reflexivity.
Defined.

Lemma camera_follows_player_witness :
  MainLoop.loop ledge [] (idle_iterations 30) MainLoop.init =
    Some (loop_result ledge [] (idle_iterations 30)) /\
  inside (Camera.apply (MainLoop.camera (loop_result ledge [] (idle_iterations 30)))
            (player_rect
               (player (MainLoop.session
                          (loop_result ledge [] (idle_iterations 30))))))
         window.
Proof.
  assert (E : MainLoop.loop ledge [] (idle_iterations 30) MainLoop.init =
              Some (loop_result ledge [] (idle_iterations 30)))
    by (vm_compute; reflexivity).
  split; [exact E|].
  destruct (camera_follows_player _ _ _ _ E) as [_ C].
  apply C. vm_compute; reflexivity.
Defined.

(** ** The menu *)

Section Menu.

Context {char : Type} (isspace : char -> bool).

Lemma truthy_lstrip (s : list char) :
  MainMenu.truthy (MainMenu.lstrip isspace s) =
  existsb (fun c => negb (isspace c)) s.
Proof.
  induction s as [|c s IH]; [reflexivity|].
  cbn. destruct (isspace c); [exact IH|reflexivity].
Qed.

Lemma existsb_lstrip (s : list char) :
  existsb (fun c => negb (isspace c)) (MainMenu.lstrip isspace s) =
  existsb (fun c => negb (isspace c)) s.
Proof.
  induction s as [|c s IH]; [reflexivity|].
  cbn [MainMenu.lstrip]. destruct (isspace c) eqn:E; [|reflexivity].
  cbn [existsb]. rewrite E. exact IH.
Qed.

Lemma truthy_rev (s : list char) :
  MainMenu.truthy (rev s) = MainMenu.truthy s.
Proof.
  destruct s as [|c s]; [reflexivity|].
  cbn [rev MainMenu.truthy]. destruct (rev s); reflexivity.
Qed.

Lemma existsb_rev' (f : char -> bool) (s : list char) :
  existsb f (rev s) = existsb f s.
Proof.
  induction s as [|c s IH]; [reflexivity|].
  cbn [rev existsb]. rewrite existsb_app, IH. cbn [existsb].
  rewrite orb_false_r. apply orb_comm.
Qed.

Lemma truthy_strip (s : list char) :
  MainMenu.truthy (MainMenu.strip isspace s) =
  existsb (fun c => negb (isspace c)) s.
Proof.
  unfold MainMenu.strip.
  rewrite truthy_rev, truthy_lstrip, existsb_rev', existsb_lstrip.
  reflexivity.
Qed.

Lemma handle_event_inl (m : MainMenu.t char) (e : MainMenu.Event char)
    (name : list char) :
  MainMenu.handle_event isspace m e = inl name ->
  name = MainMenu.player_name m /\
  MainMenu.truthy (MainMenu.strip isspace name) = true /\
  exists pos, e = MainMenu.MOUSEBUTTONDOWN pos /\
              collidepoint MainMenu.play_button_rect pos = true.
Proof.
  destruct e as [|pos|key unicode|]; cbn [MainMenu.handle_event];
    try discriminate.
  - destruct (collidepoint MainMenu.play_button_rect pos) eqn:P;
      cbn [andb].
    + destruct (MainMenu.truthy
                  (MainMenu.strip isspace (MainMenu.player_name m))) eqn:T.
      * intro H. injection H as <-. split; [reflexivity|].
        split; [exact T|]. exists pos. split; [reflexivity|exact P].
      * destruct (collidepoint MainMenu.input_rect pos); discriminate.
    + destruct (collidepoint MainMenu.input_rect pos); discriminate.
  - destruct (MainMenu.input_active m); [|discriminate].
    destruct (key =? MainMenu.K_BACKSPACE); discriminate.
Qed.

Lemma handle_events_inl (events : list (MainMenu.Event char))
    (m : MainMenu.t char) (name : list char) :
  MainMenu.handle_events isspace m events = inl name ->
  MainMenu.truthy (MainMenu.strip isspace name) = true /\
  exists pos, In (MainMenu.MOUSEBUTTONDOWN pos) events /\
              collidepoint MainMenu.play_button_rect pos = true.
Proof.
  revert m. induction events as [|e events IH]; intro m;
    cbn [MainMenu.handle_events]; [discriminate|].
  destruct (MainMenu.handle_event isspace m e) as [n|m'] eqn:E.
  - intro H. injection H as ->.
    destruct (handle_event_inl _ _ _ E) as (_ & T & pos & -> & P).
    split; [exact T|]. exists pos. split; [left; reflexivity|exact P].
  - intro H. destruct (IH _ H) as (T & pos & I & P).
    split; [exact T|]. exists pos. split; [right; exact I|exact P].
Qed.

Lemma main_menu_loop_play (frames : list (list (MainMenu.Event char)))
    (m : MainMenu.t char) (name : list char) :
  MainMenu.main_menu_loop isspace frames m = MainMenu.Play name ->
  MainMenu.truthy (MainMenu.strip isspace name) = true /\
  exists pos, In (MainMenu.MOUSEBUTTONDOWN pos) (concat frames) /\
              collidepoint MainMenu.play_button_rect pos = true.
Proof.
  revert m. induction frames as [|events frames IH]; intro m;
    cbn [MainMenu.main_menu_loop].
  - destruct (MainMenu.running m); discriminate.
  - destruct (MainMenu.running m); [|discriminate].
    destruct (MainMenu.handle_events isspace m events) as [n|m'] eqn:E.
    + intro H. injection H as ->.
      destruct (handle_events_inl _ _ _ E) as (T & pos & I & P).
      split; [exact T|]. exists pos. cbn [concat].
      split; [apply in_or_app; left; exact I|exact P].
    + intro H. destruct (IH _ H) as (T & pos & I & P).
      split; [exact T|]. exists pos. cbn [concat].
      split; [apply in_or_app; right; exact I|exact P].
Qed.

(** The state in which nothing has been typed and the field is not active. *)
Lemma handle_event_untouched (m : MainMenu.t char) (e : MainMenu.Event char) :
  MainMenu.player_name m = [] -> MainMenu.input_active m = false ->
  (exists m', MainMenu.handle_event isspace m e = inr m' /\
              MainMenu.player_name m' = [] /\
              (MainMenu.input_active m' = false \/
               exists pos, e = MainMenu.MOUSEBUTTONDOWN pos /\
                           collidepoint MainMenu.input_rect pos = true)).
Proof.
  intros N A.
  destruct e as [|pos|key unicode|]; cbn [MainMenu.handle_event].
  - eexists. split; [reflexivity|]. cbn. split; [exact N|left; exact A].
  - rewrite N. cbn [MainMenu.strip MainMenu.lstrip rev MainMenu.truthy].
    rewrite andb_false_r.
    destruct (collidepoint MainMenu.input_rect pos) eqn:I.
    + eexists. split; [reflexivity|]. cbn. split; [reflexivity|].
      right. exists pos. split; [reflexivity|exact I].
    + eexists. split; [reflexivity|]. cbn. split; [reflexivity|].
      left; reflexivity.
  - rewrite A. eexists. split; [reflexivity|]. split; [exact N|left; exact A].
  - eexists. split; [reflexivity|]. split; [exact N|left; exact A].
Qed.

Lemma handle_events_untouched (events : list (MainMenu.Event char))
    (m : MainMenu.t char) :
  MainMenu.player_name m = [] -> MainMenu.input_active m = false ->
  (forall pos, In (MainMenu.MOUSEBUTTONDOWN pos) events ->
               collidepoint MainMenu.input_rect pos = false) ->
  exists m', MainMenu.handle_events isspace m events = inr m' /\
             MainMenu.player_name m' = [] /\
             MainMenu.input_active m' = false.
Proof.
  revert m. induction events as [|e events IH]; intros m N A C;
    cbn [MainMenu.handle_events].
  - exists m. split; [reflexivity|]. split; assumption.
  - destruct (handle_event_untouched m e N A) as (m' & E & N' & [A'|A']).
    + rewrite E. apply IH; [exact N'|exact A'|].
      intros pos I. apply C. right; exact I.
    + destruct A' as (pos & -> & I).
      rewrite (C pos (or_introl eq_refl)) in I. discriminate I.
Qed.

Lemma main_menu_loop_untouched (frames : list (list (MainMenu.Event char)))
    (m : MainMenu.t char) (name : list char) :
  MainMenu.player_name m = [] -> MainMenu.input_active m = false ->
  (forall pos, In (MainMenu.MOUSEBUTTONDOWN pos) (concat frames) ->
               collidepoint MainMenu.input_rect pos = false) ->
  MainMenu.main_menu_loop isspace frames m <> MainMenu.Play name.
Proof.
  revert m. induction frames as [|events frames IH]; intros m N A C;
    cbn [MainMenu.main_menu_loop].
  - destruct (MainMenu.running m); discriminate.
  - destruct (MainMenu.running m); [|discriminate].
    destruct (handle_events_untouched events m N A) as (m' & E & N' & A').
    + intros pos I. apply C. cbn [concat]. apply in_or_app. left; exact I.
    + rewrite E. apply IH; [exact N'|exact A'|].
      intros pos I. apply C. cbn [concat]. apply in_or_app. right; exact I.
Qed.

(** X23. [main_menu] never starts a game under a blank name: when it
    returns a name, the name holds a character that is not white space (so
    [strip] of it is not empty and the name is truthy for the caller's
    [if player_name:]), and a click on the Play button is among the events
    handled. *)
Theorem main_menu_name_not_blank
    (frames : list (list (MainMenu.Event char))) (name : list char) :
  MainMenu.main_menu isspace frames = MainMenu.Play name ->
  existsb (fun c => negb (isspace c)) name = true /\
  MainMenu.truthy name = true /\
  exists pos, In (MainMenu.MOUSEBUTTONDOWN pos) (concat frames) /\
              collidepoint MainMenu.play_button_rect pos = true.
Proof.
  intro H. destruct (main_menu_loop_play _ _ _ H) as (T & C).
  rewrite truthy_strip in T. split; [exact T|]. split; [|exact C].
  destruct name; [discriminate T|reflexivity].
Qed.

(** X24. Nothing can be typed before the input field has been clicked:
    if no mouse click among the events lies inside the input field,
    [main_menu] does not return a name, whatever keys are pressed and
    wherever else the mouse is clicked. *)
Theorem main_menu_needs_field_click
    (frames : list (list (MainMenu.Event char))) (name : list char) :
  (forall pos, In (MainMenu.MOUSEBUTTONDOWN pos) (concat frames) ->
               collidepoint MainMenu.input_rect pos = false) ->
  MainMenu.main_menu isspace frames <> MainMenu.Play name.
Proof.
  intro C. apply main_menu_loop_untouched; [reflexivity|reflexivity|exact C].
Qed.

Lemma handle_events_backspaces (u : list char) (v : list char)
    (name : list char) (running : bool) :
  MainMenu.handle_events isspace (MainMenu.mk (name ++ u) true running)
    (repeat (MainMenu.KEYDOWN MainMenu.K_BACKSPACE v) (length u)) =
  inr (MainMenu.mk name true running).
Proof.
  induction u as [|c u IH] using rev_ind.
  - rewrite app_nil_r. reflexivity.
  - rewrite length_app, Nat.add_comm. cbn [length Nat.add repeat].
    cbn [MainMenu.handle_events MainMenu.handle_event MainMenu.input_active
         MainMenu.player_name MainMenu.running].
    rewrite Z.eqb_refl. unfold MainMenu.drop_last.
    rewrite app_assoc, removelast_last. exact IH.
Qed.

(** X25. Backspace undoes typing: with the input field active, a key press
    that is not backspace appends its [unicode] text, and as many
    backspaces as that text has characters bring the menu back to the state
    before it. *)
Theorem typing_then_backspace (m : MainMenu.t char) (key : Z)
    (u v : list char) :
  MainMenu.input_active m = true ->
  key <> MainMenu.K_BACKSPACE ->
  MainMenu.handle_events isspace m
    (MainMenu.KEYDOWN key u ::
     repeat (MainMenu.KEYDOWN MainMenu.K_BACKSPACE v) (length u)) = inr m.
Proof.
  intros A K. destruct m as [name active running]. cbn in A. subst active.
  cbn [MainMenu.handle_events MainMenu.handle_event MainMenu.input_active
       MainMenu.player_name MainMenu.running].
  apply Z.eqb_neq in K. rewrite K.
  apply handle_events_backspaces.
Qed.

Lemma handle_event_running (m m' : MainMenu.t char) (e : MainMenu.Event char) :
  MainMenu.handle_event isspace m e = inr m' ->
  MainMenu.running m = false -> MainMenu.running m' = false.
Proof.
  destruct e as [|pos|key unicode|]; cbn [MainMenu.handle_event].
  - intro H. injection H as <-. reflexivity.
  - destruct (collidepoint MainMenu.play_button_rect pos &&
              MainMenu.truthy (MainMenu.strip isspace (MainMenu.player_name m)));
      [discriminate|].
    destruct (collidepoint MainMenu.input_rect pos);
      intro H; injection H as <-; intro R; exact R.
  - destruct (MainMenu.input_active m).
    + destruct (key =? MainMenu.K_BACKSPACE);
        intro H; injection H as <-; intro R; exact R.
    + intro H. injection H as <-. intro R; exact R.
  - intro H. injection H as <-. intro R; exact R.
Qed.

Lemma handle_events_running (events : list (MainMenu.Event char))
    (m m' : MainMenu.t char) :
  MainMenu.handle_events isspace m events = inr m' ->
  MainMenu.running m = false -> MainMenu.running m' = false.
Proof.
  revert m. induction events as [|e events IH]; intro m;
    cbn [MainMenu.handle_events].
  - intro H. injection H as <-. intro R; exact R.
  - destruct (MainMenu.handle_event isspace m e) as [n|m1] eqn:E;
      [discriminate|].
    intros H R. apply (IH _ H). exact (handle_event_running _ _ _ E R).
Qed.

Lemma handle_events_quit (events : list (MainMenu.Event char))
    (m m' : MainMenu.t char) :
  In MainMenu.QUIT events ->
  MainMenu.handle_events isspace m events = inr m' ->
  MainMenu.running m' = false.
Proof.
  revert m. induction events as [|e events IH]; intros m I;
    [destruct I|].
  cbn [MainMenu.handle_events].
  destruct (MainMenu.handle_event isspace m e) as [n|m1] eqn:E;
    [discriminate|].
  intro H. destruct I as [->|I].
  - cbn in E. injection E as <-.
    apply (handle_events_running _ _ _ H). reflexivity.
  - exact (IH _ I H).
Qed.

(** X26. A QUIT event closes the menu only at the end of its frame: the
    events queued behind it in the same frame are still handled, so the
    frame ends either with the game started by a Play click or with the
    menu closed, and no later frame is looked at. *)
Theorem main_menu_quit (events : list (MainMenu.Event char))
    (frames : list (list (MainMenu.Event char))) (m : MainMenu.t char) :
  MainMenu.running m = true ->
  In MainMenu.QUIT events ->
  MainMenu.main_menu_loop isspace (events :: frames) m =
  match MainMenu.handle_events isspace m events with
  | inl name => MainMenu.Play name
  | inr _ => MainMenu.Closed
  end.
Proof.
  intros R I. cbn [MainMenu.main_menu_loop]. rewrite R.
  destruct (MainMenu.handle_events isspace m events) as [n|m'] eqn:E;
    [reflexivity|].
  pose proof (handle_events_quit _ _ _ I E) as R'.
  destruct frames; cbn [MainMenu.main_menu_loop]; rewrite R'; reflexivity.
Qed.

(** X27. A click on the Play button while the name is blank starts nothing
    and takes the focus from the input field: the name and [running] are
    kept and [input_active] becomes false, because the button lies outside
    the field. *)
Theorem play_refused_for_blank_name (m : MainMenu.t char) (pos : Z * Z) :
  collidepoint MainMenu.play_button_rect pos = true ->
  existsb (fun c => negb (isspace c)) (MainMenu.player_name m) = false ->
  MainMenu.handle_event isspace m (MainMenu.MOUSEBUTTONDOWN pos) =
  inr (MainMenu.mk (MainMenu.player_name m) false (MainMenu.running m)).
Proof.
  intros P B. cbn [MainMenu.handle_event].
  rewrite truthy_strip, B, andb_false_r.
  assert (I : collidepoint MainMenu.input_rect pos = false).
  { unfold collidepoint in *.
    change (rx MainMenu.play_button_rect) with 325 in P.
    change (ry MainMenu.play_button_rect) with 350 in P.
    change (rw MainMenu.play_button_rect) with 150 in P.
    change (rh MainMenu.play_button_rect) with 50 in P.
    change (rx MainMenu.input_rect) with 250.
    change (ry MainMenu.input_rect) with 250.
    change (rw MainMenu.input_rect) with 300.
    change (rh MainMenu.input_rect) with 50.
    apply andb_prop in P. destruct P as [P P4].
    apply andb_prop in P. destruct P as [P P3].
    apply andb_prop in P. destruct P as [P1 P2].
    apply Z.leb_le in P3.
    apply andb_false_iff. right. apply Z.ltb_ge. lia. }
  rewrite I. reflexivity.
Qed.

End Menu.

Lemma main_menu_name_not_blank_witness :
  MainMenu.main_menu is_blank [[]; menu_events] = MainMenu.Play [65; 98] /\
  MainMenu.truthy [65; 98] = true.
Proof.
  assert (E : MainMenu.main_menu is_blank [[]; menu_events] =
              MainMenu.Play [65; 98]) by (vm_compute; reflexivity).
  split; [exact E|].
  destruct (main_menu_name_not_blank is_blank _ _ E) as [_ [T _]]. exact T.
Defined.

Lemma main_menu_needs_field_click_witness :
  MainMenu.main_menu is_blank
    [[MainMenu.KEYDOWN 97 [65]; MainMenu.MOUSEBUTTONDOWN (400, 375)]] <>
  MainMenu.Play [65].
Proof.
  apply (main_menu_needs_field_click is_blank).
  intros pos I. cbn in I.
  destruct I as [I|[I|[]]]; [discriminate I|].
  injection I as <-. vm_compute; reflexivity.
Defined.

Lemma typing_then_backspace_witness :
  MainMenu.handle_events is_blank (MainMenu.mk [65] true true)
    (MainMenu.KEYDOWN 98 [98; 99] ::
     repeat (MainMenu.KEYDOWN MainMenu.K_BACKSPACE []) 2) =
  inr (MainMenu.mk [65] true true).
Proof.
  apply (typing_then_backspace is_blank (MainMenu.mk [65] true true) 98
           [98; 99] []).
  - reflexivity.
  - unfold MainMenu.K_BACKSPACE. lia.
Defined.

Lemma main_menu_quit_witness :
  MainMenu.main_menu_loop is_blank
    ([MainMenu.QUIT; MainMenu.MOUSEBUTTONDOWN (400, 375)] :: [menu_events])
    (MainMenu.mk [65] false true) =
  MainMenu.Play [65].
Proof.
  rewrite (main_menu_quit is_blank
             [MainMenu.QUIT; MainMenu.MOUSEBUTTONDOWN (400, 375)]
             [menu_events] (MainMenu.mk [65] false true)).
  - vm_compute; reflexivity.
  - reflexivity.
  - left; reflexivity.
Defined.

Lemma play_refused_for_blank_name_witness :
  MainMenu.handle_event is_blank (MainMenu.mk [32; 32] true true)
    (MainMenu.MOUSEBUTTONDOWN (400, 375)) =
  inr (MainMenu.mk [32; 32] false true).
Proof.
  apply (play_refused_for_blank_name is_blank (MainMenu.mk [32; 32] true true)
           (400, 375)).
  - vm_compute; reflexivity.
  - vm_compute; reflexivity.
Defined.
